(** * hearsay: ordered fan-out, chunking, figure triage and narration assembly

    A shallow embedding of the orchestration code of [hearsay/review.py] and
    [hearsay/tts.py], and the properties of it that the specification states;
    then the helpers around it ([slugify], the media type of an image, the
    name of the audio file, [parse_dialogue] of [paper_podcast/tts.py]) and
    further properties of the code.

    Python values are modelled as follows.
    - [str] is a list of Unicode code points ([N]); [len] is [length].
    - An [int] is a [Z] or, where the code only counts, a [nat].
    - A raised [Exception] is the [Err] case of [result].
    - Remote calls (cleaning, classification, description, synthesis) are
      oracles: functions from the arguments of the call to its outcome.
    - A thread pool is modelled by the order in which its workers complete
      (a schedule: a list of indices of the submitted calls). *)

From Stdlib Require Import ZArith NArith Lia String Ascii.
From Stdlib Require Import DecimalString DecimalNat.
From stdpp Require Import base option list sorting gmap.
From Equations Require Import Equations.

Set Default Proof Using "Type".
Local Open Scope nat_scope.

(** ** Lists and strings *)

(** [not l] for a list or a string: an empty one is false. *)
Definition is_empty {A} (l : list A) : bool :=
  match l with [] => true | _ => false end.

Abbreviation str := (list N).

(** A literal: the code points of an ASCII string. *)
Definition lit (x : string) : str :=
  List.map N_of_ascii (list_ascii_of_string x).
Arguments lit x%_string.

Definition NL : N := 10%N.

(** The separator ["\n\n"]. *)
Definition nn : str := [NL; NL].

(** [sep.join(l)]. *)
Fixpoint join (sep : str) (l : list str) : str :=
  match l with
  | [] => []
  | x :: xs =>
      match xs with
      | [] => x
      | _ :: _ => x ++ sep ++ join sep xs
      end
  end.

Definition cons_hd (c : N) (l : list str) : list str :=
  match l with
  | [] => [[c]]
  | p :: ps => (c :: p) :: ps
  end.

(** [s.split("\n\n")]: the pieces between the occurrences of the separator,
    found from the left without overlap; always at least one piece. *)
Fixpoint split_nn (s : str) : list str :=
  match s with
  | [] => [[]]
  | c :: s' =>
      match s' with
      | [] => [[c]]
      | c' :: s'' =>
          if (c =? NL)%N && (c' =? NL)%N then [] :: split_nn s''
          else cons_hd c (split_nn s')
      end
  end.

(** [str(i)] for a natural number. *)
Definition str_of_nat (n : nat) : str :=
  lit (NilEmpty.string_of_uint (Nat.to_uint n)).

Fixpoint starts_with (p s : str) : bool :=
  match p, s with
  | [], _ => true
  | _ :: _, [] => false
  | a :: p', b :: s' => (a =? b)%N && starts_with p' s'
  end.

(** [sub in s]. *)
Fixpoint contains (sub s : str) : bool :=
  starts_with sub s
  || match s with
     | [] => false
     | _ :: s' => contains sub s'
     end.

(** [s.replace(old, new)] for a non-empty [old]: every occurrence of [old],
    found from the left without overlap, is replaced. [skip] counts the
    characters of a matched occurrence that are still to be passed over. *)
Fixpoint replace_from (old new : str) (skip : nat) (s : str) : str :=
  match s with
  | [] => []
  | c :: s' =>
      match skip with
      | S k => replace_from old new k s'
      | O =>
          if starts_with old s
          then new ++ replace_from old new (length old - 1) s'
          else c :: replace_from old new 0 s'
      end
  end.

Definition replace (old new s : str) : str :=
  match old with
  | [] => new ++ flat_map (λ c, c :: new) s
  | _ :: _ => replace_from old new 0 s
  end.

(** The characters [str.strip()] removes: those with [str.isspace()]. *)
Definition isspace (c : N) : bool :=
  ((9 <=? c) && (c <=? 13) || (28 <=? c) && (c <=? 32)
   || (c =? 133) || (c =? 160) || (c =? 5760)
   || (8192 <=? c) && (c <=? 8202)
   || (c =? 8232) || (c =? 8233) || (c =? 8239) || (c =? 8287)
   || (c =? 12288))%N.

Fixpoint lstrip (s : str) : str :=
  match s with
  | [] => []
  | c :: s' => if isspace c then lstrip s' else s
  end.

Definition rstrip (s : str) : str := rev (lstrip (rev s)).

Definition strip (s : str) : str := rstrip (lstrip s).

(** [buffer.split("\n\n", 1)] when the separator occurs in [buffer]: the text
    before its first occurrence and the text after it; [None] when
    ["\n\n" in buffer] is false. *)
Fixpoint find_nn (s : str) : option (str * str) :=
  match s with
  | [] => None
  | c :: s' =>
      match s' with
      | [] => None
      | c' :: s'' =>
          if (c =? NL)%N && (c' =? NL)%N then Some ([], s'')
          else match find_nn s' with
               | Some (p, r) => Some (c :: p, r)
               | None => None
               end
      end
  end.

(** ** review.py: [_chunk_text] *)

Record chunk_state := ChunkState {
  chunks : list str;
  current : list str;
  current_len : nat
}.

(** The body of [for para in paragraphs]. *)
Definition chunk_step (max_chars : Z) (st : chunk_state) (para : str)
  : chunk_state :=
  if (max_chars <? Z.of_nat (current_len st + length para))%Z
     && negb (is_empty (current st))
  then {| chunks := chunks st ++ [join nn (current st)];
          current := [para];
          current_len := length para |}
  else {| chunks := chunks st;
          current := current st ++ [para];
          current_len := current_len st + length para |}.

Definition _chunk_text (text : str) (max_chars : Z) : list str :=
  let paragraphs := split_nn text in
  let st := foldl (chunk_step max_chars) (ChunkState [] [] 0) paragraphs in
  if is_empty (current st) then chunks st
  else chunks st ++ [join nn (current st)].

(** The default of the parameter [max_chars]. *)
Definition MAX_CHARS : Z := 12000.

(** ** Exceptions and results *)

Record Path := mkPath { parent : str; name : str }.

Inductive exn :=
| ValueError (msg : str)
| FileNotFoundError (p : Path)
| RemoteError (code : N).

Inductive result (A : Type) :=
| Ok (a : A)
| Err (e : exn).
Arguments Ok {A} a.
Arguments Err {A} e.

Definition is_ok {A} (r : result A) : bool :=
  match r with Ok _ => true | Err _ => false end.

(** ** Paths and files *)

#[global] Instance Path_eq_dec : EqDecision Path.
Proof. solve_decision. Defined.

#[global] Instance Path_countable : Countable Path :=
  inj_countable' (λ p, (parent p, name p)) (λ x, mkPath x.1 x.2)
    (λ p, match p with mkPath _ _ => eq_refl end).

(** [p / child]. *)
Definition path_join (p : Path) (child : str) : Path :=
  mkPath (parent p ++ lit "/" ++ name p) child.

(** [name.rfind(".")]. *)
Fixpoint rfind_dot (s : str) : option nat :=
  match s with
  | [] => None
  | c :: s' =>
      match rfind_dot s' with
      | Some i => Some (S i)
      | None => if (c =? 46)%N then Some 0 else None
      end
  end.

(** [PurePath.suffix]: the last dot of the name and what follows it, unless
    the dot is the first or the last character of the name. *)
Definition suffix (p : Path) : str :=
  match rfind_dot (name p) with
  | Some i =>
      if (0 <? i) && (i <? length (name p) - 1) then drop i (name p) else []
  | None => []
  end.

(** What the code does to the file system: the files deleted, renamed and
    written, and the classification results consumed, in program order. *)
Inductive event :=
| EvClassified (i : nat)
| EvUnlink (p : Path)
| EvRename (src dst : Path)
| EvWrite (p : Path).

#[global] Instance event_eq_dec : EqDecision event.
Proof. solve_decision. Defined.

(** The files (path to content) and the trace of events. *)
Record pstate := PState {
  fs : gmap Path str;
  log : list event
}.

Definition emit (e : event) (s : pstate) : pstate :=
  PState (fs s) (log s ++ [e]).

(** [p.unlink()]. *)
Definition unlink (s : pstate) (p : Path) : result pstate :=
  match fs s !! p with
  | Some _ => Ok (PState (delete p (fs s)) (log s ++ [EvUnlink p]))
  | None => Err (FileNotFoundError p)
  end.

(** [src.rename(dst)], as on POSIX: an existing [dst] is replaced. The one
    failure of the call that is modelled is a source that does not exist. *)
Definition rename (s : pstate) (src dst : Path) : result pstate :=
  match fs s !! src with
  | Some c =>
      Ok (PState (<[dst := c]> (delete src (fs s))) (log s ++ [EvRename src dst]))
  | None => Err (FileNotFoundError src)
  end.

(** [p.write_text(text)]. *)
Definition write_text (s : pstate) (p : Path) (text : str) : pstate :=
  PState (<[p := text]> (fs s)) (log s ++ [EvWrite p]).

(** ** Thread pools *)

(** [executor.submit] returns a future; [calls] are the outcomes the submitted
    calls will have, in submission order. The workers complete in the order
    [order]; a completed worker stores its outcome in its own future. *)
Definition run_pool {A} (calls : list (result A)) (order : list nat)
  : list (option (result A)) :=
  foldl (λ slots i,
           match calls !! i with
           | Some r => <[i := Some r]> slots
           | None => slots
           end)
        (replicate (length calls) None) order.

(** [[f.result() for f in futures]]: the futures are waited for in list order
    and the first exception met is raised. [None]: a future that no worker
    completes is waited for, for ever. *)
Fixpoint collect_results {A} (futures : list (option (result A)))
  : option (result (list A)) :=
  match futures with
  | [] => Some (Ok [])
  | None :: _ => None
  | Some (Err e) :: _ => Some (Err e)
  | Some (Ok a) :: rest =>
      match collect_results rest with
      | Some (Ok l) => Some (Ok (a :: l))
      | other => other
      end
  end.

(** ** review.py: the remote calls and [clean_paper_text] *)

(** The environment and the remote service: what each call returns or raises,
    as a function of the arguments of the call. *)
Record world := World {
  (** [os.environ.get("ANTHROPIC_API_KEY")] after [load_dotenv()] *)
  api_key : option str;
  (** [_clean_chunk(client, chunk, chunk_num, total_chunks, title)] *)
  _clean_chunk : str → nat → nat → option str → result str;
  (** [is_paper_figure(image_path, paper_context)] after [get_client()]:
      the image is read and encoded, the service is called and its reply is
      searched for the word [figure] *)
  classify_image : Path → str → result bool;
  (** [describe_figure(image_path, figure_num, paper_context)] after
      [get_client()]: the image is read and encoded, and the service is
      called *)
  describe_image : Path → nat → str → result str
}.

(** [get_client()]: raises when the key is unset or empty. *)
Definition get_client (w : world) : result unit :=
  match api_key w with
  | Some (_ :: _) => Ok tt
  | _ =>
      Err (ValueError
             (lit "ANTHROPIC_API_KEY not set. Either:" ++ [NL]
              ++ lit "  1. Set environment variable: export ANTHROPIC_API_KEY=sk-..."
              ++ [NL]
              ++ lit "  2. Create .env file with: ANTHROPIC_API_KEY=sk-..."))
  end.

(** [is_paper_figure(image_path, paper_context)]: the client comes first. *)
Definition is_paper_figure (w : world) (image_path : Path)
    (paper_context : str) : result bool :=
  match get_client w with
  | Err e => Err e
  | Ok _ => classify_image w image_path paper_context
  end.

(** [describe_figure(image_path, figure_num, paper_context)]: the client
    comes first. *)
Definition describe_figure (w : world) (image_path : Path) (figure_num : nat)
    (paper_context : str) : result str :=
  match get_client w with
  | Err e => Err e
  | Ok _ => describe_image w image_path figure_num paper_context
  end.

(** [clean_paper_text(raw_text, title)], with the order [order] in which the
    chunk workers complete. *)
Definition clean_paper_text (w : world) (order : list nat)
    (raw_text : str) (title : option str) : option (result str) :=
  match get_client w with
  | Err e => Some (Err e)
  | Ok _ =>
      let chunks := _chunk_text raw_text MAX_CHARS in
      if length chunks =? 0
      then Some (Err (ValueError (lit "max_workers must be greater than 0")))
      else
        let futures :=
          run_pool
            (imap (λ i chunk, _clean_chunk w chunk (i + 1) (length chunks) title)
                  chunks)
            order in
        match collect_results futures with
        | None => None
        | Some (Err e) => Some (Err e)
        | Some (Ok results) => Some (Ok (join nn results))
        end
  end.

(** ** review.py: [_insert_figure_descriptions] *)

(** A [dict[str, str]]: its items in insertion order. *)
Abbreviation dict := (list (str * str)).

(** [d[k] = v]: an existing key keeps its place, a new key goes last. *)
Fixpoint dict_set (d : dict) (k v : str) : dict :=
  match d with
  | [] => [(k, v)]
  | (k', v') :: d' =>
      if decide (k = k') then (k, v) :: d' else (k', v') :: dict_set d' k v
  end.

Definition REFERENCES : str := lit "## References".

(** The body of [for i, (key, desc) in enumerate(descriptions.items(), 1)];
    [key] is not used. Under the test [i <= len(figure_paths)], with [i] at
    least 1, [figure_paths[i - 1]] exists. *)
Definition figure_entry (figure_paths : list Path) (i : nat) (desc : str)
  : str :=
  let fig_num := str_of_nat i in
  if negb (is_empty figure_paths) && (i <=? length figure_paths)
  then
    match figure_paths !! (i - 1) with
    | Some img_path =>
        let rel_path := lit "img/" ++ name img_path in
        lit "### Figure " ++ fig_num ++ nn
        ++ lit "![Figure " ++ fig_num ++ lit "](" ++ rel_path ++ lit ")" ++ nn
        ++ lit "**Description:** " ++ desc ++ nn
    | None => []
    end
  else
    lit "### Figure " ++ fig_num ++ nn
    ++ lit "**Description:** " ++ desc ++ nn.

Definition figures_section (descriptions : dict) (figure_paths : list Path)
  : str :=
  foldl (λ section '(i, (key, desc)),
           section ++ figure_entry figure_paths i desc)
        (nn ++ lit "## Figures" ++ nn)
        (imap (λ k item, (k + 1, item)) descriptions).

Definition _insert_figure_descriptions (markdown : str) (descriptions : dict)
    (figure_paths : list Path) : str :=
  let section := figures_section descriptions figure_paths in
  if contains REFERENCES markdown
  then replace REFERENCES (section ++ REFERENCES) markdown
  else markdown ++ section.

(** ** review.py: [process_paper] *)

(** The completion orders of one run of [process_paper]. *)
Record schedule := Schedule {
  (** the chunk workers of [clean_paper_text] *)
  clean_order : list nat;
  (** [as_completed(filter_futures)], as positions in [all_images] *)
  filter_order : list nat;
  (** [as_completed(desc_futures)], as positions in [figure_paths] *)
  desc_order : list nat
}.

(** The body of [for future in as_completed(filter_futures)], for the future
    of the image at position [i]. *)
Definition triage_step (w : world) (title : str) (all_images : list Path)
    (acc : pstate * list Path) (i : nat) : pstate * list Path :=
  match all_images !! i with
  | None => acc
  | Some img_path =>
      let s := emit (EvClassified i) acc.1 in
      let figure_paths := acc.2 in
      match is_paper_figure w img_path title with
      | Ok true => (s, figure_paths ++ [img_path])
      | Ok false =>
          match unlink s img_path with
          | Ok s' => (s', figure_paths)
          | Err _ => (s, figure_paths ++ [img_path])
          end
      | Err _ => (s, figure_paths ++ [img_path])
      end
  end.

Definition triage_loop (w : world) (title : str) (all_images : list Path)
    (order : list nat) (s : pstate) : pstate * list Path :=
  foldl (triage_step w title all_images) (s, []) order.

(** [all_images.index(p)]. *)
Fixpoint index_of (p : Path) (l : list Path) : option nat :=
  match l with
  | [] => None
  | q :: l' => if decide (p = q) then Some 0 else S <$> index_of p l'
  end.

Fixpoint insert_by_key (x : nat * Path) (l : list (nat * Path))
  : list (nat * Path) :=
  match l with
  | [] => [x]
  | y :: l' => if x.1 <=? y.1 then x :: l else y :: insert_by_key x l'
  end.

(** [figure_paths.sort(key=lambda p: all_images.index(p))]: the keys are
    computed first, then the list is sorted by key; the sort is stable. *)
Definition sort_by_index (all_images figure_paths : list Path)
  : result (list Path) :=
  match mapM (λ p, index_of p all_images) figure_paths with
  | None => Err (ValueError (lit "is not in list"))
  | Some keys => Ok (foldr insert_by_key [] (zip keys figure_paths)).*2
  end.

(** [fig_path.parent / f"figure_{i}{fig_path.suffix}"]. *)
Definition numbered (i : nat) (fig_path : Path) : Path :=
  mkPath (parent fig_path) (lit "figure_" ++ str_of_nat i ++ suffix fig_path).

(** [for i, fig_path in enumerate(figure_paths, 1)], from number [i] on. *)
Fixpoint rename_loop (s : pstate) (i : nat) (figure_paths final_paths : list Path)
  : pstate * result (list Path) :=
  match figure_paths with
  | [] => (s, Ok final_paths)
  | fig_path :: rest =>
      let new_path := numbered i fig_path in
      if decide (fig_path ≠ new_path)
      then
        match rename s fig_path new_path with
        | Ok s' => rename_loop s' (S i) rest (final_paths ++ [new_path])
        | Err e => (s, Err e)
        end
      else rename_loop s (S i) rest (final_paths ++ [new_path])
  end.

(** The block under [if all_images:]. *)
Definition triage (w : world) (title : str) (all_images : list Path)
    (order : list nat) (s : pstate) : pstate * result (list Path) :=
  let '(s1, figure_paths) := triage_loop w title all_images order s in
  match sort_by_index all_images figure_paths with
  | Err e => (s1, Err e)
  | Ok figure_paths => rename_loop s1 1 figure_paths []
  end.

(** The body of [for future in as_completed(desc_futures)], for the future of
    the figure at position [k], whose number is [k + 1]. *)
Definition describe_step (w : world) (title : str) (figure_paths : list Path)
    (descriptions : dict) (k : nat) : dict :=
  match figure_paths !! k with
  | None => descriptions
  | Some fig_path =>
      let i := k + 1 in
      match describe_figure w fig_path i title with
      | Ok d => dict_set descriptions (lit "figure_" ++ str_of_nat i) d
      | Err _ =>
          dict_set descriptions (lit "figure_" ++ str_of_nat i)
                   (lit "[Figure " ++ str_of_nat i ++ lit "]")
      end
  end.

Definition describe_loop (w : world) (title : str) (figure_paths : list Path)
    (order : list nat) : dict :=
  foldl (describe_step w title figure_paths) [] order.

Record paper := Paper {
  paper_dir : Path;
  title : str;
  figures : list Path;
  figure_descriptions : dict;
  markdown_path : Path
}.

(** [process_paper]. [raw_text] and [images] are what [extract_text_raw] and
    [extract_figures] of [hearsay.pdf] return; [dir] is
    [Path(output_dir) / slugify(title)]. [None]: the call does not return. *)
Definition process_paper (w : world) (sch : schedule) (raw_text : str)
    (images : list Path) (title : str) (dir : Path)
    (extract_figures describe_figures : bool) (s : pstate)
  : option (pstate * result paper) :=
  let all_images := if extract_figures then images else [] in
  match clean_paper_text w (clean_order sch) raw_text (Some title) with
  | None => None
  | Some text_future =>
      let '(s1, triaged) :=
        if negb (is_empty all_images)
        then triage w title all_images (filter_order sch) s
        else (s, Ok []) in
      match triaged with
      | Err e => Some (s1, Err e)
      | Ok figure_paths =>
          let descriptions :=
            if describe_figures && negb (is_empty figure_paths)
            then describe_loop w title figure_paths (desc_order sch)
            else [] in
          match text_future with
          | Err e => Some (s1, Err e)
          | Ok clean_text =>
              let clean_text :=
                if negb (is_empty descriptions)
                then _insert_figure_descriptions clean_text descriptions
                                                 figure_paths
                else clean_text in
              let md_path := path_join dir (lit "paper.md") in
              Some (write_text s1 md_path clean_text,
                    Ok (Paper dir title figure_paths descriptions md_path))
          end
      end
  end.

(** ** tts.py: synthesis and assembly *)

(** A [float32] sample, as its IEEE-754 bit pattern: samples are copied and
    concatenated, never computed with. *)
Definition sample : Type := Z.

Abbreviation audio := (list sample).

Definition SAMPLE_RATE : Z := 24000.

(** [np.zeros(int(SAMPLE_RATE * 0.4), dtype=np.float32)]: the product is
    9600.0 in binary64, so the pause is 9600 zero samples. *)
Definition pause : audio := replicate (Z.to_nat (SAMPLE_RATE * 4 / 10)) 0%Z.

(** The synthesis engine [pipeline(text, voice=voice, speed=1.2)]: the audio
    of the chunks it yields, or the exception it raises. *)
Abbreviation engine := (str → str → result (list audio)).

Definition _synthesize_segment (pipeline : engine) (text voice : str)
  : result audio :=
  match pipeline text voice with
  | Err e => Err e
  | Ok chunks => if is_empty chunks then Ok [] else Ok (concat chunks)
  end.

(** The body of the collecting loops, once [segment] is known. *)
Definition collect_segment (audio_segments : list audio) (segment : audio)
  : list audio :=
  if 0 <? length segment then audio_segments ++ [segment; pause]
  else audio_segments.

(** What follows the collecting loops: [np.concatenate(audio_segments)]. *)
Definition combine (audio_segments : list audio) : result audio :=
  if is_empty audio_segments
  then Err (ValueError (lit "No audio was generated"))
  else Ok (concat audio_segments).

(** [generate_audio], up to the combined samples. *)
Fixpoint synthesize_all (pipeline : engine) (voice : str)
    (paragraphs : list str) (audio_segments : list audio)
  : result (list audio) :=
  match paragraphs with
  | [] => Ok audio_segments
  | para :: rest =>
      match _synthesize_segment pipeline para voice with
      | Err e => Err e
      | Ok segment =>
          synthesize_all pipeline voice rest
                         (collect_segment audio_segments segment)
      end
  end.

Definition script_paragraphs (script : str) : list str :=
  let paragraphs :=
    strip <$> filter (λ p, strip p ≠ []) (split_nn script) in
  if is_empty paragraphs then [strip script] else paragraphs.

Definition generate_audio (pipeline : engine) (script voice : str)
  : result audio :=
  match synthesize_all pipeline voice (script_paragraphs script) [] with
  | Err e => Err e
  | Ok audio_segments => combine audio_segments
  end.

(** ** tts.py: [create_podcast] *)

(** The variables of the streaming loop. A future of the single-worker
    executor is held as the outcome its call will have. *)
Record stream_state := StreamState {
  script_parts : list str;
  tts_futures : list (result audio);
  para_idx : nat
}.

Definition _submit_paragraph (pipeline : engine) (voice : str) (text : str)
    (st : stream_state) : stream_state :=
  {| script_parts := script_parts st ++ [text];
     tts_futures := tts_futures st ++ [_synthesize_segment pipeline text voice];
     para_idx := para_idx st + 1 |}.

(** [if text: _submit_paragraph(text)], for a stripped [text]. *)
Definition submit_nonempty (pipeline : engine) (voice : str) (text : str)
    (st : stream_state) : stream_state :=
  if is_empty text then st else _submit_paragraph pipeline voice text st.

Definition inspect {A} (a : A) : {b : A | a = b} := exist _ a eq_refl.

(** [while "\n\n" in buffer: paragraph, buffer = buffer.split("\n\n", 1); ...].
    The test and the split are one match on [find_nn]. *)
Equations? drain (pipeline : engine) (voice : str) (buffer : str)
    (st : stream_state) : str * stream_state by wf (length buffer) lt :=
  drain pipeline voice buffer st with inspect (find_nn buffer) := {
    | exist _ (Some (paragraph, rest)) _ =>
        drain pipeline voice rest
              (submit_nonempty pipeline voice (strip paragraph) st)
    | exist _ None _ => (buffer, st) }.
Proof.
  clear drain st. revert paragraph rest e.
  induction buffer as [|c s' IH]; intros paragraph rest; [done|].
  destruct s' as [|c' s'']; [done|].
  change (find_nn (c :: c' :: s'')) with
    (if (c =? NL)%N && (c' =? NL)%N then Some ([], s'')
     else match find_nn (c' :: s'') with
          | Some (p, r) => Some (c :: p, r)
          | None => None
          end).
  destruct (_ && _).
  - intros [= <- <-]. cbn. lia.
  - destruct (find_nn (c' :: s'')) as [[p r]|] eqn:E; [|done].
    intros [= <- <-]. specialize (IH _ _ eq_refl). cbn in *. lia.
Qed.

(** The body of [for chunk in stream.text_stream]. *)
Definition push (pipeline : engine) (voice : str) (acc : str * stream_state)
    (chunk : str) : str * stream_state :=
  drain pipeline voice (acc.1 ++ chunk) acc.2.

(** The streaming loop over the deltas, then the flush of the buffer. *)
Definition stream_script (pipeline : engine) (voice : str) (deltas : list str)
  : stream_state :=
  let '(buffer, st) :=
    foldl (push pipeline voice) ([], StreamState [] [] 0) deltas in
  submit_nonempty pipeline voice (strip buffer) st.

(** [for i, future in enumerate(tts_futures)]: each future is waited for in
    submission order. *)
Fixpoint collect_audio (futures : list (result audio))
    (audio_segments : list audio) : result (list audio) :=
  match futures with
  | [] => Ok audio_segments
  | Err e :: _ => Err e
  | Ok segment :: rest =>
      collect_audio rest (collect_segment audio_segments segment)
  end.

Record podcast := Podcast {
  (** the text written to [script.txt] *)
  script : str;
  (** the samples handed to the encoder, or the exception raised *)
  combined : result audio
}.

(** [create_podcast], from the deltas of the stream to the combined samples,
    for a run in which the client and the engine were obtained and the stream
    delivered [deltas]; the script is written before the audio is
    collected. *)
Definition create_podcast (pipeline : engine) (deltas : list str) (voice : str)
  : podcast :=
  let st := stream_script pipeline voice deltas in
  let script := join nn (script_parts st) in
  {| script := script;
     combined :=
       match collect_audio (tts_futures st) [] with
       | Err e => Err e
       | Ok audio_segments => combine audio_segments
       end |}.

(** ** review.py: [slugify] and [_encode_image] *)

(** What the code uses of Python's Unicode database outside ASCII. *)
Record unicode := Unicode {
  (** [c.isalnum()] for a code point of 128 or more *)
  isalnum_high : N → bool;
  (** [s.lower()] for a string that is not ASCII only *)
  lower_high : str → str
}.

(** [c.isalnum()]. *)
Definition isalnum (u : unicode) (c : N) : bool :=
  if (c <? 128)%N
  then ((48 <=? c) && (c <=? 57) || (65 <=? c) && (c <=? 90)
        || (97 <=? c) && (c <=? 122))%N
  else isalnum_high u c.

(** The class [\w] of a [str] pattern. *)
Definition is_word (u : unicode) (c : N) : bool :=
  isalnum u c || (c =? 95)%N.

(** [s.lower()]. *)
Definition lower (u : unicode) (s : str) : str :=
  if forallb (λ c, c <? 128)%N s
  then (λ c, if (65 <=? c) && (c <=? 90) then c + 32 else c)%N <$> s
  else lower_high u s.

(** [re.sub] of the pattern [[^\w\s-]] by the empty string: every character
    that is not a word character, whitespace or a hyphen is removed. *)
Definition remove_unsafe (u : unicode) (s : str) : str :=
  List.filter (λ c, is_word u c || isspace c || (c =? 45)%N) s.

(** [re.sub] of the pattern [\s+] by an underscore: every maximal run of
    whitespace becomes one underscore. [in_run]: the character before was
    whitespace. *)
Fixpoint underscore_runs (in_run : bool) (s : str) : str :=
  match s with
  | [] => []
  | c :: s' =>
      if isspace c
      then if in_run then underscore_runs true s'
           else 95%N :: underscore_runs true s'
      else c :: underscore_runs false s'
  end.

(** [s[:n]]: a negative [n] counts from the end. *)
Definition slice_to (n : Z) (s : str) : str :=
  if (0 <=? n)%Z then take (Z.to_nat n) s
  else take (length s - Z.to_nat (- n)) s.

(** [s.lstrip(chars)]. *)
Fixpoint lstrip_chars (chars : str) (s : str) : str :=
  match s with
  | [] => []
  | c :: s' => if bool_decide (c ∈ chars) then lstrip_chars chars s' else s
  end.

(** [s.strip(chars)]. *)
Definition strip_chars (chars : str) (s : str) : str :=
  rev (lstrip_chars chars (rev (lstrip_chars chars s))).

Definition slugify (u : unicode) (title : str) (max_length : Z) : str :=
  let slug := remove_unsafe u title in
  let slug := underscore_runs false slug in
  let slug := strip_chars (lit "_") (slice_to max_length slug) in
  lower u slug.

(** The default of the parameter [max_length]. *)
Definition MAX_LENGTH : Z := 80.

(** [d.get(k)]. *)
Fixpoint dict_get (d : dict) (k : str) : option str :=
  match d with
  | [] => None
  | (k', v) :: d' => if decide (k = k') then Some v else dict_get d' k
  end.

(** [media_type_map] of [_encode_image]. *)
Definition media_type_map : dict :=
  [(lit ".png", lit "image/png"); (lit ".jpg", lit "image/jpeg");
   (lit ".jpeg", lit "image/jpeg"); (lit ".gif", lit "image/gif");
   (lit ".webp", lit "image/webp")].

(** [_encode_image(image_path)], its second component: the media type. *)
Definition media_type (u : unicode) (image_path : Path) : str :=
  let suffix := lower u (suffix image_path) in
  default (lit "image/png") (dict_get media_type_map suffix).

(** ** tts.py: the name of the audio file *)

(** [safe_title] of [create_podcast]; the audio file is
    [f"{safe_title}.mp3"]. *)
Definition safe_title (u : unicode) (title : str) : str :=
  slice_to 60 (underscore_runs false (remove_unsafe u title)).

(** ** paper_podcast/tts.py: [parse_dialogue] *)

(** [s.split("\n")]. *)
Fixpoint split_lines (s : str) : list str :=
  match s with
  | [] => [[]]
  | c :: s' =>
      if (c =? NL)%N then [] :: split_lines s'
      else cons_hd c (split_lines s')
  end.

(** [re.match(pattern, line)] for a line without a newline, the pattern
    being [HOST_A] or [HOST_B] (group 1), a colon, any whitespace, and the
    rest of the line (group 2): the two groups of the match. *)
Definition match_host (line : str) : option (str * str) :=
  if starts_with (lit "HOST_A:") line
  then Some (lit "HOST_A", lstrip (drop 7 line))
  else if starts_with (lit "HOST_B:") line
  then Some (lit "HOST_B", lstrip (drop 7 line))
  else None.

Record parse_state := ParseState {
  lines : list (str * str);
  current_speaker : option str;
  current_text : list str
}.

(** [if current_speaker and current_text: lines.append(...)]. *)
Definition flush (st : parse_state) : list (str * str) :=
  match current_speaker st with
  | Some (c :: speaker) =>
      if is_empty (current_text st) then lines st
      else lines st ++ [(c :: speaker, join (lit " ") (current_text st))]
  | _ => lines st
  end.

(** The body of [for line in script.split('\n')]. *)
Definition parse_step (st : parse_state) (line : str) : parse_state :=
  let line := strip line in
  if is_empty line then st
  else
    match match_host line with
    | Some (speaker, text) =>
        {| lines := flush st;
           current_speaker := Some speaker;
           current_text := if is_empty text then [] else [text] |}
    | None =>
        match current_speaker st with
        | Some (_ :: _) =>
            {| lines := lines st;
               current_speaker := current_speaker st;
               current_text := current_text st ++ [line] |}
        | _ => st
        end
    end.

Definition parse_dialogue (script : str) : list (str * str) :=
  flush (foldl parse_step (ParseState [] None []) (split_lines script)).

(** * Vocabulary of the specification *)

Definition sum_len (g : list str) : nat := sum_list_with length g.

(** A unit within the threshold, or made of one paragraph. *)
Definition within (max_chars : Z) (g : list str) : Prop :=
  (Z.of_nat (sum_len g) ≤ max_chars)%Z ∨ ∃ p, g = [p].

(** A unit is closed only when the paragraph that follows would take it over
    the threshold. *)
Fixpoint greedy (max_chars : Z) (gs : list (list str)) : Prop :=
  match gs with
  | g :: rest =>
      match rest with
      | (p :: _) :: _ =>
          (max_chars < Z.of_nat (sum_len g + length p))%Z
          ∧ greedy max_chars rest
      | _ => True
      end
  | [] => True
  end.

(** The state of the loop of [_chunk_text] after the paragraphs [seen]. *)
Record chunk_inv (max_chars : Z) (seen : list str) (st : chunk_state)
    (gs : list (list str)) : Prop := {
  inv_chunks : chunks st = join nn <$> gs;
  inv_seen : concat gs ++ current st = seen;
  inv_nonempty : Forall (λ g, g ≠ []) gs;
  inv_len : current_len st = sum_len (current st);
  inv_within : Forall (within max_chars) gs;
  inv_current : current st = [] ∨ within max_chars (current st);
  inv_greedy : greedy max_chars (gs ++ [current st]);
  inv_first : current st = [] → gs = []
}.

(** The paragraphs submitted for the raw pieces [pieces]. *)
Definition submit_pieces (pipeline : engine) (voice : str) (pieces : list str)
    (st : stream_state) : stream_state :=
  foldl (λ st p, submit_nonempty pipeline voice (strip p) st) st pieces.

(** The stripped, non-empty pieces: the paragraphs that are submitted. *)
Definition stripped_nonempty (pieces : list str) : list str :=
  strip <$> filter (λ p, strip p ≠ []) pieces.

(** The non-empty segments in order, each followed by one pause. *)
Definition assemble (segs : list audio) : audio :=
  concat ((λ seg, seg ++ pause) <$> filter (λ seg, seg ≠ []) segs).

(** The samples handed to the encoder for the segments [segs]: the run fails
    when no segment holds audio. *)
Definition assembled (segs : list audio) : result audio :=
  if decide (Forall (λ seg, seg = []) segs)
  then Err (ValueError (lit "No audio was generated"))
  else Ok (assemble segs).

(** The calls run one after the other, in submission order. *)
Fixpoint run_sequential {A} (calls : list (result A)) : result (list A) :=
  match calls with
  | [] => Ok []
  | Err e :: _ => Err e
  | Ok a :: rest =>
      match run_sequential rest with
      | Ok l => Ok (a :: l)
      | Err e => Err e
      end
  end.

(** The sequential baseline of the cleaning: the chunks are cleaned one after
    the other in index order and the cleaned texts are joined with a blank
    line. *)
Definition sequential_baseline (w : world) (raw_text : str)
    (title : option str) : result str :=
  match get_client w with
  | Err e => Err e
  | Ok _ =>
      let chunks := _chunk_text raw_text MAX_CHARS in
      match run_sequential
              (imap (λ i chunk,
                       _clean_chunk w chunk (i + 1) (length chunks) title)
                    chunks) with
      | Err e => Err e
      | Ok results => Ok (join nn results)
      end
  end.

(** A candidate survives unless it is classified as an artifact: a
    classification that raises keeps the candidate. *)
Definition kept (w : world) (title : str) (p : Path) : bool :=
  match is_paper_figure w p title with
  | Ok false => false
  | _ => true
  end.

(** The events of the classification loop for the completion order
    [order], when every deletion succeeds. *)
Definition classify_events (w : world) (title : str) (all_images : list Path)
    (order : list nat) : list event :=
  order ≫= λ i,
    match all_images !! i with
    | Some p => EvClassified i :: (if kept w title p then [] else [EvUnlink p])
    | None => []
    end.

(** The renames of the numbering loop, from number [i] on. *)
Fixpoint rename_events (i : nat) (figure_paths : list Path) : list event :=
  match figure_paths with
  | [] => []
  | p :: rest =>
      (if decide (p ≠ numbered i p) then [EvRename p (numbered i p)] else [])
      ++ rename_events (S i) rest
  end.

(** The sort key of a candidate. *)
Definition position (all_images : list Path) (p : Path) : nat :=
  default 0 (index_of p all_images).

Definition key_le (x y : nat * Path) : Prop := x.1 ≤ y.1.

(** An event of the classification loop: a result consumed, or the deletion
    of a candidate classified as an artifact. *)
Definition classification_event (w : world) (title : str)
    (all_images : list Path) (e : event) : Prop :=
  (∃ i, e = EvClassified i)
  ∨ ∃ q, e = EvUnlink q ∧ q ∈ all_images
         ∧ is_paper_figure w q title = Ok false.

(** The world in which the classifier answers "figure" for [p]; everything
    else is as in [w]. *)
Definition treat_as_figure (w : world) (p : Path) (title : str) : world :=
  {| api_key := api_key w;
     _clean_chunk := _clean_chunk w;
     classify_image := λ q t,
       if decide (q = p ∧ t = title) then Ok true else classify_image w q t;
     describe_image := describe_image w |}.

(** A decimal digit. *)
Definition is_digit (c : N) : Prop := (48 ≤ c ≤ 57)%N.

(** The positions at which [old] occurs in [s], counted from [i]. *)
Fixpoint occurrences_from (old : str) (i : nat) (s : str) : list nat :=
  (if starts_with old s then [i] else [])
  ++ match s with
     | [] => []
     | _ :: s' => occurrences_from old (S i) s'
     end.

Definition occurrences (old s : str) : list nat := occurrences_from old 0 s.

(** * Vocabulary of the further properties *)

(** The key under which the description of figure [i] is stored. *)
Definition figure_key (i : nat) : str := lit "figure_" ++ str_of_nat i.

(** What is stored for figure [i]: its description, or the placeholder when
    the call raised. *)
Definition description_of (w : world) (title : str) (fig_path : Path)
    (i : nat) : str :=
  match describe_figure w fig_path i title with
  | Ok d => d
  | Err _ => lit "[Figure " ++ str_of_nat i ++ lit "]"
  end.

(** The item stored when the call for the figure at position [k] completes. *)
Definition described_item (w : world) (title : str) (figure_paths : list Path)
    (k : nat) : option (str * str) :=
  (λ p, (figure_key (k + 1), description_of w title p (k + 1)))
    <$> figure_paths !! k.

(** The entry of the figures section for a figure that has an image. *)
Definition image_entry (i : nat) (img_path : Path) (desc : str) : str :=
  lit "### Figure " ++ str_of_nat i ++ nn
  ++ lit "![Figure " ++ str_of_nat i ++ lit "](img/" ++ name img_path
  ++ lit ")" ++ nn
  ++ lit "**Description:** " ++ desc ++ nn.

(** The description stored for the figure at position [k]. *)
Definition description_at (w : world) (title : str) (figure_paths : list Path)
    (k : nat) : str :=
  match figure_paths !! k with
  | Some p => description_of w title p (k + 1)
  | None => []
  end.

(** No whitespace at either end: what [strip()] returns. *)
Definition trimmed (s : str) : Prop :=
  lstrip s = s ∧ lstrip (rev s) = rev s.

(** No blank line inside: ["\n\n" in s] is false. *)
Definition nn_free (s : str) : Prop :=
  ∀ i, s !! i = Some NL → s !! S i ≠ Some NL.

(** The characters of a slug: [a-z], [0-9], [_] and [-]. *)
Definition slug_char (c : N) : Prop :=
  (97 ≤ c ≤ 122 ∨ 48 ≤ c ≤ 57 ∨ c = 95 ∨ c = 45)%N.

(** The characters of a file name made from a title: those of a slug and
    [A-Z], or outside ASCII. *)
Definition name_char (c : N) : Prop :=
  (97 ≤ c ≤ 122 ∨ 65 ≤ c ≤ 90 ∨ 48 ≤ c ≤ 57 ∨ c = 95 ∨ c = 45 ∨ 128 ≤ c)%N.

Definition is_ascii (s : str) : Prop := Forall (λ c, (c < 128)%N) s.

(** A text of one line, not empty, without whitespace at its ends. *)
Definition spoken (text : str) : Prop :=
  text ≠ [] ∧ strip text = text ∧ NL ∉ text.

(** A segment of a dialogue: a host and what the host says. *)
Definition dialogue_segment (x : str * str) : Prop :=
  (x.1 = lit "HOST_A" ∨ x.1 = lit "HOST_B") ∧ spoken x.2.

(** The script format: one line [HOST_A: text] or [HOST_B: text] for each
    segment. *)
Definition render_line (x : str * str) : str := x.1 ++ lit ": " ++ x.2.

Definition render (dialogue : list (str * str)) : str :=
  join [NL] (render_line <$> dialogue).

(** The state of the loop of [parse_dialogue]. *)
Definition parse_inv (st : parse_state) : Prop :=
  Forall dialogue_segment (lines st)
  ∧ Forall spoken (current_text st)
  ∧ ∀ speaker, current_speaker st = Some speaker →
               speaker = lit "HOST_A" ∨ speaker = lit "HOST_B".

(** * Example inputs *)

Definition demo_title : str := lit "Coastal change".

Definition img (file : string) : Path :=
  mkPath (lit "out/coastal_change/img") (lit file).
Arguments img file%_string.

(** Four extracted images, in extraction order. *)
Definition demo_images : list Path :=
  [img "a.png"; img "b.png"; img "c.jpg"; img "d.png"].

Definition demo_files : pstate :=
  PState (<[img "a.png" := [1%N]]>
          (<[img "b.png" := [2%N]]>
           (<[img "c.jpg" := [3%N]]>
            (<[img "d.png" := [4%N]]> ∅)))) [].

(** A text of three paragraphs of 5000 characters: two chunks. *)
Definition demo_raw_text : str :=
  let para := replicate (Z.to_nat 5000) 97%N in
  para ++ nn ++ para ++ nn ++ para.

(** The classifier answers [figure, artifact, figure, figure]; the cleaner
    returns its chunk; figure 1 is described as a map, figure 2 as a graph
    and any other figure as a diagram. *)
Definition demo_world : world :=
  {| api_key := Some (lit "sk-demo");
     _clean_chunk := λ chunk _ _ _, Ok chunk;
     classify_image := λ p _,
       if decide (name p = lit "b.png") then Ok false else Ok true;
     describe_image := λ _ i _,
       if i =? 1 then Ok (lit "A map.")
       else if i =? 2 then Ok (lit "A graph.")
       else Ok (lit "A diagram.") |}.

(** As [demo_world], but the classification of [c.jpg] raises. *)
Definition demo_world_classifier_down : world :=
  {| api_key := Some (lit "sk-demo");
     _clean_chunk := λ chunk _ _ _, Ok chunk;
     classify_image := λ p _,
       if decide (name p = lit "b.png") then Ok false
       else if decide (name p = lit "c.jpg") then Err (RemoteError 529)
       else Ok true;
     describe_image := λ _ i _,
       if i =? 1 then Ok (lit "A map.")
       else if i =? 2 then Ok (lit "A graph.")
       else Ok (lit "A diagram.") |}.

(** As [demo_world], but the cleaning of the second chunk raises. *)
Definition demo_world_cleaner_down : world :=
  {| api_key := Some (lit "sk-demo");
     _clean_chunk := λ chunk chunk_num _ _,
       if chunk_num =? 2 then Err (RemoteError 500) else Ok chunk;
     classify_image := λ p _,
       if decide (name p = lit "b.png") then Ok false else Ok true;
     describe_image := λ _ i _,
       if i =? 1 then Ok (lit "A map.")
       else if i =? 2 then Ok (lit "A graph.")
       else Ok (lit "A diagram.") |}.

(** The workers complete out of order everywhere. *)
Definition demo_schedule : schedule :=
  {| clean_order := [1; 0]; filter_order := [3; 1; 0; 2];
     desc_order := [2; 0; 1] |}.

(** An engine that yields two chunks of audio, and nothing for the
    paragraph ["..."]. *)
Definition demo_engine : engine :=
  λ text _,
    if decide (text = lit "...") then Ok []
    else Ok [[1%Z; 2%Z]; [3%Z]].

Definition silent_engine : engine := λ _ _, Ok [].

Definition demo_voice : str := lit "af_heart".

(** A document with one [## References] heading. *)
Definition demo_markdown : str :=
  lit "Intro." ++ nn ++ lit "## References" ++ nn ++ lit "[1] A.".

(** A document with two [## References] headings, the last one trailing. *)
Definition demo_markdown_two : str :=
  lit "Intro." ++ nn ++ lit "## References" ++ nn ++ lit "[1] A." ++ nn
  ++ lit "## Supplement" ++ nn ++ lit "More." ++ nn
  ++ lit "## References" ++ nn ++ lit "[2] B.".

(** A document whose [## References] heading is followed by an appendix. *)
Definition demo_markdown_appendix : str :=
  lit "Intro." ++ nn ++ lit "## References" ++ nn ++ lit "[1] A." ++ nn
  ++ lit "## Appendix" ++ nn ++ lit "More.".

Definition demo_descriptions : dict := [(lit "figure_1", lit "A map.")].

Definition demo_figures : list Path := [img "figure_1.png"].

Definition demo_dir : Path := mkPath (lit "out") (lit "coastal_change").

Definition demo_unicode : unicode :=
  {| isalnum_high := λ _, false; lower_high := λ s, s |}.

(** The survivors of the example, numbered. *)
Definition demo_numbered : list Path :=
  [img "figure_1.png"; img "figure_2.jpg"; img "figure_3.png"].

(** A file that is not an image of the paper. *)
Definition demo_notes : Path :=
  mkPath (lit "out/coastal_change") (lit "notes.txt").

Definition demo_files_notes : pstate :=
  PState (<[demo_notes := lit "keep"]> (fs demo_files)) [].

(** One chunk; the other workers complete out of order. *)
Definition demo_schedule_short : schedule :=
  {| clean_order := [0]; filter_order := [3; 1; 0; 2];
     desc_order := [2; 0; 1] |}.

(** As [demo_world], without an API key. *)
Definition demo_world_no_key : world :=
  {| api_key := None;
     _clean_chunk := _clean_chunk demo_world;
     classify_image := classify_image demo_world;
     describe_image := describe_image demo_world |}.



(** The deltas of a script of two paragraphs, the separator cut in two. *)
Definition demo_deltas : list str :=
  [lit "One." ++ [NL]; [NL] ++ lit " Two."].

(** An engine that fails on the second paragraph. *)
Definition demo_engine_down : engine :=
  λ text _,
    if decide (text = lit "Two.") then Err (RemoteError 500)
    else Ok [[1%Z; 2%Z]].

Definition demo_long_title : str :=
  lit "  Coastal change: ICESat-2 & DEMs (2020) ".

Definition demo_dialogue : list (str * str) :=
  [(lit "HOST_A", lit "Hello there."); (lit "HOST_B", lit "Hi.")].

(** * Tactics *)

(** Closed decidable goals, by computation. *)
Ltac by_compute := apply (bool_decide_unpack _); vm_compute; exact I.

(** * Properties *)

(** ** Strings *)

Example split_nn_odd_newlines :
  split_nn (lit "a" ++ [NL; NL; NL] ++ lit "b") = [lit "a"; NL :: lit "b"].
Proof. reflexivity. Qed.

Example chunk_text_small :
  _chunk_text (lit "ab" ++ nn ++ lit "cd" ++ nn ++ lit "e") 4
  = [lit "ab" ++ nn ++ lit "cd"; lit "e"].
Proof. reflexivity. Qed.

Example chunk_text_empty : _chunk_text [] MAX_CHARS = [[]].
Proof. reflexivity. Qed.

Lemma str_ind2 (P : str → Prop) :
  P [] → (∀ c, P [c]) →
  (∀ c c' s, P s → P (c' :: s) → P (c :: c' :: s)) →
  ∀ s, P s.
Proof.
  intros H0 H1 H2 s.
  assert (P s ∧ ∀ c, P (c :: s)) as [? _]; [|done].
  induction s as [|c s [IH1 IH2]]; split; auto.
Qed.

Lemma split_nn_cons2 c c' s :
  split_nn (c :: c' :: s)
  = if (c =? NL)%N && (c' =? NL)%N then [] :: split_nn s
    else cons_hd c (split_nn (c' :: s)).
Proof. done. Qed.

Lemma split_nn_nonempty s : split_nn s ≠ [].
Proof.
  induction s as [|c|c c' s IH1 IH2] using str_ind2; [done..|].
  rewrite split_nn_cons2. destruct (_ && _); [done|].
  by destruct (split_nn (c' :: s)).
Qed.

Lemma join_cons sep x l : l ≠ [] → join sep (x :: l) = x ++ sep ++ join sep l.
Proof. by destruct l. Qed.

Lemma join_cons_hd sep c l :
  l ≠ [] → join sep (cons_hd c l) = c :: join sep l.
Proof. destruct l as [|p [|q l]]; done. Qed.

(** Joining the pieces of a split gives the text back. *)
Lemma join_split_nn s : join nn (split_nn s) = s.
Proof.
  induction s as [|c|c c' s IH1 IH2] using str_ind2; [done..|].
  rewrite split_nn_cons2.
  destruct ((c =? NL)%N && (c' =? NL)%N) eqn:E.
  - apply andb_true_iff in E as [->%N.eqb_eq ->%N.eqb_eq].
    rewrite join_cons by apply split_nn_nonempty. by rewrite IH1.
  - rewrite join_cons_hd by apply split_nn_nonempty. by rewrite IH2.
Qed.

Lemma join_app sep l1 l2 :
  l1 ≠ [] → l2 ≠ [] →
  join sep (l1 ++ l2) = join sep l1 ++ sep ++ join sep l2.
Proof.
  intros H1 H2. induction l1 as [|x l1 IH]; [done|].
  destruct l1 as [|y l1].
  - cbn [app]. by rewrite join_cons.
  - rewrite <-app_comm_cons, join_cons by done.
    rewrite IH by done. rewrite (join_cons _ x) by done.
    by rewrite <-!app_assoc.
Qed.

(** Joining joined groups is joining their concatenation. *)
Lemma join_groups sep (gs : list (list str)) :
  Forall (λ g, g ≠ []) gs → join sep (join sep <$> gs) = join sep (concat gs).
Proof.
  induction 1 as [|g gs Hg Hgs IH]; [done|].
  destruct gs as [|g' gs].
  - cbn. by rewrite app_nil_r.
  - rewrite fmap_cons, join_cons by done.
    rewrite IH. change (concat (g :: g' :: gs)) with (g ++ concat (g' :: gs)).
    rewrite join_app; [done..|].
    apply Forall_cons in Hgs as [? _]. by destruct g'.
Qed.

(** ** [_chunk_text] *)

Lemma sum_len_snoc g p : sum_len (g ++ [p]) = sum_len g + length p.
Proof. unfold sum_len. rewrite sum_list_with_app. cbn. lia. Qed.

Lemma greedy_snoc max_chars gs g p :
  g ≠ [] → greedy max_chars (gs ++ [g]) →
  (max_chars < Z.of_nat (sum_len g + length p))%Z →
  greedy max_chars ((gs ++ [g]) ++ [[p]]).
Proof.
  intros Hg. induction gs as [|g0 gs IH]; intros H Hlt.
  - done.
  - cbn [app greedy] in *.
    destruct (gs ++ [g]) as [|[|q g1] rest] eqn:E.
    + by destruct gs.
    + destruct gs as [|? gs]; simplify_eq/=. done.
    + cbn [app]. destruct H as [? H]. split; [done|].
      by apply IH.
Qed.

Lemma greedy_grow max_chars gs g p :
  g ≠ [] → greedy max_chars (gs ++ [g]) → greedy max_chars (gs ++ [g ++ [p]]).
Proof.
  intros Hg. induction gs as [|g0 gs IH]; intros H.
  - done.
  - cbn [app greedy] in *.
    destruct gs as [|g1 gs].
    + cbn [app] in *. destruct g as [|q g]; [done|]. done.
    + cbn [app] in *. destruct g1 as [|q g1]; [done|].
      destruct H as [? H]. split; [done|]. by apply IH.
Qed.

Lemma chunk_step_inv max_chars seen st gs para :
  chunk_inv max_chars seen st gs →
  ∃ gs', chunk_inv max_chars (seen ++ [para]) (chunk_step max_chars st para) gs'
         ∧ current (chunk_step max_chars st para) ≠ [].
Proof.
  intros [Hc Hs Hn Hl Hw Hcur Hg Hf]. unfold chunk_step.
  destruct ((max_chars <? _)%Z && _) eqn:E.
  - apply andb_true_iff in E as [Hlt Hne].
    apply Z.ltb_lt in Hlt.
    assert (current st ≠ []) as Hne' by (by destruct (current st)).
    exists (gs ++ [current st]). split; [|done].
    split; cbn [chunks current current_len].
    + by rewrite fmap_app, Hc.
    + by rewrite concat_app, <-Hs, <-!app_assoc; cbn; rewrite app_nil_r.
    + apply Forall_app; split; [done|by constructor].
    + unfold sum_len; cbn; lia.
    + apply Forall_app; split; [done|]. constructor; [|done].
      by destruct Hcur.
    + right. right. by eexists.
    + apply greedy_snoc; [done..|]. by rewrite <-Hl.
    + done.
  - exists gs. split; [|by destruct (current st)].
    split; cbn [chunks current current_len].
    + done.
    + by rewrite app_assoc, Hs.
    + done.
    + rewrite sum_len_snoc. lia.
    + done.
    + right. apply andb_false_iff in E as [E|E].
      * left. apply Z.ltb_ge in E. rewrite sum_len_snoc. lia.
      * right. destruct (current st); [by eexists|done].
    + destruct (current st) eqn:Ecur.
      * rewrite Hf by done. done.
      * rewrite <-Ecur in *. apply greedy_grow; [|done]. by rewrite Ecur.
    + by destruct (current st).
Qed.

Lemma chunk_fold_inv max_chars paras seen st gs :
  chunk_inv max_chars seen st gs →
  ∃ gs', chunk_inv max_chars (seen ++ paras)
                   (foldl (chunk_step max_chars) st paras) gs'
         ∧ (paras ≠ [] → current (foldl (chunk_step max_chars) st paras) ≠ []).
Proof.
  revert seen st gs. induction paras as [|p paras IH]; intros seen st gs H.
  - exists gs. by rewrite app_nil_r.
  - destruct (chunk_step_inv _ _ _ _ p H) as (gs1 & H1 & Hne).
    destruct (IH _ _ _ H1) as (gs2 & H2 & Hne2).
    exists gs2. cbn [foldl]. rewrite <-app_assoc in H2. split; [done|].
    intros _. destruct paras; [done|]. by apply Hne2.
Qed.

(** The units of [_chunk_text] are the joins of consecutive groups of the
    paragraphs of the text. *)
Lemma chunk_text_groups text max_chars :
  ∃ gs : list (list str),
    _chunk_text text max_chars = join nn <$> gs
    ∧ concat gs = split_nn text
    ∧ Forall (λ g, g ≠ []) gs
    ∧ Forall (within max_chars) gs
    ∧ greedy max_chars gs.
Proof.
  destruct (chunk_fold_inv max_chars (split_nn text) [] (ChunkState [] [] 0) [])
    as (gs & [Hc Hs Hn Hl Hw Hcur Hg Hf] & Hne).
  { split; cbn; try done. by left. }
  specialize (Hne (split_nn_nonempty text)).
  unfold _chunk_text. cbn zeta.
  set (st := foldl _ _ _) in *.
  destruct (current st) as [|p cur] eqn:E; [done|]. cbn [is_empty].
  exists (gs ++ [p :: cur]). split_and!.
  - by rewrite fmap_app, Hc.
  - rewrite concat_app; cbn. by rewrite app_nil_r.
  - apply Forall_app; split; [done|by constructor].
  - apply Forall_app; split; [done|]. constructor; [|done]. by destruct Hcur.
  - done.
Qed.

Lemma length_join_nn g :
  g ≠ [] → length (join nn g) = sum_len g + 2 * (length g - 1).
Proof.
  induction g as [|p g IH]; [done|]. intros _.
  destruct g as [|q g].
  - unfold sum_len. cbn. lia.
  - rewrite join_cons by done. rewrite !length_app, IH by done.
    unfold sum_len. cbn. lia.
Qed.

(** C10. Joining the units returned by [_chunk_text] with a blank line gives
    the input text back, whatever the threshold: chunking drops, duplicates
    and reorders nothing. *)
Theorem chunk_text_lossless (text : str) (max_chars : Z) :
  join nn (_chunk_text text max_chars) = text.
Proof.
  destruct (chunk_text_groups text max_chars) as (gs & -> & Hcat & Hne & _).
  by rewrite join_groups, Hcat, join_split_nn.
Qed.

(** C6, as the code has it. The units of [_chunk_text] are the joins of
    consecutive non-empty groups of the paragraphs of the text (the pieces
    between blank lines), so the text is cut at paragraph boundaries only and
    no paragraph is split. The paragraphs of a unit have a total length (the
    separators between them not counted) of at most the threshold, unless the
    unit is one paragraph that alone exceeds it. A unit is closed only when
    the next paragraph would take that total over the threshold. With the
    separators a unit of [k] paragraphs is at most [2 * (k - 1)] characters
    over the threshold. *)
Theorem chunk_text_packing (text : str) (max_chars : Z) :
  ∃ gs : list (list str),
    _chunk_text text max_chars = join nn <$> gs
    ∧ concat gs = split_nn text
    ∧ Forall (λ g, g ≠ []) gs
    ∧ Forall (λ g, (Z.of_nat (sum_len g) ≤ max_chars)%Z
                   ∨ ∃ p, g = [p] ∧ (max_chars < Z.of_nat (length p))%Z) gs
    ∧ greedy max_chars gs
    ∧ Forall (λ g, (Z.of_nat (sum_len g) ≤ max_chars)%Z →
                   (Z.of_nat (length (join nn g))
                    ≤ max_chars + 2 * (Z.of_nat (length g) - 1))%Z) gs.
Proof.
  destruct (chunk_text_groups text max_chars)
    as (gs & Hc & Hcat & Hne & Hw & Hg).
  exists gs. split_and!; try done.
  - eapply Forall_impl; [exact Hw|]. intros g [H|[p ->]]; [by left|].
    destruct (decide (Z.of_nat (length p) ≤ max_chars)%Z) as [Hle|Hgt].
    + left. unfold sum_len. cbn. lia.
    + right. exists p. split; [done|lia].
  - eapply Forall_impl; [exact Hne|]. intros g Hg' Hle.
    rewrite length_join_nn by done. destruct g; [done|]. cbn [length]. lia.
Qed.

(** C6, as stated, fails: two paragraphs of 6000 characters are packed into
    one unit of 12002 characters, over the threshold of 12000, although
    neither paragraph exceeds it. *)
Lemma chunk_text_unit_over_threshold :
  let para := replicate (Z.to_nat 6000) 97%N in
  let text := para ++ nn ++ para in
  split_nn text = [para; para]
  ∧ _chunk_text text MAX_CHARS = [text]
  ∧ (Z.of_nat (length para) < MAX_CHARS)%Z
  ∧ (MAX_CHARS < Z.of_nat (length text))%Z.
Proof. vm_compute. split_and!; reflexivity. Qed.

(** ** The narration stream *)

Lemma split_nn_single s last : split_nn s = [last] → last = s.
Proof. intros H. by rewrite <-(join_split_nn s), H. Qed.

Lemma find_nn_cons2 c c' s :
  find_nn (c :: c' :: s)
  = if (c =? NL)%N && (c' =? NL)%N then Some ([], s)
    else match find_nn (c' :: s) with
         | Some (p, r) => Some (c :: p, r)
         | None => None
         end.
Proof. done. Qed.

(** [find_nn] cuts off the first piece of [split_nn]. *)
Lemma find_nn_split s :
  match find_nn s with
  | Some (p, r) => split_nn s = p :: split_nn r
  | None => split_nn s = [s]
  end.
Proof.
  induction s as [|c|c c' s IH1 IH2] using str_ind2; [done..|].
  rewrite find_nn_cons2, split_nn_cons2.
  destruct (_ && _); [done|].
  destruct (find_nn (c' :: s)) as [[p r]|]; by rewrite IH2.
Qed.

(** Text appended to a string only extends the last piece of its split. *)
Lemma split_nn_app s t pieces last :
  split_nn s = pieces ++ [last] →
  split_nn (s ++ t) = pieces ++ split_nn (last ++ t).
Proof.
  revert pieces last.
  induction s as [|c|c c' s IH1 IH2] using str_ind2; intros pieces last H.
  - destruct pieces as [|? [|??]]; by simplify_eq/=.
  - destruct pieces as [|? [|??]]; by simplify_eq/=.
  - destruct pieces as [|p0 pieces].
    { apply split_nn_single in H as ->. done. }
    rewrite split_nn_cons2 in H.
    change ((c :: c' :: s) ++ t) with (c :: c' :: (s ++ t)).
    rewrite split_nn_cons2. destruct (_ && _).
    + simplify_eq/=. f_equal. by apply IH1.
    + change (c' :: (s ++ t)) with ((c' :: s) ++ t).
      destruct (split_nn (c' :: s)) as [|q qs] eqn:E;
        [by apply split_nn_nonempty in E|].
      cbn [cons_hd] in H. simplify_eq/=.
      rewrite (IH2 (q :: pieces) last) by done. done.
Qed.

Section narration.
Context (pipeline : engine) (voice : str).

Lemma drain_split buffer st :
  ∃ pieces last,
    split_nn buffer = pieces ++ [last]
    ∧ drain pipeline voice buffer st
      = (last, submit_pieces pipeline voice pieces st).
Proof.
  funelim (drain pipeline voice buffer st).
  - destruct H as (pieces & last & Hs & Hd).
    exists (paragraph :: pieces), last. split.
    + pose proof (find_nn_split buffer) as Hf. rewrite e in Hf.
      by rewrite Hf, Hs.
    + by rewrite Hd.
  - exists [], buffer. split; [|done].
    pose proof (find_nn_split buffer) as Hf. by rewrite e in Hf.
Qed.

Lemma submit_pieces_app l1 l2 st :
  submit_pieces pipeline voice (l1 ++ l2) st
  = submit_pieces pipeline voice l2 (submit_pieces pipeline voice l1 st).
Proof. apply foldl_app. Qed.

Lemma submit_pieces_spec pieces st :
  script_parts (submit_pieces pipeline voice pieces st)
  = script_parts st ++ stripped_nonempty pieces
  ∧ tts_futures (submit_pieces pipeline voice pieces st)
    = tts_futures st
      ++ ((λ t, _synthesize_segment pipeline t voice)
            <$> stripped_nonempty pieces).
Proof.
  revert st. unfold stripped_nonempty.
  induction pieces as [|p pieces IH]; intros st.
  - cbn. by rewrite !app_nil_r.
  - change (submit_pieces pipeline voice (p :: pieces) st)
      with (submit_pieces pipeline voice pieces
              (submit_nonempty pipeline voice (strip p) st)).
    destruct (IH (submit_nonempty pipeline voice (strip p) st)) as [-> ->].
    unfold submit_nonempty.
    destruct (strip p) as [|c t] eqn:E; cbn [is_empty].
    + rewrite filter_cons_False by (by rewrite E; intros []). done.
    + rewrite filter_cons_True by (by rewrite E).
      cbn [_submit_paragraph script_parts tts_futures].
      rewrite !fmap_cons, E, <-!app_assoc. done.
Qed.

Lemma push_fold deltas text buffer pieces st0 :
  split_nn text = pieces ++ [buffer] →
  ∃ pieces' last,
    split_nn (text ++ concat deltas) = pieces' ++ [last]
    ∧ foldl (push pipeline voice)
            (buffer, submit_pieces pipeline voice pieces st0) deltas
      = (last, submit_pieces pipeline voice pieces' st0).
Proof.
  revert text buffer pieces.
  induction deltas as [|chunk deltas IH]; intros text buffer pieces H.
  - exists pieces, buffer. by rewrite app_nil_r.
  - cbn [foldl concat]. unfold push at 2. cbn [fst snd].
    destruct (drain_split (buffer ++ chunk)
                (submit_pieces pipeline voice pieces st0))
      as (pieces2 & last2 & Hs & ->).
    rewrite <-submit_pieces_app.
    rewrite app_assoc. apply IH.
    rewrite (split_nn_app _ _ _ _ H), Hs. by rewrite app_assoc.
Qed.

Lemma stream_script_spec deltas :
  stream_script pipeline voice deltas
  = submit_pieces pipeline voice (split_nn (concat deltas))
                  (StreamState [] [] 0).
Proof.
  unfold stream_script.
  destruct (push_fold deltas [] [] [] (StreamState [] [] 0))
    as (pieces & last & Hs & Hf); [done|].
  cbn [submit_pieces foldl app] in Hf. rewrite Hf.
  cbn [app] in Hs. rewrite Hs, submit_pieces_app. done.
Qed.

(** The paragraphs submitted and the futures held after the stream. *)
Lemma stream_script_paragraphs deltas :
  script_parts (stream_script pipeline voice deltas)
  = stripped_nonempty (split_nn (concat deltas))
  ∧ tts_futures (stream_script pipeline voice deltas)
    = (λ text, _synthesize_segment pipeline text voice)
        <$> stripped_nonempty (split_nn (concat deltas)).
Proof.
  rewrite stream_script_spec.
  destruct (submit_pieces_spec (split_nn (concat deltas))
              (StreamState [] [] 0)) as [-> ->].
  done.
Qed.

(** C9. The paragraphs that [create_podcast] submits to synthesis, and joins
    with blank lines into the saved script, are a function of the concatenated
    text of the deltas alone: for every sequence of deltas they are the
    stripped components of the whole text split on a blank line, the
    components that strip to nothing left out, in order. *)
Theorem stream_paragraphs_of_text (deltas : list str) :
  let paragraphs :=
    strip <$> filter (λ p, strip p ≠ []) (split_nn (concat deltas)) in
  script_parts (stream_script pipeline voice deltas) = paragraphs
  ∧ tts_futures (stream_script pipeline voice deltas)
    = (λ text, _synthesize_segment pipeline text voice) <$> paragraphs
  ∧ script (create_podcast pipeline deltas voice) = join nn paragraphs.
Proof.
  cbn zeta. unfold create_podcast. cbn [script].
  destruct (stream_script_paragraphs deltas) as [-> ->].
  done.
Qed.

Example stream_deltas_cut_separator :
  script_parts
    (stream_script (λ _ _, Ok []) (lit "v")
       [lit "One." ++ [NL]; [NL; NL] ++ lit " Two"; lit ". " ++ [NL]; [NL]])
  = [lit "One."; lit "Two."].
Proof. vm_compute. reflexivity. Qed.

End narration.

(** ** Audio assembly *)

Lemma pause_length : Z.of_nat (length pause) = 9600%Z.
Proof. vm_compute. reflexivity. Qed.

Lemma collect_segment_spec acc seg :
  collect_segment acc seg = acc ++ (if decide (seg = []) then [] else [seg; pause]).
Proof.
  unfold collect_segment. destruct seg; cbn; [by rewrite app_nil_r|done].
Qed.

Lemma collect_fold_concat segs acc :
  concat (foldl collect_segment acc segs) = concat acc ++ assemble segs.
Proof.
  revert acc. unfold assemble.
  induction segs as [|seg segs IH]; intros acc; cbn [foldl].
  - cbn. by rewrite app_nil_r.
  - rewrite IH, collect_segment_spec. destruct (decide (seg = [])) as [->|Hne].
    + rewrite filter_cons_False by (by intros []). by rewrite app_nil_r.
    + rewrite filter_cons_True by done.
      rewrite concat_app, fmap_cons. cbn [concat].
      by rewrite app_nil_r, <-!app_assoc.
Qed.

Lemma collect_fold_empty segs acc :
  is_empty (foldl collect_segment acc segs) = true
  ↔ acc = [] ∧ Forall (λ seg, seg = []) segs.
Proof.
  revert acc. induction segs as [|seg segs IH]; intros acc; cbn [foldl].
  - destruct acc; cbn; split; try done; by intros [? _].
  - rewrite IH, collect_segment_spec, Forall_cons.
    destruct (decide (seg = [])) as [->|Hne].
    + rewrite app_nil_r. tauto.
    + split; [|tauto]. intros [H _]. by destruct acc.
Qed.

Lemma combine_fold segs :
  combine (foldl collect_segment [] segs) = assembled segs.
Proof.
  unfold combine, assembled.
  destruct (is_empty _) eqn:E.
  - apply collect_fold_empty in E as [_ E]. by rewrite decide_True.
  - rewrite decide_False.
    + by rewrite collect_fold_concat.
    + intros H. rewrite (proj2 (collect_fold_empty segs [])) in E; done.
Qed.

Lemma collect_audio_ok segs acc :
  collect_audio (Ok <$> segs) acc = Ok (foldl collect_segment acc segs).
Proof.
  revert acc. induction segs as [|seg segs IH]; intros acc; [done|].
  cbn. apply IH.
Qed.

Section assembly.
Context (pipeline : engine) (voice : str).

Lemma synthesize_all_ok paragraphs segs acc :
  Forall2 (λ para seg, _synthesize_segment pipeline para voice = Ok seg)
          paragraphs segs →
  synthesize_all pipeline voice paragraphs acc
  = Ok (foldl collect_segment acc segs).
Proof.
  intros H. revert acc.
  induction H as [|para seg paragraphs segs Hs _ IH]; intros acc; [done|].
  cbn [synthesize_all foldl]. rewrite Hs. apply IH.
Qed.

Lemma synthesized_futures paragraphs segs :
  Forall2 (λ para seg, _synthesize_segment pipeline para voice = Ok seg)
          paragraphs segs →
  (λ text, _synthesize_segment pipeline text voice) <$> paragraphs
  = Ok <$> segs.
Proof.
  induction 1 as [|para seg paragraphs segs Hs _ IH]; [done|].
  by rewrite !fmap_cons, Hs, IH.
Qed.

(** C5, as the code has it. When every paragraph is synthesized, the samples
    handed to the encoder by [create_podcast] and by [generate_audio] are the
    non-empty segments in paragraph order, each followed by one pause of 9600
    zero samples (0.4 s at 24000 samples per second); an empty segment adds no
    audio and no pause. The run fails with "No audio was generated" exactly
    when every segment is empty. *)
Theorem audio_assembly :
  Z.of_nat (length pause) = 9600%Z
  ∧ (∀ deltas segs,
       Forall2 (λ para seg, _synthesize_segment pipeline para voice = Ok seg)
               (script_parts (stream_script pipeline voice deltas)) segs →
       combined (create_podcast pipeline deltas voice)
       = if decide (Forall (λ seg, seg = []) segs)
         then Err (ValueError (lit "No audio was generated"))
         else Ok (concat ((λ seg, seg ++ pause)
                            <$> filter (λ seg, seg ≠ []) segs)))
  ∧ (∀ script segs,
       Forall2 (λ para seg, _synthesize_segment pipeline para voice = Ok seg)
               (script_paragraphs script) segs →
       generate_audio pipeline script voice
       = if decide (Forall (λ seg, seg = []) segs)
         then Err (ValueError (lit "No audio was generated"))
         else Ok (concat ((λ seg, seg ++ pause)
                            <$> filter (λ seg, seg ≠ []) segs))).
Proof.
  split_and!.
  - apply pause_length.
  - intros deltas segs H. unfold create_podcast. cbn [combined].
    destruct (stream_script_paragraphs pipeline voice deltas) as (Hp & Hf).
    rewrite Hf, <-Hp.
    rewrite (synthesized_futures _ _ H), collect_audio_ok.
    apply combine_fold.
  - intros script0 segs H. unfold generate_audio.
    rewrite (synthesize_all_ok _ _ _ H). apply combine_fold.
Qed.

End assembly.

(** ** Thread pools: futures are read by index *)

Lemma pool_step_length {A} (calls : list (result A)) slots i :
  length (match calls !! i with
          | Some r => <[i := Some r]> slots
          | None => slots
          end) = length slots.
Proof. destruct (calls !! i); by rewrite ?length_insert. Qed.

Lemma run_pool_lookup {A} (calls : list (result A)) order slots i :
  length slots = length calls →
  foldl (λ slots i,
           match calls !! i with
           | Some r => <[i := Some r]> slots
           | None => slots
           end) slots order !! i
  = if decide (i ∈ order) then Some <$> calls !! i else slots !! i.
Proof.
  revert slots. induction order as [|a order IH]; intros slots Hlen.
  - by rewrite decide_False by apply not_elem_of_nil.
  - cbn [foldl]. rewrite IH by (by rewrite pool_step_length).
    destruct (decide (i ∈ order)) as [Hin|Hnin].
    + by rewrite decide_True by (by right).
    + destruct (decide (i = a)) as [->|Hne].
      * rewrite decide_True by left.
        destruct (calls !! a) as [r|] eqn:E.
        -- apply list_lookup_insert_eq. rewrite Hlen.
           by eapply lookup_lt_Some.
        -- apply lookup_ge_None. rewrite Hlen. by apply lookup_ge_None.
      * rewrite decide_False by (by intros [?|?]%elem_of_cons).
        destruct (calls !! a); [|done]. by apply list_lookup_insert_ne.
Qed.

(** Once every worker has completed, future [i] holds the outcome of call
    [i], whatever the order of completion. *)
Lemma run_pool_complete {A} (calls : list (result A)) order :
  order ≡ₚ seq 0 (length calls) → run_pool calls order = Some <$> calls.
Proof.
  intros Hperm. apply list_eq. intros i. unfold run_pool.
  rewrite run_pool_lookup by apply length_replicate.
  rewrite list_lookup_fmap. destruct (decide (i ∈ order)) as [|Hnin]; [done|].
  assert (length calls ≤ i) as Hge.
  { destruct (decide (i < length calls)) as [Hlt|]; [|lia].
    destruct Hnin. rewrite Hperm. apply elem_of_seq. lia. }
  rewrite (proj2 (lookup_ge_None calls i)) by done.
  apply lookup_ge_None. by rewrite length_replicate.
Qed.

Lemma collect_results_complete {A} (calls : list (result A)) :
  collect_results (Some <$> calls) = Some (run_sequential calls).
Proof.
  induction calls as [|[a|e] calls IH]; [done| |done].
  cbn [fmap list_fmap collect_results run_sequential] in *. rewrite IH.
  by destruct (run_sequential calls).
Qed.

Lemma run_sequential_ok {A} (calls : list (result A)) (values : list A) :
  calls = Ok <$> values → run_sequential calls = Ok values.
Proof.
  intros ->. induction values as [|a values IH]; [done|].
  cbn [fmap list_fmap run_sequential] in *. by rewrite IH.
Qed.

(** The first failing call decides the outcome of a sequential run. *)
Lemma run_sequential_err {A} (calls : list (result A)) i e :
  calls !! i = Some (Err e) →
  ∃ j e', j ≤ i ∧ calls !! j = Some (Err e')
          ∧ (∀ k r, k < j → calls !! k = Some r → is_ok r = true)
          ∧ run_sequential calls = Err e'.
Proof.
  revert i. induction calls as [|[a|e0] calls IH]; intros i H; [done| |].
  - destruct i as [|i]; [done|]. cbn in H.
    destruct (IH i H) as (j & e' & Hj & Hl & Hbefore & Hr).
    exists (S j), e'. split_and!; [lia|done| |by cbn; rewrite Hr].
    intros [|k] r Hk Hlk; [by simplify_eq/=|].
    apply (Hbefore k); [lia|done].
  - exists 0, e0. split_and!; [lia|done| |done]. intros; lia.
Qed.

Lemma chunk_text_nonempty text max_chars : _chunk_text text max_chars ≠ [].
Proof.
  destruct (chunk_text_groups text max_chars) as (gs & -> & Hcat & _).
  destruct gs; [|done]. by destruct (split_nn_nonempty text).
Qed.

Lemma clean_paper_text_sequential w order raw_text title :
  order ≡ₚ seq 0 (length (_chunk_text raw_text MAX_CHARS)) →
  clean_paper_text w order raw_text title
  = Some (sequential_baseline w raw_text title).
Proof.
  intros Hperm. unfold clean_paper_text, sequential_baseline.
  destruct (get_client w); [|done].
  pose proof (chunk_text_nonempty raw_text MAX_CHARS) as Hne.
  destruct (_chunk_text raw_text MAX_CHARS) as [|c cs] eqn:E; [done|].
  cbn [length Nat.eqb]. rewrite run_pool_complete.
  - rewrite collect_results_complete. by destruct (run_sequential _).
  - by rewrite length_imap.
Qed.

(** C2. For every text and every order in which the chunk workers complete,
    [clean_paper_text] returns what the sequential baseline returns; when
    every chunk is cleaned, that is the cleaned text of chunk 0, a blank
    line, the cleaned text of chunk 1, and so on in index order. *)
Theorem clean_paper_text_order_independent (w : world) (order : list nat)
    (raw_text : str) (title : option str) :
  let chunks := _chunk_text raw_text MAX_CHARS in
  order ≡ₚ seq 0 (length chunks) →
  clean_paper_text w order raw_text title
  = Some (sequential_baseline w raw_text title)
  ∧ ∀ cleaned : list str,
      get_client w = Ok tt →
      imap (λ i chunk, _clean_chunk w chunk (i + 1) (length chunks) title)
           chunks = Ok <$> cleaned →
      clean_paper_text w order raw_text title = Some (Ok (join nn cleaned)).
Proof.
  intros chunks Hperm. split; [by apply clean_paper_text_sequential|].
  intros cleaned Hc Hok. rewrite clean_paper_text_sequential by done.
  unfold sequential_baseline. rewrite Hc. fold chunks.
  by rewrite (run_sequential_ok _ cleaned).
Qed.

(** ** Figure triage *)

(** A classification that raises is handled as the answer "figure". *)
Lemma triage_step_treat_as_figure w p title e all_images acc i :
  is_paper_figure w p title = Err e →
  triage_step (treat_as_figure w p title) title all_images acc i
  = triage_step w title all_images acc i.
Proof.
  intros He. unfold triage_step.
  destruct (all_images !! i) as [q|]; [|done].
  unfold is_paper_figure in *.
  change (get_client (treat_as_figure w p title)) with (get_client w).
  destruct (get_client w); [|done].
  cbn [treat_as_figure classify_image].
  destruct (decide (q = p ∧ title = title)) as [[-> _]|Hne].
  - by rewrite He.
  - destruct (decide (q = p)) as [->|?]; [by destruct Hne|done].
Qed.

Lemma triage_treat_as_figure w p title e all_images order s :
  is_paper_figure w p title = Err e →
  triage (treat_as_figure w p title) title all_images order s
  = triage w title all_images order s.
Proof.
  intros He. unfold triage, triage_loop.
  assert (∀ acc,
            foldl (triage_step (treat_as_figure w p title) title all_images)
                  acc order
            = foldl (triage_step w title all_images) acc order) as ->; [|done].
  induction order as [|i order IH]; intros acc; [done|].
  cbn [foldl]. by rewrite (triage_step_treat_as_figure _ _ _ e), IH.
Qed.

Section triage.
Context (w : world) (title : str) (all_images : list Path).

Lemma triage_step_kept s fp i p :
  all_images !! i = Some p → kept w title p = true →
  triage_step w title all_images (s, fp) i
  = (emit (EvClassified i) s, fp ++ [p]).
Proof.
  unfold triage_step, kept. intros -> H. cbn [fst snd].
  by destruct (is_paper_figure w p title) as [[|]|].
Qed.

Lemma triage_step_artifact s fp i p :
  all_images !! i = Some p → kept w title p = false →
  triage_step w title all_images (s, fp) i
  = match unlink (emit (EvClassified i) s) p with
    | Ok s' => (s', fp)
    | Err _ => (emit (EvClassified i) s, fp ++ [p])
    end.
Proof.
  unfold triage_step, kept. intros -> H. cbn [fst snd].
  by destruct (is_paper_figure w p title) as [[|]|].
Qed.

(** The classification loop when the candidates are distinct files that
    exist: every artifact is deleted, and the survivors are collected in
    completion order. *)
Lemma triage_loop_exact order s acc :
  NoDup all_images → NoDup order →
  (∀ j q, j ∈ order → all_images !! j = Some q → is_Some (fs s !! q)) →
  ∃ fs',
    foldl (triage_step w title all_images) (s, acc) order
    = (PState fs' (log s ++ classify_events w title all_images order),
       acc ++ filter (kept w title) (omap (all_images !!.) order))
    ∧ ∀ q, kept w title q = true → fs' !! q = fs s !! q.
Proof.
  intros Himgs. revert s acc.
  induction order as [|i order IH]; intros s acc Hord Hex.
  - exists (fs s). cbn. rewrite !app_nil_r. by destruct s.
  - apply NoDup_cons in Hord as [Hi Hord]. cbn [foldl].
    unfold classify_events. cbn [mbind list_bind omap list_omap].
    fold (omap (all_images !!.) order).
    destruct (all_images !! i) as [p|] eqn:Ep.
    2:{ unfold triage_step at 2. rewrite Ep. cbn [app].
        apply IH; [done|]. intros j q Hj. apply Hex. by right. }
    destruct (Hex i p ltac:(left) Ep) as [c Hc].
    destruct (kept w title p) eqn:Ek.
    + rewrite (triage_step_kept _ _ _ p) by done.
      destruct (IH (emit (EvClassified i) s) (acc ++ [p]) Hord)
        as (fs' & -> & Hfs).
      { intros j q Hj. apply Hex. by right. }
      exists fs'. split; [|done].
      rewrite filter_cons_True by (by rewrite Ek).
      cbn [emit log]. by rewrite <-!app_assoc.
    + rewrite (triage_step_artifact _ _ _ p) by done.
      unfold unlink. cbn [emit fs log]. rewrite Hc.
      destruct (IH (PState (delete p (fs s))
                           ((log s ++ [EvClassified i]) ++ [EvUnlink p]))
                   acc Hord) as (fs' & -> & Hfs).
      { intros j q Hj Hq. cbn [fs]. rewrite lookup_delete_ne.
        - apply (Hex j); [by right|done].
        - intros ->. apply Hi.
          by rewrite (NoDup_lookup _ _ _ _ Himgs Ep Hq). }
      exists fs'. split.
      * rewrite filter_cons_False by (by apply Is_true_false_2).
        cbn [log]. by rewrite <-!app_assoc.
      * intros q Hq. rewrite Hfs by done. cbn [fs].
        apply lookup_delete_ne. intros ->. by rewrite Hq in Ek.
Qed.

(** *** Sorting the survivors by discovery position *)

Lemma index_of_Some l p k : index_of p l = Some k → l !! k = Some p.
Proof.
  revert k. induction l as [|q l IH]; intros k; [done|]. cbn.
  destruct (decide (p = q)) as [->|]; [by intros [= <-]|].
  destruct (index_of p l) as [k'|]; [|done]. intros [= <-]. by apply IH.
Qed.

Lemma index_of_lookup l i p :
  NoDup l → l !! i = Some p → index_of p l = Some i.
Proof.
  intros Hnd. revert i. induction Hnd as [|q l Hq Hnd IH]; intros i; [done|].
  cbn. destruct i as [|i]; cbn.
  - intros [= ->]. by rewrite decide_True.
  - intros Hl. rewrite decide_False.
    + by rewrite (IH i Hl).
    + intros ->. apply Hq. by eapply list_elem_of_lookup_2.
Qed.

Lemma index_of_elem l p : p ∈ l → is_Some (index_of p l).
Proof.
  induction 1 as [q l|q r l _ IH]; cbn.
  - by rewrite decide_True.
  - destruct (decide (q = r)); [done|]. destruct IH as [k ->]. done.
Qed.

Lemma mapM_index_of l :
  Forall (λ p, p ∈ all_images) l →
  mapM (λ p, index_of p all_images) l = Some (position all_images <$> l).
Proof.
  induction 1 as [|p l Hp _ IH]; [done|].
  destruct (index_of_elem _ _ Hp) as [k Hk].
  rewrite fmap_cons. unfold position at 1. cbn [mapM]. rewrite IH, Hk. done.
Qed.

Lemma zip_position l :
  zip (position all_images <$> l) l = (λ p, (position all_images p, p)) <$> l.
Proof. induction l as [|p l IH]; [done|]. cbn. by rewrite <-IH. Qed.

Lemma insert_by_key_perm x l : insert_by_key x l ≡ₚ x :: l.
Proof.
  induction l as [|y l IH]; [done|]. cbn.
  destruct (x.1 <=? y.1); [done|]. by rewrite IH, Permutation_swap.
Qed.

Lemma insertion_sort_perm l : foldr insert_by_key [] l ≡ₚ l.
Proof.
  induction l as [|x l IH]; [done|]. cbn.
  by rewrite insert_by_key_perm, IH.
Qed.

Lemma insert_by_key_sorted x l :
  StronglySorted key_le l → StronglySorted key_le (insert_by_key x l).
Proof.
  induction 1 as [|y l Hs IH Hy]; cbn.
  - by repeat constructor.
  - destruct (x.1 <=? y.1) eqn:E.
    + apply Nat.leb_le in E. constructor; [by constructor|].
      constructor; [done|]. eapply Forall_impl; [exact Hy|].
      unfold key_le. intros; lia.
    + apply Nat.leb_gt in E. constructor; [done|].
      rewrite insert_by_key_perm. constructor; [|done].
      unfold key_le. lia.
Qed.

Lemma insertion_sort_sorted l :
  StronglySorted key_le (foldr insert_by_key [] l).
Proof.
  induction l as [|x l IH]; [constructor|]. by apply insert_by_key_sorted.
Qed.

Lemma StronglySorted_lookup {A} (R : relation A) (l : list A) :
  (∀ i j x y, i < j → l !! i = Some x → l !! j = Some y → R x y) →
  StronglySorted R l.
Proof.
  induction l as [|x l IH]; intros H; constructor.
  - apply IH. intros i j y z Hij Hi Hj. apply (H (S i) (S j)); [lia|done..].
  - apply Forall_forall. intros y [j Hj]%list_elem_of_lookup.
    apply (H 0 (S j)); [lia|done..].
Qed.

Lemma StronglySorted_filter {A} (R : relation A) (P : A → Prop)
    `{∀ x, Decision (P x)} (l : list A) :
  StronglySorted R l → StronglySorted R (filter P l).
Proof.
  induction 1 as [|x l Hs IH Hx]; [constructor|].
  rewrite filter_cons. destruct (decide (P x)); [|done].
  constructor; [done|]. apply Forall_forall.
  intros y [_ Hy]%list_elem_of_filter. by eapply Forall_forall in Hx.
Qed.

Lemma sorted_by_position (l : list (nat * Path)) :
  StronglySorted key_le l →
  Forall (λ x, x.1 = position all_images x.2) l →
  StronglySorted (λ p q, position all_images p ≤ position all_images q) l.*2.
Proof.
  induction 1 as [|x l Hs IH Hx]; intros Hl; [constructor|].
  apply Forall_cons in Hl as [Hx1 Hl]. rewrite fmap_cons.
  constructor; [by apply IH|].
  apply Forall_fmap, Forall_forall. intros y Hy. cbn.
  rewrite <-Hx1. rewrite Forall_forall in Hl. rewrite <-(Hl y Hy).
  by eapply Forall_forall in Hx.
Qed.

(** The stable sort by [all_images.index] puts any arrangement of the
    survivors back in discovery order. *)
Lemma sort_by_index_filter l (P : Path → Prop)
    `{∀ p, Decision (P p)} :
  NoDup all_images → l ≡ₚ filter P all_images →
  sort_by_index all_images l = Ok (filter P all_images).
Proof.
  intros Hnd Hperm.
  assert (Forall (λ p, p ∈ all_images) l) as Hin.
  { apply Forall_forall. intros p Hp. rewrite Hperm in Hp.
    by apply list_elem_of_filter in Hp as [_ ?]. }
  unfold sort_by_index. rewrite mapM_index_of, zip_position by done.
  f_equal.
  set (g := λ p, (position all_images p, p)).
  pose proof (insertion_sort_perm (g <$> l)) as Hsp.
  apply (StronglySorted_unique_strong
           (λ p q, position all_images p ≤ position all_images q)).
  - intros p q Hp Hq Hpq Hqp.
    assert (p ∈ all_images) as Hp'.
    { rewrite Hsp, <-list_fmap_compose in Hp. cbn in Hp.
      rewrite list_fmap_id in Hp. by eapply Forall_forall in Hin. }
    apply list_elem_of_filter in Hq as [_ Hq'].
    destruct (index_of_elem _ _ Hp') as [i Hi].
    destruct (index_of_elem _ _ Hq') as [j Hj].
    unfold position in Hpq, Hqp. rewrite Hi, Hj in Hpq, Hqp. cbn in *.
    assert (i = j) as -> by lia.
    apply index_of_Some in Hi, Hj. congruence.
  - apply sorted_by_position; [apply insertion_sort_sorted|].
    rewrite Hsp. apply Forall_fmap, Forall_forall. done.
  - apply StronglySorted_filter, StronglySorted_lookup.
    intros i j p q Hij Hi Hj. unfold position.
    rewrite (index_of_lookup _ _ _ Hnd Hi), (index_of_lookup _ _ _ Hnd Hj).
    cbn. lia.
  - rewrite Hsp, <-list_fmap_compose. cbn. by rewrite list_fmap_id.
Qed.

Lemma omap_lookup_seq {A} (l : list A) :
  omap (l !!.) (seq 0 (length l)) = l.
Proof.
  induction l as [|x l IH] using rev_ind; [done|].
  rewrite length_app, Nat.add_comm. cbn [length Nat.add].
  rewrite seq_S, omap_app. cbn [omap list_omap Nat.add].
  rewrite lookup_app_r, Nat.sub_diag by done. cbn [lookup list_lookup].
  f_equal. etrans; [|exact IH]. apply list_omap_ext.
  apply Forall_Forall2_diag, Forall_forall.
  intros i [_ Hlt]%elem_of_seq. cbn in *. by rewrite lookup_app_l by lia.
Qed.

(** *** Numbering and renaming *)

Lemma lit_inj x y : lit x = lit y → x = y.
Proof.
  unfold lit. intros H.
  rewrite <-(string_of_list_ascii_of_string x),
          <-(string_of_list_ascii_of_string y).
  f_equal. revert H. generalize (list_ascii_of_string x) as l.
  generalize (list_ascii_of_string y) as l'.
  induction l' as [|b l' IH]; intros [|a l]; try done.
  cbn. intros [= Hab Hl]. f_equal; [|by apply IH].
  by rewrite <-(ascii_N_embedding a), <-(ascii_N_embedding b), Hab.
Qed.

Lemma str_of_nat_inj i j : str_of_nat i = str_of_nat j → i = j.
Proof.
  intros H%lit_inj.
  assert (Nat.to_uint i = Nat.to_uint j) as Hu.
  { apply (inj Some). by rewrite <-!NilEmpty.usu, H. }
  by rewrite <-(Unsigned.of_to i), <-(Unsigned.of_to j), Hu.
Qed.

Lemma str_of_nat_digits n : Forall is_digit (str_of_nat n).
Proof.
  unfold str_of_nat. generalize (Nat.to_uint n) as d.
  induction d; cbn; [constructor|..];
    (constructor; [unfold is_digit; cbn; lia|done]).
Qed.

Lemma rfind_dot_lookup s i : rfind_dot s = Some i → s !! i = Some 46%N.
Proof.
  revert i. induction s as [|c s IH]; intros i; [done|]. cbn.
  destruct (rfind_dot s) as [k|].
  - intros [= <-]. by apply IH.
  - destruct (c =? 46)%N eqn:E; [|done]. intros [= <-].
    by apply N.eqb_eq in E as ->.
Qed.

(** A suffix is empty or starts with a dot. *)
Lemma suffix_shape p : suffix p = [] ∨ ∃ t, suffix p = 46%N :: t.
Proof.
  unfold suffix. destruct (rfind_dot (name p)) as [i|] eqn:E; [|by left].
  destruct (_ && _); [|by left]. right.
  apply rfind_dot_lookup in E. rewrite (drop_S _ _ _ E). by eexists.
Qed.

Lemma digits_app_inj (d1 d2 s1 s2 : str) :
  Forall is_digit d1 → Forall is_digit d2 →
  (s1 = [] ∨ ∃ t, s1 = 46%N :: t) → (s2 = [] ∨ ∃ t, s2 = 46%N :: t) →
  d1 ++ s1 = d2 ++ s2 → d1 = d2.
Proof.
  intros H1. revert d2. induction H1 as [|a d1 Ha _ IH]; intros d2 H2 Hs1 Hs2.
  - destruct H2 as [|b d2 Hb _]; [done|]. cbn.
    destruct Hs1 as [->|[t ->]]; [done|]. intros [= <- _].
    unfold is_digit in Hb. lia.
  - destruct H2 as [|b d2 Hb H2]; cbn.
    + destruct Hs2 as [->|[t ->]]; [done|]. intros [= -> _].
      unfold is_digit in Ha. lia.
    + intros [= -> Heq]. f_equal. by apply IH.
Qed.

(** The new name determines the number. *)
Lemma numbered_inj i j p q : numbered i p = numbered j q → i = j.
Proof.
  unfold numbered. intros [= _ H]. apply str_of_nat_inj.
  eapply digits_app_inj; [apply str_of_nat_digits..|apply suffix_shape| |exact H].
  apply suffix_shape.
Qed.

(** The numbering loop on distinct existing files: the files that are
    neither renamed nor a new name are untouched; when no new name is the
    name of a file still to be renamed, each new name holds the content of
    the file it was given to. *)
Lemma rename_loop_files sources :
  NoDup sources → ∀ s i finals,
  (∀ p, p ∈ sources → is_Some (fs s !! p)) →
  ∃ fs',
    rename_loop s i sources finals
    = (PState fs' (log s ++ rename_events i sources),
       Ok (finals ++ imap (λ k p, numbered (i + k) p) sources))
    ∧ (∀ x, x ∉ sources →
            (∀ k q, sources !! k = Some q → x ≠ numbered (i + k) q) →
            fs' !! x = fs s !! x)
    ∧ ((∀ k k' q q', sources !! k = Some q → sources !! k' = Some q' →
                     k < k' → numbered (i + k) q ≠ q') →
       ∀ k q, sources !! k = Some q → fs' !! numbered (i + k) q = fs s !! q).
Proof.
  induction 1 as [|p sources Hp Hnd IH]; intros s i finals Hex.
  - exists (fs s). cbn. rewrite !app_nil_r. split_and!; [by destruct s|done..].
  - cbn [rename_loop rename_events imap].
    assert (imap ((λ k q, numbered (i + k) q) ∘ S) sources
            = imap (λ k q, numbered (S i + k) q) sources) as ->.
    { apply imap_ext. intros k q _. cbn. f_equal. lia. }
    rewrite Nat.add_0_r.
    assert (∀ k q, sources !! k = Some q →
                   numbered i p ≠ numbered (S i + k) q) as Hfresh.
    { intros k q _ Heq%numbered_inj. lia. }
    destruct (decide (p ≠ numbered i p)) as [Hne|Heq].
    + destruct (Hex p ltac:(left)) as [c Hc]. unfold rename. rewrite Hc.
      destruct (IH (PState (<[numbered i p:=c]> (delete p (fs s)))
                           (log s ++ [EvRename p (numbered i p)]))
                   (S i) (finals ++ [numbered i p]))
        as (fs' & -> & Hframe & Hcont).
      { intros q Hq. cbn [fs].
        destruct (decide (q = numbered i p)) as [->|Hqt].
        - by rewrite lookup_insert_eq.
        - rewrite lookup_insert_ne, lookup_delete_ne by congruence.
          apply Hex. by right. }
      exists fs'. cbn [log fs] in *. split_and!.
      * by rewrite <-!app_assoc.
      * intros x Hx Hxt. rewrite Hframe.
        -- rewrite lookup_insert_ne, lookup_delete_ne; [done|..].
           ++ intros ->. apply Hx. left.
           ++ intros <-. by apply (Hxt 0 p); [|rewrite Nat.add_0_r].
        -- intros Hin. apply Hx. by right.
        -- intros k q Hk. replace (S i + k) with (i + S k) by lia.
           by apply Hxt.
      * intros Hfree [|k] q Hk.
        -- injection Hk as <-. rewrite Nat.add_0_r, Hframe.
           ++ by rewrite lookup_insert_eq.
           ++ intros [k' Hk']%list_elem_of_lookup.
              apply (Hfree 0 (S k') p (numbered i p)); [done..|lia|].
              by rewrite Nat.add_0_r.
           ++ done.
        -- replace (i + S k) with (S i + k) by lia. cbn in Hk.
           rewrite Hcont; [|intros k1 k2 q1 q2 H1 H2 Hlt|done].
           ++ rewrite lookup_insert_ne, lookup_delete_ne; [done|..].
              ** intros <-. apply Hp. by eapply list_elem_of_lookup_2.
              ** intros Heq. apply (Hfree 0 (S k) p q); [done..|lia|].
                 by rewrite Nat.add_0_r.
           ++ replace (S i + k1) with (i + S k1) by lia.
              apply (Hfree (S k1) (S k2)); [done..|lia].
    + apply dec_stable in Heq.
      destruct (IH s (S i) (finals ++ [numbered i p]))
        as (fs' & -> & Hframe & Hcont).
      { intros q Hq. apply Hex. by right. }
      exists fs'. split_and!.
      * by rewrite <-!app_assoc.
      * intros x Hx Hxt. apply Hframe.
        -- intros Hin. apply Hx. by right.
        -- intros k q Hk. replace (S i + k) with (i + S k) by lia.
           by apply Hxt.
      * intros Hfree [|k] q Hk.
        -- injection Hk as <-. rewrite Nat.add_0_r, <-Heq. apply Hframe.
           ++ done.
           ++ rewrite Heq. done.
        -- replace (i + S k) with (S i + k) by lia. cbn in Hk.
           apply Hcont; [|done]. intros k1 k2 q1 q2 H1 H2 Hlt.
           replace (S i + k1) with (i + S k1) by lia.
           apply (Hfree (S k1) (S k2)); [done..|lia].
Qed.

Lemma classify_events_no_rename order :
  Forall (λ e, ∀ src dst, e ≠ EvRename src dst)
         (classify_events w title all_images order).
Proof.
  unfold classify_events. apply Forall_forall. intros e He.
  apply list_elem_of_bind in He as (i & He & _).
  destruct (all_images !! i) as [p|]; [|by apply elem_of_nil in He].
  apply elem_of_cons in He as [->|He]; [done|].
  destruct (kept w title p); [by apply elem_of_nil in He|].
  apply list_elem_of_singleton in He as ->. done.
Qed.

Lemma classify_events_complete order i :
  order ≡ₚ seq 0 (length all_images) → i < length all_images →
  EvClassified i ∈ classify_events w title all_images order.
Proof.
  intros Hperm Hi. unfold classify_events. apply list_elem_of_bind.
  exists i. split.
  - destruct (lookup_lt_is_Some_2 all_images i Hi) as [p ->]. left.
  - rewrite Hperm. apply elem_of_seq. lia.
Qed.

Lemma rename_events_only_renames i figure_paths :
  Forall (λ e, ∃ k p, figure_paths !! k = Some p
                      ∧ e = EvRename p (numbered (i + k) p))
         (rename_events i figure_paths).
Proof.
  revert i. induction figure_paths as [|p l IH]; intros i; [constructor|].
  cbn [rename_events]. apply Forall_app. split.
  - destruct (decide _); [|constructor]. repeat constructor.
    exists 0, p. by rewrite Nat.add_0_r.
  - eapply Forall_impl; [apply (IH (S i))|].
    intros e (k & q & Hk & ->). exists (S k), q. split; [done|].
    do 2 f_equal. lia.
Qed.

(** C3. When the candidates are distinct existing files, then for every
    order in which the classifications complete: the survivors (every
    candidate not classified as an artifact) are numbered 1..k in the order
    of their original positions, the survivor numbered n being renamed to
    [figure_<n><ext>] in its directory unless that is its name already; the
    list of figures returned is that of the new paths in number order; when
    no new name is the name of a survivor still to be renamed, the file
    [figure_<n><ext>] holds the content of the n-th survivor; and the trace
    is all classification results (with the deletions of the artifacts)
    followed by the renames, so no rename happens before every
    classification result of the batch has been consumed. *)
Theorem triage_numbering (order : list nat) (s : pstate) :
  NoDup all_images →
  (∀ p, p ∈ all_images → is_Some (fs s !! p)) →
  order ≡ₚ seq 0 (length all_images) →
  let survivors := filter (kept w title) all_images in
  let classified := classify_events w title all_images order in
  let renamed := rename_events 1 survivors in
  (∃ fs',
     triage w title all_images order s
     = (PState fs' (log s ++ classified ++ renamed),
        Ok (imap (λ k p, numbered (k + 1) p) survivors))
     ∧ ((∀ k k' p p', survivors !! k = Some p → survivors !! k' = Some p' →
                      k < k' → numbered (k + 1) p ≠ p') →
        ∀ k p, survivors !! k = Some p →
               fs' !! numbered (k + 1) p = fs s !! p))
  ∧ (∀ i, i < length all_images → EvClassified i ∈ classified)
  ∧ Forall (λ e, ∀ src dst, e ≠ EvRename src dst) classified
  ∧ Forall (λ e, ∃ k p, survivors !! k = Some p
                        ∧ e = EvRename p (numbered (k + 1) p)) renamed.
Proof.
  intros Hnd Hex Hperm survivors classified renamed.
  subst survivors classified renamed. split_and!.
  - unfold triage, triage_loop.
    destruct (triage_loop_exact order s [] Hnd)
      as (fs1 & -> & Hfs1).
    { rewrite Hperm. apply NoDup_seq. }
    { intros j q _ Hq. apply Hex. by eapply list_elem_of_lookup_2. }
    cbn [app].
    rewrite (sort_by_index_filter _ (kept w title)); [|done|].
    2:{ by rewrite Hperm, omap_lookup_seq. }
    destruct (rename_loop_files _ (NoDup_filter (kept w title) _ Hnd)
                (PState fs1 (log s ++ classify_events w title all_images order))
                1 [])
      as (fs' & -> & _ & Hcont).
    { intros p [Hk Hp]%list_elem_of_filter. cbn [fs].
      rewrite Hfs1 by (by apply Is_true_true_1). by apply Hex. }
    exists fs'. cbn [log app fs] in *. split.
    + rewrite <-app_assoc. do 2 f_equal.
      apply imap_ext. intros k p _. f_equal. lia.
    + intros Hfree k p Hk. rewrite Nat.add_comm, Hcont; [|..|done].
      * apply Hfs1, Is_true_true_1.
        by apply list_elem_of_lookup_2, list_elem_of_filter in Hk as [? _].
      * intros k1 k2 q1 q2 H1 H2 Hlt. rewrite Nat.add_comm.
        by apply (Hfree k1 k2).
  - intros i Hi. by apply classify_events_complete.
  - apply classify_events_no_rename.
  - eapply Forall_impl; [apply rename_events_only_renames|].
    intros e (k & p & Hk & ->). exists k, p. split; [done|].
    do 2 f_equal. lia.
Qed.

(** *** The classification loop without assumptions on the files *)

Lemma triage_step_general s fp i :
  let r := triage_step w title all_images (s, fp) i in
  (∃ added, r.2 = fp ++ added)
  ∧ (∃ evs, log r.1 = log s ++ evs
            ∧ Forall (classification_event w title all_images) evs)
  ∧ (∀ q, all_images !! i = Some q → kept w title q = true → q ∈ r.2)
  ∧ (∀ q, fs r.1 !! q = fs s !! q
          ∨ (q ∈ all_images ∧ is_paper_figure w q title = Ok false)).
Proof.
  unfold triage_step. cbn [fst snd].
  destruct (all_images !! i) as [p|] eqn:Ep; cbn zeta.
  { assert (∀ A (l : list A) x, x ∈ l ++ [x]) as Hlast.
    { intros. apply elem_of_app. right. left. }
    assert (Forall (classification_event w title all_images) [EvClassified i])
      as Hev by (constructor; [left; by eexists|constructor]).
    unfold kept.
    destruct (is_paper_figure w p title) as [[|]|e] eqn:Ev; cbn [fst snd].
    - split_and!; [by eexists|by eexists| |by left].
      intros q [= <-] _. apply Hlast.
    - unfold unlink. cbn [emit fs log].
      destruct (fs s !! p) as [c|] eqn:Ec; cbn [fst snd fs log].
      + split_and!.
        * exists []. by rewrite app_nil_r.
        * exists [EvClassified i; EvUnlink p]. rewrite <-app_assoc.
          split; [done|]. constructor; [left; by eexists|].
          constructor; [|done]. right. exists p. split_and!; [done| |done].
          by eapply list_elem_of_lookup_2.
        * intros q [= <-]. by rewrite Ev.
        * intros q. destruct (decide (q = p)) as [->|Hne].
          -- right. split; [|done]. by eapply list_elem_of_lookup_2.
          -- left. by apply lookup_delete_ne.
      + split_and!; [by eexists|by eexists| |by left].
        intros q [= <-] _. apply Hlast.
    - split_and!; [by eexists|by eexists| |by left].
      intros q [= <-] _. apply Hlast. }
  split_and!; [exists []; by rewrite app_nil_r| |done|by left].
  exists []. by rewrite app_nil_r.
Qed.

Lemma triage_loop_general order s acc :
  let r := foldl (triage_step w title all_images) (s, acc) order in
  (∃ added, r.2 = acc ++ added)
  ∧ (∃ evs, log r.1 = log s ++ evs
            ∧ Forall (classification_event w title all_images) evs)
  ∧ (∀ j q, j ∈ order → all_images !! j = Some q →
            kept w title q = true → q ∈ r.2)
  ∧ (∀ q, fs r.1 !! q = fs s !! q
          ∨ (q ∈ all_images ∧ is_paper_figure w q title = Ok false)).
Proof.
  revert s acc. induction order as [|i order IH]; intros s acc; cbn zeta.
  - cbn [foldl fst snd]. split_and!.
    + exists []. by rewrite app_nil_r.
    + exists []. by rewrite app_nil_r.
    + by intros j q ?%elem_of_nil.
    + by left.
  - cbn [foldl].
    destruct (triage_step w title all_images (s, acc) i) as [s1 fp1] eqn:E.
    pose proof (triage_step_general s acc i) as Hstep.
    cbn zeta in Hstep. rewrite E in Hstep. cbn [fst snd] in Hstep.
    destruct Hstep as ((a1 & ->) & (ev1 & Hl1 & Hev1) & Hk1 & Hfs1).
    destruct (IH s1 (acc ++ a1)) as ((a2 & Ha2) & (ev2 & Hl2 & Hev2) & Hk2 & Hfs2).
    split_and!.
    + exists (a1 ++ a2). by rewrite Ha2, <-app_assoc.
    + exists (ev1 ++ ev2). rewrite Hl2, Hl1, <-app_assoc. split; [done|].
      by apply Forall_app.
    + intros j q [->|Hj]%elem_of_cons Hq Hkept.
      * rewrite Ha2. apply elem_of_app. left. by apply Hk1.
      * by apply (Hk2 j).
    + intros q. destruct (Hfs2 q) as [->|?]; [|by right]. apply Hfs1.
Qed.

Lemma rename_loop_log s i figure_paths finals :
  ∃ evs, log (rename_loop s i figure_paths finals).1 = log s ++ evs
         ∧ Forall (λ e, ∃ src dst, e = EvRename src dst) evs.
Proof.
  revert s i finals.
  induction figure_paths as [|p l IH]; intros s i finals; cbn [rename_loop].
  - exists []. by rewrite app_nil_r.
  - destruct (decide _); [|apply IH].
    unfold rename. destruct (fs s !! p) as [c|].
    + destruct (IH (PState (<[numbered i p:=c]> (delete p (fs s)))
                           (log s ++ [EvRename p (numbered i p)]))
                   (S i) (finals ++ [numbered i p])) as (evs & -> & Hevs).
      exists (EvRename p (numbered i p) :: evs). cbn [log].
      rewrite <-app_assoc. split; [done|]. constructor; [by eexists _, _|done].
    + exists []. by rewrite app_nil_r.
Qed.

(** The triage writes no file: it consumes results, deletes and renames. *)
Lemma triage_no_write order s :
  ∃ evs, log (triage w title all_images order s).1 = log s ++ evs
         ∧ Forall (λ e, ∀ p, e ≠ EvWrite p) evs.
Proof.
  unfold triage, triage_loop.
  pose proof (triage_loop_general order s []) as Hloop.
  cbn zeta in Hloop.
  destruct (foldl _ _ order) as [s1 fp]. cbn [fst snd] in Hloop.
  destruct Hloop as (_ & (ev1 & Hl1 & Hev1) & _).
  assert (Forall (λ e, ∀ p, e ≠ EvWrite p) ev1) as Hev1'.
  { eapply Forall_impl; [exact Hev1|].
    intros e [[i ->]|(q & -> & _)] p; done. }
  destruct (sort_by_index all_images fp) as [sorted|e]; cbn [fst].
  - destruct (rename_loop_log s1 1 sorted []) as (ev2 & -> & Hev2).
    exists (ev1 ++ ev2). rewrite Hl1, <-app_assoc. split; [done|].
    apply Forall_app. split; [done|].
    eapply Forall_impl; [exact Hev2|]. by intros e' (a & b & ->) p.
  - by exists ev1.
Qed.

(** C8. A candidate whose classification raises stays in the surviving set,
    and the classification loop neither deletes nor changes its file; only
    candidates classified as artifacts are missing from the surviving set or
    have their file deleted. The error does not reach the caller: the run of
    [process_paper] is the run in which that candidate was classified as a
    figure. *)
Theorem classification_error_keeps_candidate (order : list nat) (s : pstate)
    (i : nat) (p : Path) (e : exn) :
  order ≡ₚ seq 0 (length all_images) →
  all_images !! i = Some p →
  is_paper_figure w p title = Err e →
  let r := triage_loop w title all_images order s in
  p ∈ r.2
  ∧ fs r.1 !! p = fs s !! p
  ∧ (∀ evs, log r.1 = log s ++ evs → EvUnlink p ∉ evs)
  ∧ (∀ q, q ∈ all_images → q ∉ r.2 → is_paper_figure w q title = Ok false)
  ∧ (∀ q, fs r.1 !! q ≠ fs s !! q → is_paper_figure w q title = Ok false)
  ∧ (∀ evs q, log r.1 = log s ++ evs → EvUnlink q ∈ evs →
              is_paper_figure w q title = Ok false)
  ∧ (∀ sch raw_text images dir extract_figures describe_figures,
       process_paper w sch raw_text images title dir
                     extract_figures describe_figures s
       = process_paper (treat_as_figure w p title) sch raw_text images title
                       dir extract_figures describe_figures s).
Proof.
  intros Hperm Hp He r. subst r. unfold triage_loop.
  pose proof (triage_loop_general order s []) as H.
  cbn zeta in H.
  destruct H as (_ & (evs0 & Hl & Hevs) & Hkept & Hfs).
  assert (∀ j, j < length all_images → j ∈ order) as Hall.
  { intros j Hj. rewrite Hperm. apply elem_of_seq. lia. }
  assert (∀ evs q, log (foldl (triage_step w title all_images) (s, []) order).1
                   = log s ++ evs →
                   EvUnlink q ∈ evs → is_paper_figure w q title = Ok false)
    as Hunlink.
  { intros evs q Hlog Hq. rewrite Hl in Hlog. apply app_inv_head in Hlog as <-.
    rewrite Forall_forall in Hevs.
    destruct (Hevs _ Hq) as [[j [=]]|(q' & [= <-] & _ & ?)]. done. }
  split_and!.
  - apply (Hkept i); [|done|].
    + apply Hall. by eapply lookup_lt_Some.
    + unfold kept. by rewrite He.
  - destruct (Hfs p) as [|[_ Hv]]; [done|]. congruence.
  - intros evs Hlog Hin. specialize (Hunlink _ _ Hlog Hin). congruence.
  - intros q [j Hj]%list_elem_of_lookup Hq.
    destruct (kept w title q) eqn:Ek.
    + destruct Hq. apply (Hkept j); [|done..].
      apply Hall. by eapply lookup_lt_Some.
    + unfold kept in Ek.
      by destruct (is_paper_figure w q title) as [[|]|].
  - intros q Hq. destruct (Hfs q) as [|[_ ?]]; done.
  - exact Hunlink.
  - intros. unfold process_paper.
    by rewrite (triage_treat_as_figure _ _ _ e).
Qed.

End triage.

(** ** Failure of the cleaning *)

(** C4. When the cleaning call of a chunk raises, [clean_paper_text] returns
    no document: it raises the error of the first failing chunk in index
    order, which is the error of that chunk when no chunk before it fails,
    whatever the completion order. [process_paper] then raises too (the
    error of the cleaning, unless the triage has raised before) and writes no
    file: its trace holds no write, so [paper.md] is not written. *)
Theorem cleaning_failure_aborts (w : world) (sch : schedule) (raw_text : str)
    (images : list Path) (title : str) (dir : Path)
    (extract_figures describe_figures : bool) (s : pstate)
    (i : nat) (chunk : str) (e : exn) :
  let chunks := _chunk_text raw_text MAX_CHARS in
  let clean := λ j c, _clean_chunk w c (j + 1) (length chunks) (Some title) in
  get_client w = Ok tt →
  clean_order sch ≡ₚ seq 0 (length chunks) →
  chunks !! i = Some chunk →
  clean i chunk = Err e →
  ∃ j chunk_j e_j,
    j ≤ i ∧ chunks !! j = Some chunk_j ∧ clean j chunk_j = Err e_j
    ∧ (∀ k c, k < j → chunks !! k = Some c → is_ok (clean k c) = true)
    ∧ ((∀ k c, k < i → chunks !! k = Some c → is_ok (clean k c) = true) →
       e_j = e)
    ∧ clean_paper_text w (clean_order sch) raw_text (Some title)
      = Some (Err e_j)
    ∧ ∃ s' e' evs,
        process_paper w sch raw_text images title dir
                      extract_figures describe_figures s
        = Some (s', Err e')
        ∧ (e' = e_j
           ∨ (triage w title (if extract_figures then images else [])
                     (filter_order sch) s).2 = Err e')
        ∧ log s' = log s ++ evs
        ∧ Forall (λ ev, ∀ p, ev ≠ EvWrite p) evs.
Proof.
  intros chunks clean Hclient Hperm Hi He.
  assert (imap clean chunks !! i = Some (Err e)) as Hcall.
  { by rewrite list_lookup_imap, Hi; cbn; rewrite He. }
  destruct (run_sequential_err _ _ _ Hcall) as (j & e_j & Hj & Hlj & Hbefore & Hr).
  rewrite list_lookup_imap in Hlj.
  destruct (chunks !! j) as [chunk_j|] eqn:Ecj; [|done].
  cbn in Hlj. injection Hlj as Hlj.
  assert (clean_paper_text w (clean_order sch) raw_text (Some title)
          = Some (Err e_j)) as Hclean.
  { rewrite clean_paper_text_sequential by done.
    unfold sequential_baseline. rewrite Hclient. fold chunks. fold clean.
    by rewrite Hr. }
  exists j, chunk_j, e_j. split_and!; [done..| | |done|].
  { intros k c Hk Hc. apply (Hbefore k); [done|].
    by rewrite list_lookup_imap, Hc. }
  { intros Hfirst. destruct (decide (j = i)) as [->|Hne]; [congruence|].
    assert (j < i) as Hlt by lia.
    specialize (Hfirst j chunk_j Hlt Ecj). by rewrite Hlj in Hfirst. }
  unfold process_paper. rewrite Hclean.
  destruct (negb (is_empty (if extract_figures then images else []))).
  - destruct (triage_no_write w title (if extract_figures then images else [])
                (filter_order sch) s) as (evs & Hlog & Hevs).
    destruct (triage _ _ _ _ s) as [s1 [fp|e1]]; cbn [fst snd] in *.
    + exists s1, e_j, evs. split_and!; [done|by left|done..].
    + exists s1, e1, evs. split_and!; [done|by right|done..].
  - exists s, e_j, []. rewrite app_nil_r. split_and!; [done|by left|done..].
Qed.

(** ** Placing the figures section *)

Lemma starts_with_prefix old s :
  starts_with old s = true ↔ s = old ++ drop (length old) s.
Proof.
  revert s. induction old as [|a old IH]; intros [|b s]; cbn; try done.
  rewrite andb_true_iff, N.eqb_eq, IH. split.
  - by intros [-> <-].
  - by intros [= -> ?].
Qed.

Lemma occurrences_from_spec old i s j :
  old ≠ [] →
  j ∈ occurrences_from old i s
  ↔ ∃ d, j = i + d ∧ starts_with old (drop d s) = true.
Proof.
  intros Hold. revert i. induction s as [|c s IH]; intros i.
  - cbn. destruct old; [done|]. cbn. split; [by intros ?%elem_of_nil|].
    intros (d & _ & H). by destruct d.
  - cbn [occurrences_from]. rewrite elem_of_app, IH. split.
    + intros [H|(d & -> & H)].
      * destruct (starts_with old (c :: s)) eqn:E; [|by apply elem_of_nil in H].
        apply list_elem_of_singleton in H as ->. exists 0.
        split; [lia|done].
      * exists (S d). split; [lia|done].
    + intros ([|d] & -> & H).
      * left. cbn [drop] in H. rewrite H, Nat.add_0_r. left.
      * right. exists d. split; [lia|done].
Qed.

Lemma occurrences_contains old s k l :
  occurrences old s = k :: l → contains old s = true.
Proof.
  unfold occurrences. generalize 0.
  induction s as [|c s IH]; intros i; cbn.
  - rewrite orb_false_r. by destruct (starts_with old []).
  - destruct (starts_with old (c :: s)); [done|]. cbn. apply IH.
Qed.

Lemma occurrences_none_contains old s i :
  occurrences_from old i s = [] → contains old s = false.
Proof.
  revert i. induction s as [|c s IH]; intros i; cbn.
  - by destruct (starts_with old []).
  - destruct (starts_with old (c :: s)); [done|]. cbn. apply IH.
Qed.

Lemma replace_from_skip old new k s :
  replace_from old new k s = replace_from old new 0 (drop k s).
Proof.
  revert k. induction s as [|c s IH]; intros [|k]; try done.
  cbn [replace_from drop]. apply IH.
Qed.

Lemma replace_from_none old new s i :
  occurrences_from old i s = [] → replace_from old new 0 s = s.
Proof.
  revert i. induction s as [|c s IH]; intros i; [done|].
  cbn [occurrences_from replace_from].
  destruct (starts_with old (c :: s)); [done|]. cbn [app].
  intros H. f_equal. by eapply IH.
Qed.

Lemma occurrences_from_drop old i s n :
  old ≠ [] → n ≤ length s →
  (∀ j, j ∈ occurrences_from old i s → j < i + n) →
  occurrences_from old (i + n) (drop n s) = [].
Proof.
  intros Hold Hn H.
  destruct (occurrences_from old (i + n) (drop n s)) as [|j l] eqn:E; [done|].
  assert (j ∈ occurrences_from old (i + n) (drop n s)) as Hj
    by (rewrite E; left).
  apply occurrences_from_spec in Hj as (d & -> & Hd); [|done].
  rewrite drop_drop in Hd.
  assert (i + (n + d) ∈ occurrences_from old i s) as Hin.
  { apply occurrences_from_spec; [done|]. by exists (n + d). }
  apply H in Hin. lia.
Qed.

(** One occurrence of [old]: it is replaced, and nothing else changes. *)
Lemma replace_from_unique old new s i k :
  old ≠ [] → occurrences_from old i s = [i + k] →
  ∃ before after,
    s = before ++ old ++ after ∧ length before = k
    ∧ replace_from old new 0 s = before ++ new ++ after.
Proof.
  intros Hold. revert i s. induction k as [|k IH]; intros i s Hocc.
  - assert (starts_with old s = true) as Hs.
    { assert (i + 0 ∈ occurrences_from old i s) as Hin
        by (rewrite Hocc; left).
      apply occurrences_from_spec in Hin as (d & Hd & Hin); [|done].
      by assert (d = 0) as -> by lia. }
    exists [], (drop (length old) s). split_and!; [|done|].
    { by apply starts_with_prefix. }
    destruct s as [|c s]; [by destruct old|].
    cbn [replace_from app]. rewrite Hs, replace_from_skip. f_equal.
    assert (drop (length old - 1) s = drop (length old) (c :: s)) as ->.
    { destruct old; [done|]. cbn. by rewrite Nat.sub_0_r. }
    apply (replace_from_none _ _ _ (i + length old)).
    apply occurrences_from_drop; [done| |].
    + apply starts_with_prefix, (f_equal length) in Hs.
      rewrite length_app in Hs. lia.
    + intros j Hj. rewrite Hocc in Hj. apply list_elem_of_singleton in Hj.
      destruct old; [done|]. cbn [length]. lia.
  - destruct s as [|c s].
    { cbn in Hocc. destruct (starts_with old []); simplify_eq/=; lia. }
    cbn [occurrences_from] in Hocc.
    destruct (starts_with old (c :: s)) eqn:Hs.
    { cbn in Hocc. injection Hocc as Hocc _. lia. }
    cbn [app] in Hocc. rewrite <-Nat.add_succ_comm in Hocc.
    destruct (IH (S i) s Hocc) as (before & after & -> & <- & Hr).
    exists (c :: before), after. split_and!; [done..|].
    cbn [replace_from app]. by rewrite Hs, Hr.
Qed.

(** C7, as the code has it. When the text [## References] occurs exactly once
    in the document, the figures section is inserted once, immediately before
    that occurrence; when it does not occur, the section is appended at the
    end; in both cases the rest of the document is unchanged. *)
Theorem insert_figure_descriptions_placement (markdown : str)
    (descriptions : dict) (figure_paths : list Path) :
  let section := figures_section descriptions figure_paths in
  (∀ k, occurrences REFERENCES markdown = [k] →
        ∃ before after,
          markdown = before ++ REFERENCES ++ after
          ∧ length before = k
          ∧ _insert_figure_descriptions markdown descriptions figure_paths
            = before ++ section ++ REFERENCES ++ after)
  ∧ (occurrences REFERENCES markdown = [] →
     _insert_figure_descriptions markdown descriptions figure_paths
     = markdown ++ section).
Proof.
  cbn zeta. unfold _insert_figure_descriptions. split.
  - intros k Hocc. rewrite (occurrences_contains _ _ _ _ Hocc).
    destruct (replace_from_unique REFERENCES
                (figures_section descriptions figure_paths ++ REFERENCES)
                markdown 0 k)
      as (before & after & Hm & Hk & Hr); [done..|].
    exists before, after. split_and!; [done..|].
    change (replace REFERENCES ?new ?s) with (replace_from REFERENCES new 0 s).
    by rewrite Hr, <-app_assoc.
  - intros Hocc. by rewrite (occurrences_none_contains _ _ _ Hocc).
Qed.

(** * Further properties of the code *)

(** ** [_chunk_text]: the number of units *)

Lemma sum_len_app g1 g2 : sum_len (g1 ++ g2) = sum_len g1 + sum_len g2.
Proof. apply sum_list_with_app. Qed.

Lemma sum_len_split_nn s : sum_len (split_nn s) ≤ length s.
Proof.
  pose proof (length_join_nn (split_nn s) (split_nn_nonempty s)) as H.
  rewrite join_split_nn in H. lia.
Qed.

Lemma sum_len_elem p g : p ∈ g → length p ≤ sum_len g.
Proof.
  induction 1 as [p g|p q g _ IH]; unfold sum_len in *; cbn; lia.
Qed.

Lemma length_concat_nonempty {A} (gs : list (list A)) :
  Forall (λ g, g ≠ []) gs → length gs ≤ length (concat gs).
Proof.
  induction 1 as [|g gs Hg _ IH]; [done|].
  cbn. rewrite length_app. destruct g; [done|]. cbn. lia.
Qed.

(** X1. [_chunk_text] returns at least one unit, whatever the text (an empty
    text gives one empty unit), and at most one unit for each paragraph: the
    executor of [clean_paper_text] always has at least one worker. *)
Theorem chunk_text_count (text : str) (max_chars : Z) :
  1 ≤ length (_chunk_text text max_chars) ≤ length (split_nn text).
Proof.
  pose proof (chunk_text_nonempty text max_chars) as Hne.
  destruct (chunk_text_groups text max_chars) as (gs & Hc & Hcat & Hg & _).
  split.
  - destruct (_chunk_text text max_chars); [done|]. cbn. lia.
  - rewrite Hc, length_fmap, <- Hcat. by apply length_concat_nonempty.
Qed.

Lemma chunk_text_single (text : str) (max_chars : Z) :
  (Z.of_nat (sum_len (split_nn text)) ≤ max_chars)%Z →
  _chunk_text text max_chars = [text].
Proof.
  intros Hle.
  pose proof (chunk_text_nonempty text max_chars) as Hne.
  destruct (chunk_text_groups text max_chars)
    as (gs & Hc & Hcat & Hg & _ & Hgr).
  destruct gs as [|g [|g' gs]].
  - by rewrite Hc in Hne.
  - cbn in Hcat. rewrite app_nil_r in Hcat. subst g.
    by rewrite Hc; cbn; rewrite join_split_nn.
  - exfalso. apply Forall_cons in Hg as [_ Hg].
    apply Forall_cons in Hg as [Hg' _].
    destruct g' as [|p g']; [done|]. destruct Hgr as [Hgt _].
    rewrite <- Hcat in Hle. cbn [concat] in Hle.
    rewrite !sum_len_app in Hle.
    assert (length p ≤ sum_len (p :: g')) by (apply sum_len_elem; left).
    lia.
Qed.

(** X3. When every paragraph alone exceeds the threshold (any text, when
    the threshold is negative), every paragraph is a unit of its own: no
    paragraph is split and no two are merged. *)
Theorem chunk_text_long_paragraphs (text : str) (max_chars : Z) :
  Forall (λ p, (max_chars < Z.of_nat (length p))%Z) (split_nn text) →
  _chunk_text text max_chars = split_nn text.
Proof.
  intros Hlong.
  destruct (chunk_text_groups text max_chars)
    as (gs & -> & Hcat & Hg & Hw & _).
  rewrite <- Hcat in Hlong |- *. clear Hcat.
  induction gs as [|g gs IH]; [done|].
  apply Forall_cons in Hg as [Hg Hgs]. apply Forall_cons in Hw as [Hw Hws].
  cbn [concat] in Hlong. apply Forall_app in Hlong as [Hl Hls].
  rewrite fmap_cons, IH by done. cbn [concat]. f_equal.
  destruct Hw as [Hle|[p ->]]; [|done].
  destruct g as [|p g]; [done|]. apply Forall_cons in Hl as [Hp _].
  assert (length p ≤ sum_len (p :: g)) by (apply sum_len_elem; left).
  lia.
Qed.

(** X2. A text whose paragraphs have a total length (the separators not
    counted) of at most the threshold, so any text of at most [max_chars]
    characters, is returned as one unit, unchanged. *)
Theorem chunk_text_short_text (text : str) (max_chars : Z) :
  (Z.of_nat (sum_len (split_nn text)) ≤ max_chars)%Z →
  _chunk_text text max_chars = [text].
Proof. apply chunk_text_single. Qed.

(** X4. A text that makes one unit is cleaned by one call, which gets the
    whole text as part 1 of 1; [clean_paper_text] returns what that call
    returns, or raises what it raises. *)
Theorem clean_paper_text_short (w : world) (raw_text : str)
    (title : option str) :
  (Z.of_nat (sum_len (split_nn raw_text)) ≤ MAX_CHARS)%Z →
  get_client w = Ok tt →
  clean_paper_text w [0] raw_text title
  = Some (_clean_chunk w raw_text 1 1 title).
Proof.
  intros Hshort Hclient. unfold clean_paper_text.
  rewrite Hclient, (chunk_text_single raw_text MAX_CHARS Hshort).
  cbn. by destruct (_clean_chunk w raw_text 1 1 title).
Qed.

(** ** The descriptions and the figures section *)

Lemma dict_set_fresh (d : dict) k v :
  k ∉ d.*1 → dict_set d k v = d ++ [(k, v)].
Proof.
  induction d as [|[k' v'] d IH]; [done|].
  cbn. intros Hk. apply not_elem_of_cons in Hk as [Hne Hk].
  destruct (decide (k = k')); [done|]. by rewrite IH.
Qed.

Lemma dict_get_elem (d : dict) k v :
  NoDup d.*1 → (k, v) ∈ d → dict_get d k = Some v.
Proof.
  induction d as [|[k' v'] d IH]; [by intros _ ?%elem_of_nil|].
  cbn. intros [Hk' Hd]%NoDup_cons Hin. apply elem_of_cons in Hin as [[= <- <-]|Hin].
  - by rewrite decide_True.
  - destruct (decide (k = k')) as [->|]; [|by apply IH].
    exfalso. apply Hk'. apply list_elem_of_fmap. by exists (k', v).
Qed.

Lemma dict_get_None (d : dict) k : k ∉ d.*1 → dict_get d k = None.
Proof.
  induction d as [|[k' v'] d IH]; [done|].
  cbn. intros [Hne Hk]%not_elem_of_cons.
  by rewrite decide_False, IH.
Qed.

Lemma figure_key_inj i j : figure_key i = figure_key j → i = j.
Proof.
  unfold figure_key. intros H%app_inv_head. by apply str_of_nat_inj.
Qed.

Lemma describe_step_item w title figure_paths d k :
  describe_step w title figure_paths d k
  = match described_item w title figure_paths k with
    | Some (key, v) => dict_set d key v
    | None => d
    end.
Proof.
  unfold describe_step, described_item, description_of, figure_key.
  destruct (figure_paths !! k) as [p|]; [|done]. cbn.
  by destruct (describe_figure w p (k + 1) title).
Qed.

Lemma described_item_key w title figure_paths k item :
  described_item w title figure_paths k = Some item →
  item.1 = figure_key (k + 1).
Proof.
  unfold described_item. destruct (figure_paths !! k); [|done].
  by intros [= <-].
Qed.

Lemma described_items_keys w title figure_paths order key :
  key ∈ (omap (described_item w title figure_paths) order).*1 →
  ∃ k, k ∈ order ∧ key = figure_key (k + 1).
Proof.
  intros ([key' v] & -> & (k & Hk & Hitem)%list_elem_of_omap)%list_elem_of_fmap.
  exists k. split; [done|]. by apply described_item_key in Hitem.
Qed.

Lemma describe_fold_items w title figure_paths order d :
  NoDup order →
  (∀ k, k ∈ order → figure_key (k + 1) ∉ d.*1) →
  foldl (describe_step w title figure_paths) d order
  = d ++ omap (described_item w title figure_paths) order.
Proof.
  revert d. induction order as [|k order IH]; intros d Hnd Hfresh.
  - by rewrite app_nil_r.
  - apply NoDup_cons in Hnd as [Hk Hnd]. cbn [foldl omap list_omap].
    rewrite describe_step_item.
    destruct (described_item w title figure_paths k) as [[key v]|] eqn:E.
    + pose proof (described_item_key _ _ _ _ _ E) as Hkey. cbn [fst] in Hkey. subst key.
      rewrite dict_set_fresh by (apply Hfresh; left).
      rewrite IH; [by rewrite <- app_assoc|done|].
      intros j Hj. rewrite fmap_app, elem_of_app. intros [Hin|Hin].
      * by apply (Hfresh j); [right|].
      * cbn in Hin. apply list_elem_of_singleton in Hin.
        apply figure_key_inj in Hin. assert (j = k) as -> by lia. done.
    + apply IH; [done|]. intros j Hj. apply Hfresh. by right.
Qed.

Lemma describe_loop_items w title figure_paths order :
  NoDup order →
  describe_loop w title figure_paths order
  = omap (described_item w title figure_paths) order.
Proof.
  intros Hnd. unfold describe_loop.
  rewrite describe_fold_items; [done..|]. intros k _. cbn. apply not_elem_of_nil.
Qed.

Lemma described_items_NoDup w title figure_paths order :
  NoDup order →
  NoDup (omap (described_item w title figure_paths) order).*1.
Proof.
  induction 1 as [|k order Hk Hnd IH]; [constructor|].
  cbn [omap list_omap]. destruct (described_item w title figure_paths k) as [item|] eqn:E;
    [|done].
  rewrite fmap_cons. constructor; [|done].
  rewrite (described_item_key _ _ _ _ _ E).
  intros (j & Hj & Hkey)%described_items_keys.
  apply figure_key_inj in Hkey. assert (j = k) as -> by lia. done.
Qed.

Lemma omap_imap_seq {A B} (f : nat → A → B) (l : list A) :
  omap (λ k, f k <$> l !! k) (seq 0 (length l)) = imap f l.
Proof.
  induction l as [|x l IH] using rev_ind; [done|].
  rewrite length_app, Nat.add_comm. cbn [length Nat.add].
  rewrite seq_S, omap_app, imap_app. cbn [omap list_omap Nat.add imap].
  rewrite lookup_app_r, Nat.sub_diag by done. cbn [lookup list_lookup fmap option_fmap option_map].
  rewrite Nat.add_0_r. f_equal. etrans; [|exact IH]. apply list_omap_ext.
  apply Forall_Forall2_diag, Forall_forall.
  intros i [_ Hlt]%elem_of_seq. cbn in *. by rewrite lookup_app_l by lia.
Qed.

Lemma described_items_seq w title figure_paths :
  omap (described_item w title figure_paths) (seq 0 (length figure_paths))
  = imap (λ k p, (figure_key (k + 1), description_of w title p (k + 1)))
         figure_paths.
Proof.
  apply (omap_imap_seq
           (λ k p, (figure_key (k + 1), description_of w title p (k + 1)))).
Qed.

(** X6. Whatever the order in which the description calls complete, the
    dictionary of descriptions has one item for each figure, under the key
    [figure_<i>] of the figure itself: the description returned for figure
    [i], or the placeholder [[Figure <i>]] when the call raised. It has no
    other key. *)
Theorem describe_loop_lookup (w : world) (title : str)
    (figure_paths : list Path) (order : list nat) :
  order ≡ₚ seq 0 (length figure_paths) →
  length (describe_loop w title figure_paths order) = length figure_paths
  ∧ (∀ k p, figure_paths !! k = Some p →
            dict_get (describe_loop w title figure_paths order)
                     (lit "figure_" ++ str_of_nat (k + 1))
            = Some (match describe_figure w p (k + 1) title with
                    | Ok d => d
                    | Err _ => lit "[Figure " ++ str_of_nat (k + 1) ++ lit "]"
                    end))
  ∧ (∀ key, is_Some (dict_get (describe_loop w title figure_paths order) key) →
            ∃ k, k < length figure_paths
                 ∧ key = lit "figure_" ++ str_of_nat (k + 1)).
Proof.
  intros Hperm.
  assert (NoDup order) as Hnd by (rewrite Hperm; apply NoDup_seq).
  rewrite describe_loop_items by done. split_and!.
  - rewrite Hperm, described_items_seq. apply length_imap.
  - intros k p Hp. apply dict_get_elem; [by apply described_items_NoDup|].
    apply list_elem_of_omap. exists k. split.
    + rewrite Hperm. apply elem_of_seq. apply lookup_lt_Some in Hp. lia.
    + unfold described_item. by rewrite Hp.
  - intros key [v Hv].
    destruct (decide (key ∈ (omap (described_item w title figure_paths) order).*1))
      as [Hin|Hout]; [|by rewrite dict_get_None in Hv].
    apply described_items_keys in Hin as (k & Hk & ->).
    exists k. split; [|done]. rewrite Hperm in Hk. apply elem_of_seq in Hk. lia.
Qed.

Lemma fold_entries (f : nat → str → str) (items : list (nat * (str * str)))
    (acc : str) :
  foldl (λ section '(i, (key, desc)), section ++ f i desc) acc items
  = acc ++ concat ((λ x, f x.1 x.2.2) <$> items).
Proof.
  revert acc. induction items as [|[i [key desc]] items IH]; intros acc.
  - by rewrite app_nil_r.
  - cbn [foldl]. rewrite IH, fmap_cons. cbn [concat fst snd].
    by rewrite <- app_assoc.
Qed.

Lemma figures_section_concat descriptions figure_paths :
  figures_section descriptions figure_paths
  = nn ++ lit "## Figures" ++ nn
    ++ concat (imap (λ k item, figure_entry figure_paths (k + 1) item.2)
                    descriptions).
Proof.
  unfold figures_section. rewrite fold_entries, <- !app_assoc.
  do 3 f_equal. by rewrite fmap_imap.
Qed.

Lemma figure_entry_image figure_paths k p desc :
  figure_paths !! k = Some p →
  figure_entry figure_paths (k + 1) desc = image_entry (k + 1) p desc.
Proof.
  intros Hp. unfold figure_entry, image_entry.
  pose proof (lookup_lt_Some _ _ _ Hp) as Hlt.
  destruct figure_paths as [|q l]; [done|]. cbn [is_empty negb andb].
  replace (k + 1 <=? length (q :: l)) with true
    by (symmetry; apply Nat.leb_le; lia).
  replace (k + 1 - 1) with k by lia. rewrite Hp.
  by rewrite <- !app_assoc.
Qed.

Lemma described_items_in_range w title figure_paths order :
  Forall (λ k, k < length figure_paths) order →
  omap (described_item w title figure_paths) order
  = (λ k, (figure_key (k + 1), description_at w title figure_paths k))
      <$> order.
Proof.
  induction 1 as [|k order Hk _ IH]; [done|].
  cbn [omap list_omap]. rewrite fmap_cons, <- IH.
  unfold described_item, description_at.
  by destruct (lookup_lt_is_Some_2 _ _ Hk) as [p ->].
Qed.

(** X7. The figures section follows the completion order of the
    description calls: its entry at position [pos] has the number and the
    image of figure [pos + 1], and the description stored for the figure whose
    call completed at that position. *)
Theorem figures_section_completion_order (w : world) (title : str)
    (figure_paths : list Path) (order : list nat) :
  order ≡ₚ seq 0 (length figure_paths) →
  figures_section (describe_loop w title figure_paths order) figure_paths
  = nn ++ lit "## Figures" ++ nn
    ++ concat (imap (λ pos k,
                       figure_entry figure_paths (pos + 1)
                         (description_at w title figure_paths k))
                    order).
Proof.
  intros Hperm.
  assert (NoDup order) as Hnd by (rewrite Hperm; apply NoDup_seq).
  rewrite describe_loop_items, described_items_in_range by
    (try done; apply Forall_forall; intros k Hk; rewrite Hperm in Hk;
     apply elem_of_seq in Hk; lia).
  by rewrite figures_section_concat, imap_fmap.
Qed.

Lemma imap_imap {A B C} (f : nat → A → B) (g : nat → B → C) (l : list A) :
  imap g (imap f l) = imap (λ k x, g k (f k x)) l.
Proof.
  revert f g. induction l as [|x l IH]; intros f g; [done|].
  cbn [imap]. f_equal. apply IH.
Qed.

(** X8. When the description calls complete in submission order, the entry
    of every figure has its heading, its image and its own description (or
    its placeholder), in number order. *)
Theorem figures_section_in_order (w : world) (title : str)
    (figure_paths : list Path) :
  figures_section
    (describe_loop w title figure_paths (seq 0 (length figure_paths)))
    figure_paths
  = nn ++ lit "## Figures" ++ nn
    ++ concat (imap (λ k p,
                       lit "### Figure " ++ str_of_nat (k + 1) ++ nn
                       ++ lit "![Figure " ++ str_of_nat (k + 1)
                       ++ lit "](img/" ++ name p ++ lit ")" ++ nn
                       ++ lit "**Description:** "
                       ++ match describe_figure w p (k + 1) title with
                          | Ok d => d
                          | Err _ =>
                              lit "[Figure " ++ str_of_nat (k + 1) ++ lit "]"
                          end
                       ++ nn)
                    figure_paths).
Proof.
  rewrite describe_loop_items by apply NoDup_seq.
  rewrite described_items_seq, figures_section_concat, imap_imap.
  apply (f_equal (λ x, nn ++ lit "## Figures" ++ nn ++ concat x)).
  apply imap_ext. intros k p Hp. cbn [snd].
  by rewrite (figure_entry_image _ _ p).
Qed.

(** ** [_insert_figure_descriptions]: every occurrence *)

Lemma starts_with_app old a b :
  starts_with old a = true → starts_with old (a ++ b) = true.
Proof.
  revert a. induction old as [|x old IH]; intros [|y a]; cbn; try done.
  rewrite !andb_true_iff. intros [? ?]. split; [done|]. by apply IH.
Qed.

Lemma join_head sep p ps : ∃ t, join sep (p :: ps) = p ++ t.
Proof.
  destruct ps as [|q ps].
  - exists []. by rewrite app_nil_r.
  - eexists. by rewrite join_cons.
Qed.

(** [s.replace(old, new)] is [new.join(s.split(old))]: the pieces between the
    occurrences replaced are kept and hold no occurrence. *)
Lemma replace_from_pieces old new n s :
  old ≠ [] → length s ≤ n →
  ∃ pieces,
    pieces ≠ []
    ∧ s = join old pieces
    ∧ replace_from old new 0 s = join new pieces
    ∧ Forall (λ p, contains old p = false) pieces.
Proof.
  intros Hold. revert s. induction n as [|n IH]; intros s Hn.
  { destruct s; [|cbn in Hn; lia]. exists [[]]. split_and!; try done.
    constructor; [|done]. by destruct old. }
  destruct s as [|c s].
  { exists [[]]. split_and!; try done. constructor; [|done]. by destruct old. }
  cbn [replace_from]. destruct (starts_with old (c :: s)) eqn:Hs.
  - rewrite replace_from_skip.
    assert (drop (length old - 1) s = drop (length old) (c :: s)) as ->.
    { destruct old; [done|]. cbn. by rewrite Nat.sub_0_r. }
    apply starts_with_prefix in Hs.
    destruct (IH (drop (length old) (c :: s))) as (ps & Hne & Hj & Hr & Hno).
    { rewrite length_drop. destruct old; [done|]. cbn in *. lia. }
    exists ([] :: ps). split_and!; [done| | |].
    + rewrite join_cons by done. cbn [app]. by rewrite <- Hj.
    + rewrite join_cons by done. cbn [app]. by rewrite Hr.
    + constructor; [|done]. by destruct old.
  - destruct (IH s) as (ps & Hne & Hj & Hr & Hno); [cbn in Hn; lia|].
    exists (cons_hd c ps). split_and!.
    + by destruct ps.
    + rewrite join_cons_hd by done. by rewrite <- Hj.
    + rewrite join_cons_hd by done. by rewrite Hr.
    + destruct ps as [|p ps]; [done|]. apply Forall_cons in Hno as [Hp Hps].
      cbn [cons_hd]. constructor; [|done]. cbn [contains]. rewrite Hp, orb_false_r.
      destruct (starts_with old (c :: p)) eqn:E; [|done].
      destruct (join_head old p ps) as [t Ht].
      rewrite Hj, Ht in Hs.
      change (c :: p ++ t) with ((c :: p) ++ t) in Hs.
      by rewrite (starts_with_app old (c :: p) t E) in Hs.
Qed.

(** X9. When the text [## References] occurs in the document, the document
    is a sequence of pieces without that text, separated by its occurrences
    (at least two pieces); the result is the same pieces with the figures
    section put before every one of these occurrences. No other text is
    changed. *)
Theorem insert_figure_descriptions_every_occurrence (markdown : str)
    (descriptions : dict) (figure_paths : list Path) :
  contains REFERENCES markdown = true →
  ∃ pieces : list str,
    2 ≤ length pieces
    ∧ Forall (λ p, contains REFERENCES p = false) pieces
    ∧ markdown = join REFERENCES pieces
    ∧ _insert_figure_descriptions markdown descriptions figure_paths
      = join (figures_section descriptions figure_paths ++ REFERENCES) pieces.
Proof.
  intros Hc. unfold _insert_figure_descriptions. rewrite Hc.
  destruct (replace_from_pieces REFERENCES
              (figures_section descriptions figure_paths ++ REFERENCES)
              (length markdown) markdown)
    as (ps & Hne & Hj & Hr & Hno); [done..|].
  exists ps. split_and!; try done.
  destruct ps as [|p [|q ps]]; [done| |cbn; lia].
  apply Forall_cons in Hno as [Hp _]. cbn in Hj. congruence.
Qed.

(** ** [process_paper]: its outcomes and the files it leaves alone *)

Lemma triage_loop_candidates w title all_images order s acc q :
  q ∈ (foldl (triage_step w title all_images) (s, acc) order).2 →
  q ∈ acc ∨ q ∈ all_images.
Proof.
  revert s acc. induction order as [|i order IH]; intros s acc; [by left|].
  cbn [foldl]. intros Hq.
  destruct (triage_step w title all_images (s, acc) i) as [s1 acc1] eqn:E.
  apply IH in Hq as [Hq|Hq]; [|by right].
  unfold triage_step in E. cbn [fst snd] in E.
  destruct (all_images !! i) as [p|] eqn:Ep; [|injection E as <- <-; by left].
  assert (q ∈ acc ++ [p] → q ∈ acc ∨ q ∈ all_images) as Hadd.
  { intros [?|Hqp%list_elem_of_singleton]%elem_of_app; [by left|right].
    subst q. by eapply list_elem_of_lookup_2. }
  destruct (is_paper_figure w p title) as [[|]|e].
  - injection E as <- <-. by apply Hadd.
  - destruct (unlink _ p); injection E as <- <-; [by left|by apply Hadd].
  - injection E as <- <-. by apply Hadd.
Qed.

Lemma sort_by_index_perm all_images l sorted :
  sort_by_index all_images l = Ok sorted → sorted ≡ₚ l.
Proof.
  unfold sort_by_index.
  destruct (mapM _ l) as [keys|] eqn:E; [|done]. intros [= <-].
  rewrite insertion_sort_perm. apply length_mapM in E.
  by rewrite snd_zip by lia.
Qed.

Lemma sort_by_index_candidates all_images l :
  Forall (λ p, p ∈ all_images) l → is_ok (sort_by_index all_images l) = true.
Proof.
  intros H. unfold sort_by_index. by rewrite (mapM_index_of all_images l H).
Qed.

Lemma rename_loop_frame s i figure_paths finals x :
  x ∉ figure_paths →
  (∀ n p, p ∈ figure_paths → x ≠ numbered n p) →
  fs (rename_loop s i figure_paths finals).1 !! x = fs s !! x.
Proof.
  revert s i finals.
  induction figure_paths as [|p l IH]; intros s i finals Hx Hn; [done|].
  apply not_elem_of_cons in Hx as [Hxp Hxl].
  assert (∀ n q, q ∈ l → x ≠ numbered n q) as Hn'
    by (intros n q Hq; apply Hn; by right).
  cbn [rename_loop]. destruct (decide _); [|by apply IH].
  unfold rename. destruct (fs s !! p) as [c|] eqn:Ec; [|done].
  rewrite IH by done. cbn [fs].
  rewrite lookup_insert_ne by (symmetry; apply Hn; left).
  by apply lookup_delete_ne.
Qed.

Lemma triage_frame w title all_images order s x :
  x ∉ all_images →
  (∀ n p, p ∈ all_images → x ≠ numbered n p) →
  fs (triage w title all_images order s).1 !! x = fs s !! x.
Proof.
  intros Hx Hn. unfold triage, triage_loop.
  pose proof (triage_loop_general w title all_images order s []) as Hloop.
  cbn zeta in Hloop.
  pose proof (triage_loop_candidates w title all_images order s []) as Hcand.
  destruct (foldl _ _ order) as [s1 fp]. cbn [fst snd] in *.
  destruct Hloop as (_ & _ & _ & Hfs).
  assert (fs s1 !! x = fs s !! x) as Hs1 by (by destruct (Hfs x) as [|[? _]]).
  destruct (sort_by_index all_images fp) as [sorted|e] eqn:Es; [|done].
  assert (∀ q, q ∈ sorted → q ∈ all_images) as Hsub.
  { intros q Hq. rewrite (sort_by_index_perm _ _ _ Es) in Hq.
    by destruct (Hcand q Hq) as [?%elem_of_nil|]. }
  rewrite rename_loop_frame; [done| |].
  - intros Hq. by apply Hx, Hsub.
  - intros n p Hp. by apply Hn, Hsub.
Qed.

(** The outcomes of [process_paper]. *)
Lemma process_paper_cases w sch raw_text images title dir
    extract_figures describe_figures s s' r :
  process_paper w sch raw_text images title dir
                extract_figures describe_figures s = Some (s', r) →
  let all_images := if extract_figures then images else [] in
  let t := if negb (is_empty all_images)
           then triage w title all_images (filter_order sch) s
           else (s, Ok []) in
  ∃ text_future,
    clean_paper_text w (clean_order sch) raw_text (Some title)
    = Some text_future
    ∧ match t.2, text_future with
      | Err e, _ => s' = t.1 ∧ r = Err e
      | Ok _, Err e => s' = t.1 ∧ r = Err e
      | Ok figure_paths, Ok clean_text =>
          let descriptions :=
            if describe_figures && negb (is_empty figure_paths)
            then describe_loop w title figure_paths (desc_order sch)
            else [] in
          s' = write_text t.1 (path_join dir (lit "paper.md"))
                 (if negb (is_empty descriptions)
                  then _insert_figure_descriptions clean_text descriptions
                                                   figure_paths
                  else clean_text)
          ∧ r = Ok (Paper dir title figure_paths descriptions
                          (path_join dir (lit "paper.md")))
      end.
Proof.
  unfold process_paper. cbn zeta.
  destruct (clean_paper_text _ _ _ _) as [text_future|]; [|done].
  intros H. exists text_future. split; [done|].
  destruct (if negb _ then _ else _) as [s1 [fps|e]]; cbn [fst snd].
  - destruct text_future as [clean|e]; by injection H as <- <-.
  - by injection H as <- <-.
Qed.

(** X10. Whatever the outcome, [process_paper] leaves every file alone that
    is not a candidate image, not a name [figure_<n><ext>] beside a
    candidate, and not [paper.md]. *)
Theorem process_paper_frame (w : world) (sch : schedule) (raw_text : str)
    (images : list Path) (title : str) (dir : Path)
    (extract_figures describe_figures : bool) (s s' : pstate)
    (r : result paper) (x : Path) :
  process_paper w sch raw_text images title dir
                extract_figures describe_figures s = Some (s', r) →
  x ∉ images →
  (∀ n p, p ∈ images → x ≠ numbered n p) →
  x ≠ path_join dir (lit "paper.md") →
  fs s' !! x = fs s !! x.
Proof.
  intros Hrun Hx Hn Hmd.
  apply process_paper_cases in Hrun as (tf & _ & Hrun). cbn zeta in Hrun.
  set (all_images := if extract_figures then images else []) in *.
  assert (x ∉ all_images) as Hx'.
  { subst all_images. destruct extract_figures; [done|apply not_elem_of_nil]. }
  assert (∀ n p, p ∈ all_images → x ≠ numbered n p) as Hn'.
  { subst all_images. destruct extract_figures; [done|].
    by intros n p ?%elem_of_nil. }
  assert (fs (if negb (is_empty all_images)
              then triage w title all_images (filter_order sch) s
              else (s, Ok [])).1 !! x = fs s !! x) as Ht.
  { destruct (negb _); [by apply triage_frame|done]. }
  destruct (if negb _ then _ else _) as [s1 [fps|e]]; cbn [fst snd] in *.
  - destruct tf as [clean|e].
    + destruct Hrun as [-> _]. cbn [write_text fs].
      by rewrite lookup_insert_ne.
    + by destruct Hrun as [-> _].
  - by destruct Hrun as [-> _].
Qed.

(** X11. When [process_paper] returns a result, the cleaning has returned a
    text; [paper.md], in the folder of the paper, holds that text (with the
    figures section, when there are descriptions); it is the only file
    written, and it is written after the last operation on the images. *)
Theorem process_paper_writes_document_last (w : world) (sch : schedule)
    (raw_text : str) (images : list Path) (title : str) (dir : Path)
    (extract_figures describe_figures : bool) (s s' : pstate) (p : paper) :
  process_paper w sch raw_text images title dir
                extract_figures describe_figures s = Some (s', Ok p) →
  ∃ clean_text evs,
    clean_paper_text w (clean_order sch) raw_text (Some title)
    = Some (Ok clean_text)
    ∧ paper_dir p = dir
    ∧ markdown_path p = path_join dir (lit "paper.md")
    ∧ fs s' !! markdown_path p
      = Some (if is_empty (figure_descriptions p) then clean_text
              else _insert_figure_descriptions
                     clean_text (figure_descriptions p) (figures p))
    ∧ log s' = log s ++ evs ++ [EvWrite (markdown_path p)]
    ∧ Forall (λ ev, ∀ q, ev ≠ EvWrite q) evs.
Proof.
  intros Hrun.
  apply process_paper_cases in Hrun as (tf & Hclean & Hrun). cbn zeta in Hrun.
  set (all_images := if extract_figures then images else []) in *.
  assert (∃ evs,
            log (if negb (is_empty all_images)
                 then triage w title all_images (filter_order sch) s
                 else (s, Ok [])).1 = log s ++ evs
            ∧ Forall (λ ev, ∀ q, ev ≠ EvWrite q) evs) as (evs & Hlog & Hevs).
  { destruct (negb _); [apply triage_no_write|].
    exists []. by rewrite app_nil_r. }
  destruct (if negb _ then _ else _) as [s1 [fps|e]]; cbn [fst snd] in *;
    [|by destruct Hrun].
  destruct tf as [clean|e]; [|by destruct Hrun].
  destruct Hrun as [-> [= ->]]. exists clean, evs. cbn [paper_dir markdown_path
    figure_descriptions figures write_text fs log].
  split_and!; [done..| | |done].
  - rewrite lookup_insert_eq. f_equal.
    by destruct (if describe_figures && _ then _ else _).
  - by rewrite Hlog, <- app_assoc.
Qed.

(** X12. Without descriptions (the option off, or no figure kept)
    [paper.md] is exactly the cleaned text, even when figures were kept and
    renumbered. Without extraction, no figure is returned and the only change
    to the files is the write of [paper.md]. *)
Theorem process_paper_plain_document (w : world) (sch : schedule)
    (raw_text : str) (images : list Path) (title : str) (dir : Path)
    (extract_figures describe_figures : bool) (s s' : pstate) (p : paper) :
  process_paper w sch raw_text images title dir
                extract_figures describe_figures s = Some (s', Ok p) →
  ∃ clean_text,
    clean_paper_text w (clean_order sch) raw_text (Some title)
    = Some (Ok clean_text)
    ∧ (describe_figures = false ∨ figures p = [] →
       figure_descriptions p = []
       ∧ fs s' !! markdown_path p = Some clean_text)
    ∧ (extract_figures = false ∨ images = [] →
       figures p = []
       ∧ fs s' = <[markdown_path p := clean_text]> (fs s)
       ∧ log s' = log s ++ [EvWrite (markdown_path p)]).
Proof.
  intros Hrun.
  apply process_paper_cases in Hrun as (tf & Hclean & Hrun). cbn zeta in Hrun.
  set (all_images := if extract_figures then images else []) in *.
  destruct (if negb (is_empty all_images) then _ else _)
    as [s1 [fps|e]] eqn:Et; cbn [fst snd] in *; [|by destruct Hrun].
  destruct tf as [clean|e]; [|by destruct Hrun].
  destruct Hrun as [-> [= ->]]. exists clean.
  cbn [markdown_path figure_descriptions figures write_text fs log].
  split_and!; [done| |].
  - intros Hno.
    assert ((if describe_figures && negb (is_empty fps)
             then describe_loop w title fps (desc_order sch) else []) = [])
      as ->.
    { destruct Hno as [->| ->]; [done|]. by rewrite andb_false_r. }
    cbn [is_empty negb]. by rewrite lookup_insert_eq.
  - intros Hno.
    assert (all_images = []) as Hall.
    { subst all_images. by destruct Hno as [->| ->]; [|destruct extract_figures]. }
    rewrite Hall in Et. cbn in Et. injection Et as <- <-.
    by rewrite andb_false_r.
Qed.

(** The events of the triage: results consumed, artifacts deleted, survivors
    renamed. *)
Lemma triage_events w title all_images order s :
  ∃ evs, log (triage w title all_images order s).1 = log s ++ evs
         ∧ Forall (λ e, classification_event w title all_images e
                        ∨ ∃ src dst, e = EvRename src dst) evs.
Proof.
  unfold triage, triage_loop.
  pose proof (triage_loop_general w title all_images order s []) as Hloop.
  cbn zeta in Hloop.
  destruct (foldl _ _ order) as [s1 fp]. cbn [fst snd] in Hloop.
  destruct Hloop as (_ & (ev1 & Hl1 & Hev1) & _).
  assert (Forall (λ e, classification_event w title all_images e
                       ∨ ∃ src dst, e = EvRename src dst) ev1) as Hev1'.
  { eapply Forall_impl; [exact Hev1|]. by left. }
  destruct (sort_by_index all_images fp) as [sorted|e]; cbn [fst].
  - destruct (rename_loop_log s1 1 sorted []) as (ev2 & -> & Hev2).
    exists (ev1 ++ ev2). rewrite Hl1, <-app_assoc. split; [done|].
    apply Forall_app. split; [done|].
    eapply Forall_impl; [exact Hev2|]. by right.
  - by exists ev1.
Qed.

(** X5. Without an API key (unset or empty) every call that needs the client
    raises the [ValueError] of [get_client]: [clean_paper_text], for every
    text and every schedule, [is_paper_figure] and [describe_figure]. So
    [process_paper] raises, that error or the error of the triage, and writes
    no file; no image is deleted, since a classification that raises keeps
    its candidate, but the candidates may have been renamed by then. *)
Theorem missing_api_key_aborts (w : world) (sch : schedule) (raw_text : str)
    (images : list Path) (title : str) (dir : Path)
    (extract_figures describe_figures : bool) (s : pstate) :
  api_key w = None ∨ api_key w = Some [] →
  let e :=
    ValueError
      (lit "ANTHROPIC_API_KEY not set. Either:" ++ [NL]
       ++ lit "  1. Set environment variable: export ANTHROPIC_API_KEY=sk-..."
       ++ [NL]
       ++ lit "  2. Create .env file with: ANTHROPIC_API_KEY=sk-...") in
  let all_images := if extract_figures then images else [] in
  (∀ order text title', clean_paper_text w order text title' = Some (Err e))
  ∧ (∀ image_path context, is_paper_figure w image_path context = Err e)
  ∧ (∀ image_path i context, describe_figure w image_path i context = Err e)
  ∧ ∃ s' e' evs,
      process_paper w sch raw_text images title dir
                    extract_figures describe_figures s = Some (s', Err e')
      ∧ (e' = e ∨ (triage w title all_images (filter_order sch) s).2 = Err e')
      ∧ log s' = log s ++ evs
      ∧ Forall (λ ev, (∃ i, ev = EvClassified i)
                      ∨ ∃ src dst, ev = EvRename src dst) evs.
Proof.
  intros Hkey e all_images.
  assert (get_client w = Err e) as Hclient.
  { unfold get_client. by destruct Hkey as [-> | ->]. }
  assert (∀ order text title',
            clean_paper_text w order text title' = Some (Err e)) as Hclean.
  { intros. unfold clean_paper_text. by rewrite Hclient. }
  assert (∀ image_path context, is_paper_figure w image_path context = Err e)
    as Hfig.
  { intros. unfold is_paper_figure. by rewrite Hclient. }
  split_and!; [done|done| |].
  { intros. unfold describe_figure. by rewrite Hclient. }
  unfold process_paper. rewrite Hclean. fold all_images.
  destruct (negb (is_empty all_images)).
  - destruct (triage_events w title all_images (filter_order sch) s)
      as (evs & Hlog & Hevs).
    assert (Forall (λ ev, (∃ i, ev = EvClassified i)
                          ∨ ∃ src dst, ev = EvRename src dst) evs) as Hevs'.
    { eapply Forall_impl; [exact Hevs|].
      intros ev [[?|(q & _ & _ & Hq)]|?]; [by left| |by right].
      by rewrite Hfig in Hq. }
    destruct (triage _ _ _ _ s) as [s1 [fp|e1]]; cbn [fst snd] in *.
    + exists s1, e, evs. split_and!; [done|by left|done|done].
    + exists s1, e1, evs. split_and!; [done|by right|done|done].
  - exists s, e, []. rewrite app_nil_r. split_and!; [done|by left|done|done].
Qed.

(** ** The triage of a missing file; idempotence of the numbering *)





Lemma rfind_dot_app a b :
  rfind_dot (a ++ b)
  = match rfind_dot b with
    | Some j => Some (length a + j)
    | None => rfind_dot a
    end.
Proof.
  induction a as [|c a IH]; cbn [app rfind_dot length].
  - by destruct (rfind_dot b).
  - rewrite IH. by destruct (rfind_dot b).
Qed.

Lemma rfind_dot_None s : Forall (λ c, c ≠ 46%N) s → rfind_dot s = None.
Proof.
  induction 1 as [|c s Hc _ IH]; [done|]. cbn. rewrite IH.
  by apply N.eqb_neq in Hc as ->.
Qed.

Lemma rfind_dot_drop s j :
  rfind_dot s = Some j → ∃ t, drop j s = 46%N :: t ∧ rfind_dot t = None.
Proof.
  revert j. induction s as [|c s IH]; intros j; [done|]. cbn [rfind_dot].
  destruct (rfind_dot s) as [i|] eqn:E.
  - intros [= <-]. cbn [drop]. by apply IH.
  - destruct (c =? 46)%N eqn:Ec; [|done]. intros [= <-].
    apply N.eqb_eq in Ec as ->. by exists s.
Qed.

Lemma suffix_cases p :
  suffix p = []
  ∨ ∃ t, suffix p = 46%N :: t ∧ t ≠ [] ∧ rfind_dot t = None.
Proof.
  unfold suffix. destruct (rfind_dot (name p)) as [j|] eqn:E; [|by left].
  destruct (_ && _) eqn:Et; [|by left]. right.
  apply andb_true_iff in Et as [_ Hlt%Nat.ltb_lt].
  destruct (rfind_dot_drop _ _ E) as (t & Ht & Hnone).
  exists t. split_and!; [done| |done].
  apply (f_equal length) in Ht. rewrite length_drop in Ht.
  destruct t; [cbn in Ht; lia|done].
Qed.

Lemma figure_prefix_no_dot i :
  rfind_dot (lit "figure_" ++ str_of_nat i) = None.
Proof.
  apply rfind_dot_None, Forall_app. split.
  - by repeat constructor.
  - eapply Forall_impl; [apply str_of_nat_digits|].
    unfold is_digit. intros c Hc. lia.
Qed.

Lemma suffix_numbered i p : suffix (numbered i p) = suffix p.
Proof.
  unfold suffix at 1, numbered. cbn [name].
  destruct (suffix_cases p) as [->|(t & -> & Ht & Hnone)].
  - by rewrite app_nil_r, figure_prefix_no_dot.
  - rewrite (app_assoc (lit "figure_")).
    assert (0 < length (lit "figure_" ++ str_of_nat i)) as Hpre
      by (rewrite length_app; cbn; lia).
    set (pre := lit "figure_" ++ str_of_nat i) in *.
    rewrite rfind_dot_app. cbn [rfind_dot]. rewrite Hnone.
    cbn [N.eqb Pos.eqb]. rewrite Nat.add_0_r, drop_app_length.
    replace (_ && _) with true; [done|]. symmetry.
    apply andb_true_iff. split; apply Nat.ltb_lt; [done|].
    rewrite length_app. destruct t; [done|]. cbn. lia.
Qed.

Lemma numbered_numbered j k p : numbered j (numbered k p) = numbered j p.
Proof. unfold numbered at 1 3. by rewrite suffix_numbered. Qed.

(** X14. Numbering keeps the folder and the extension of a file, and the
    numbered name depends on them only; so a file that has its numbered name
    already is not renamed: the numbering loop run on its own result does
    nothing, and needs no file to exist. *)
Theorem numbering_idempotent (s : pstate) (i : nat) (l finals : list Path) :
  (∀ j p, suffix (numbered j p) = suffix p
          ∧ parent (numbered j p) = parent p)
  ∧ (∀ j k p, numbered j (numbered k p) = numbered j p)
  ∧ rename_loop s i (imap (λ k p, numbered (i + k) p) l) finals
    = (s, Ok (finals ++ imap (λ k p, numbered (i + k) p) l)).
Proof.
  split_and!.
  - intros j p. split; [apply suffix_numbered|done].
  - apply numbered_numbered.
  - revert i finals. induction l as [|p l IH]; intros i finals.
    + by rewrite app_nil_r.
    + cbn [imap rename_loop]. rewrite Nat.add_0_r, numbered_numbered.
      rewrite decide_False by (by intros ?).
      rewrite (imap_ext _ (λ k q, numbered (S i + k) q))
        by (intros; cbn; f_equal; lia).
      rewrite IH. by rewrite <- app_assoc.
Qed.

(** ** The narration script *)

(** *** [strip] *)

Lemma lstrip_decompose s :
  ∃ a, s = a ++ lstrip s ∧ Forall (λ c, isspace c = true) a.
Proof.
  induction s as [|c s (a & Hs & Ha)]; [by exists []|].
  cbn [lstrip]. destruct (isspace c) eqn:Ec.
  - exists (c :: a). split; [by rewrite Hs at 1|by constructor].
  - by exists [].
Qed.

Lemma lstrip_nonspace c s : isspace c = false → lstrip (c :: s) = c :: s.
Proof. intros H. cbn. by rewrite H. Qed.

Lemma lstrip_head s : lstrip s = [] ∨ ∃ c t, lstrip s = c :: t ∧ isspace c = false.
Proof.
  induction s as [|c s IH]; [by left|]. cbn.
  destruct (isspace c) eqn:Ec; [done|]. right. by exists c, s.
Qed.

Lemma lstrip_idemp s : lstrip (lstrip s) = lstrip s.
Proof.
  destruct (lstrip_head s) as [->|(c & t & -> & Hc)]; [done|].
  by apply lstrip_nonspace.
Qed.

Lemma lstrip_fixed c s : lstrip (c :: s) = c :: s → isspace c = false.
Proof.
  cbn. destruct (isspace c); [|done]. intros H.
  destruct (lstrip_decompose s) as (a & Hs & _).
  apply (f_equal length) in H, Hs. rewrite length_app in Hs. cbn in H. lia.
Qed.

(** [strip] removes a prefix and a suffix of whitespace. *)
Lemma strip_decompose s :
  ∃ a b, s = a ++ strip s ++ b
         ∧ Forall (λ c, isspace c = true) a
         ∧ Forall (λ c, isspace c = true) b.
Proof.
  unfold strip, rstrip.
  destruct (lstrip_decompose s) as (a & Hs & Ha).
  destruct (lstrip_decompose (rev (lstrip s))) as (b & Hr & Hb).
  exists a, (rev b). split_and!; [|done|].
  - rewrite <- rev_app_distr, <- Hr, rev_involutive. done.
  - by apply List.Forall_rev.
Qed.

Lemma strip_trimmed s : trimmed (strip s).
Proof.
  unfold trimmed, strip, rstrip. rewrite rev_involutive, lstrip_idemp.
  split; [|done].
  destruct (lstrip_decompose (rev (lstrip s))) as (b & Hr & _).
  apply (f_equal (@rev N)) in Hr. rewrite rev_involutive, rev_app_distr in Hr.
  destruct (rev (lstrip (rev (lstrip s)))) as [|c v]; [done|].
  destruct (lstrip_head s) as [E|(c' & t & E & Hc)]; rewrite E in Hr.
  - done.
  - injection Hr as <- _. by apply lstrip_nonspace.
Qed.

Lemma trimmed_strip s : trimmed s → strip s = s.
Proof.
  intros [Hl Hr]. unfold strip, rstrip. by rewrite Hl, Hr, rev_involutive.
Qed.

Lemma trimmed_last s : trimmed s → last s ≠ Some NL.
Proof.
  intros [_ Hr]. rewrite <- (rev_involutive s).
  destruct (rev s) as [|c t]; [done|].
  apply lstrip_fixed in Hr. cbn [rev]. rewrite last_snoc.
  intros [= ->]. done.
Qed.

(** *** Blank lines *)

Lemma find_nn_None s : find_nn s = None ↔ nn_free s.
Proof.
  unfold nn_free. induction s as [|c|c c' s _ IH] using str_ind2.
  - done.
  - split; [|done]. by intros _ [|[|i]].
  - rewrite find_nn_cons2.
    destruct ((c =? NL)%N && (c' =? NL)%N) eqn:E.
    + apply andb_true_iff in E as [->%N.eqb_eq ->%N.eqb_eq].
      split; [done|]. intros H. by destruct (H 0).
    + destruct (find_nn (c' :: s)) as [[p r]|] eqn:Ef.
      * split; [done|]. intros H. exfalso.
        assert (Some (p, r) = None) as Hcontra; [|done].
        apply IH. intros i. apply (H (S i)).
      * split; [|done]. intros _ [|i].
        -- cbn. intros [= ->] [= ->]. done.
        -- apply (proj1 IH eq_refl i).
Qed.

Lemma nn_free_middle a m b : nn_free (a ++ m ++ b) → nn_free m.
Proof.
  intros H i Hi Hi'.
  pose proof (lookup_lt_Some _ _ _ Hi').
  apply (H (length a + i)).
  - rewrite lookup_app_r, lookup_app_l by lia.
    by replace (length a + i - length a) with i by lia.
  - replace (S (length a + i)) with (length a + S i) by lia.
    rewrite lookup_app_r, lookup_app_l by lia.
    by replace (length a + S i - length a) with (S i) by lia.
Qed.

Lemma split_nn_pieces_nn_free s : Forall nn_free (split_nn s).
Proof.
  induction s as [|c|c c' s IH1 IH2] using str_ind2.
  - constructor; [|done]. by intros [|i].
  - constructor; [|done]. by intros [|[|i]].
  - rewrite split_nn_cons2.
    destruct ((c =? NL)%N && (c' =? NL)%N) eqn:E.
    + constructor; [by intros [|i]|done].
    + destruct (split_nn (c' :: s)) as [|p ps] eqn:Es;
        [by destruct (split_nn_nonempty (c' :: s))|].
      apply Forall_cons in IH2 as [Hp Hps]. cbn [cons_hd].
      constructor; [|done]. intros [|i].
      * cbn. intros [= ->] Hp0.
        (* the head of [p] is [c'], or the separator follows *)
        destruct p as [|c0 p]; [done|]. injection Hp0 as ->.
        assert (c' = NL) as ->; [|done].
        pose proof (join_split_nn (c' :: s)) as Hj. rewrite Es in Hj.
        destruct (join_head nn (NL :: p) ps) as [t Ht]. rewrite Ht in Hj.
        by injection Hj.
      * apply (Hp i).
Qed.

Lemma split_nn_app_nn p rest :
  nn_free p → last p ≠ Some NL →
  split_nn (p ++ nn ++ rest) = p :: split_nn rest.
Proof.
  induction p as [|c|c c' p _ IH] using str_ind2; intros Hfree Hlast.
  - done.
  - cbn [app]. unfold nn at 1. cbn [app]. rewrite split_nn_cons2.
    destruct (c =? NL)%N eqn:Ec; [by apply N.eqb_eq in Ec as ->|].
    cbn [andb]. by rewrite split_nn_cons2.
  - cbn [app]. rewrite split_nn_cons2.
    destruct ((c =? NL)%N && (c' =? NL)%N) eqn:E.
    { apply andb_true_iff in E as [->%N.eqb_eq ->%N.eqb_eq].
      by destruct (Hfree 0). }
    change (c' :: p ++ nn ++ rest) with ((c' :: p) ++ nn ++ rest).
    rewrite IH; [done| |done].
    intros i. apply (Hfree (S i)).
Qed.

Lemma split_nn_join paras :
  paras ≠ [] →
  Forall (λ p, nn_free p ∧ last p ≠ Some NL) paras →
  split_nn (join nn paras) = paras.
Proof.
  induction paras as [|p paras IH]; [done|]. intros _ Hall.
  apply Forall_cons in Hall as [[Hfree Hlast] Hall].
  destruct paras as [|q paras].
  - cbn [join]. apply find_nn_None in Hfree.
    pose proof (find_nn_split p) as H. by rewrite Hfree in H.
  - rewrite join_cons by done. rewrite split_nn_app_nn by done.
    by rewrite IH.
Qed.

(** What is submitted: stripped, not empty, without a blank line. *)
Lemma stripped_nonempty_clean pieces :
  Forall nn_free pieces →
  Forall (λ p, p ≠ [] ∧ trimmed p ∧ nn_free p) (stripped_nonempty pieces).
Proof.
  unfold stripped_nonempty. induction 1 as [|q pieces Hq _ IH]; [constructor|].
  rewrite filter_cons. destruct (decide (strip q ≠ [])) as [Hne|_]; [|done].
  rewrite fmap_cons. constructor; [|done].
  split_and!; [done|apply strip_trimmed|].
  destruct (strip_decompose q) as (a & b & Hd & _). rewrite Hd in Hq.
  by apply nn_free_middle in Hq.
Qed.

Lemma script_paragraphs_join paras :
  paras ≠ [] →
  Forall (λ p, p ≠ [] ∧ trimmed p ∧ nn_free p) paras →
  script_paragraphs (join nn paras) = paras.
Proof.
  intros Hne Hall. unfold script_paragraphs.
  rewrite split_nn_join; [|done|].
  2:{ eapply Forall_impl; [exact Hall|].
      intros p (_ & Ht & Hf). split; [done|by apply trimmed_last]. }
  assert (strip <$> filter (λ p, strip p ≠ []) paras = paras) as ->.
  { clear Hne. induction Hall as [|p paras (Hp & Ht & _) _ IH]; [done|].
    rewrite filter_cons, (trimmed_strip p Ht). rewrite decide_True by done.
    by rewrite fmap_cons, (trimmed_strip p Ht), IH. }
  by destruct paras.
Qed.

Lemma synthesize_all_collect pipeline voice paragraphs acc :
  synthesize_all pipeline voice paragraphs acc
  = collect_audio ((λ text, _synthesize_segment pipeline text voice)
                     <$> paragraphs) acc.
Proof.
  revert acc. induction paragraphs as [|para rest IH]; intros acc; [done|].
  cbn [synthesize_all fmap list_fmap collect_audio].
  destruct (_synthesize_segment pipeline para voice); [apply IH|done].
Qed.

(** X19. Every paragraph submitted for synthesis by [create_podcast] is not
    empty, has no whitespace at its ends and no blank line inside; the counter
    [para_idx] is the number of paragraphs, and there is one future for each
    of them. *)
Theorem stream_submits_clean_paragraphs (pipeline : engine) (voice : str)
    (deltas : list str) :
  let st := stream_script pipeline voice deltas in
  Forall (λ p, p ≠ [] ∧ strip p = p ∧ find_nn p = None) (script_parts st)
  ∧ para_idx st = length (script_parts st)
  ∧ length (tts_futures st) = length (script_parts st).
Proof.
  cbn zeta.
  destruct (stream_script_paragraphs pipeline voice deltas) as [Hp Hf].
  split_and!.
  - rewrite Hp.
    eapply Forall_impl;
      [apply stripped_nonempty_clean, split_nn_pieces_nn_free|].
    intros p (Hne & Ht & Hfree). split_and!; [done|by apply trimmed_strip|].
    by apply find_nn_None.
  - rewrite stream_script_spec.
    generalize (split_nn (concat deltas)). intros pieces.
    assert (para_idx (StreamState [] [] 0)
            = length (script_parts (StreamState [] [] 0))) as H0 by done.
    revert H0. generalize (StreamState [] [] 0).
    induction pieces as [|q pieces IH]; intros st H0; [done|].
    apply IH. unfold submit_nonempty. destruct (is_empty _); [done|].
    cbn. rewrite length_app. cbn. lia.
  - by rewrite Hf, Hp, length_fmap.
Qed.

Lemma script_paragraphs_of_script (pipeline : engine) (voice : str)
    (deltas : list str) :
  script_parts (stream_script pipeline voice deltas) ≠ [] →
  script_paragraphs (script (create_podcast pipeline deltas voice))
  = script_parts (stream_script pipeline voice deltas).
Proof.
  intros Hne. cbn [create_podcast script].
  apply script_paragraphs_join; [done|].
  rewrite (proj1 (stream_script_paragraphs pipeline voice deltas)).
  apply stripped_nonempty_clean, split_nn_pieces_nn_free.
Qed.

(** X21. Streaming and batch narration agree: for a script with at least
    one paragraph, [generate_audio] on the whole text of the stream, or on the
    saved script, gives the samples (or the error) of [create_podcast],
    however the stream was cut into deltas. *)
Theorem generate_audio_agrees_with_stream (pipeline : engine) (voice : str)
    (deltas : list str) :
  script_parts (stream_script pipeline voice deltas) ≠ [] →
  generate_audio pipeline (concat deltas) voice
  = combined (create_podcast pipeline deltas voice)
  ∧ generate_audio pipeline (script (create_podcast pipeline deltas voice))
                   voice
    = combined (create_podcast pipeline deltas voice).
Proof.
  intros Hne.
  assert (∀ text,
            script_paragraphs text
            = script_parts (stream_script pipeline voice deltas) →
            generate_audio pipeline text voice
            = combined (create_podcast pipeline deltas voice)) as Hagree.
  { intros text Hp. unfold generate_audio. cbn [create_podcast combined].
    rewrite synthesize_all_collect, Hp.
    destruct (stream_script_paragraphs pipeline voice deltas) as [Hs ->].
    by rewrite Hs. }
  split; apply Hagree.
  - destruct (stream_script_paragraphs pipeline voice deltas) as [Hs _].
    rewrite Hs in Hne |- *. unfold script_paragraphs, stripped_nonempty in *.
    by destruct (strip <$> filter _ _).
  - by apply script_paragraphs_of_script.
Qed.

(** X20. The saved script reads back: splitting the text written to
    [script.txt] as [generate_audio] does gives exactly the paragraphs that
    were submitted, when there is at least one. *)
Theorem script_round_trip (pipeline : engine) (voice : str)
    (deltas : list str) :
  script_parts (stream_script pipeline voice deltas) ≠ [] →
  script_paragraphs (script (create_podcast pipeline deltas voice))
  = script_parts (stream_script pipeline voice deltas).
Proof. apply script_paragraphs_of_script. Qed.

Lemma collect_audio_first_error futures acc j e :
  futures !! j = Some (Err e) →
  (∀ k r, k < j → futures !! k = Some r → is_ok r = true) →
  collect_audio futures acc = Err e.
Proof.
  revert acc j. induction futures as [|r futures IH]; intros acc j; [done|].
  destruct j as [|j]; cbn [lookup list_lookup].
  - by intros [= ->] _.
  - intros Hj Hbefore. pose proof (Hbefore 0 r (Nat.lt_0_succ j) eq_refl) as Hr.
    destruct r as [seg|e']; [|done]. cbn [collect_audio].
    apply (IH _ j); [done|]. intros k r Hk. apply (Hbefore (S k)). lia.
Qed.

(** X22. When the synthesis of a paragraph raises and that of no earlier
    paragraph does, [create_podcast] and [generate_audio] raise that error and
    give no audio. The script does not depend on the engine or the voice: it
    is the same as in a run without failure. *)
Theorem narration_failure (pipeline : engine) (voice : str)
    (deltas : list str) (j : nat) (para : str) (e : exn) :
  let paragraphs := script_parts (stream_script pipeline voice deltas) in
  paragraphs !! j = Some para →
  _synthesize_segment pipeline para voice = Err e →
  (∀ k q, k < j → paragraphs !! k = Some q →
          is_ok (_synthesize_segment pipeline q voice) = true) →
  combined (create_podcast pipeline deltas voice) = Err e
  ∧ generate_audio pipeline (concat deltas) voice = Err e
  ∧ ∀ pipeline' voice',
      script (create_podcast pipeline' deltas voice')
      = script (create_podcast pipeline deltas voice).
Proof.
  cbn zeta. intros Hj He Hbefore.
  destruct (stream_script_paragraphs pipeline voice deltas) as [Hs Hf].
  assert (collect_audio (tts_futures (stream_script pipeline voice deltas)) []
          = Err e) as Hc.
  { apply (collect_audio_first_error _ _ j).
    - by rewrite Hf, <- Hs, list_lookup_fmap, Hj; cbn; rewrite He.
    - intros k r Hk. rewrite Hf, <- Hs, list_lookup_fmap.
      destruct (script_parts _ !! k) as [q|] eqn:Eq; [|done].
      intros [= <-]. by apply (Hbefore k). }
  split_and!.
  - cbn [create_podcast combined]. by rewrite Hc.
  - unfold generate_audio. rewrite synthesize_all_collect.
    assert (script_paragraphs (concat deltas)
            = script_parts (stream_script pipeline voice deltas)) as ->.
    { rewrite Hs in Hj |- *. unfold script_paragraphs, stripped_nonempty in *.
      by destruct (strip <$> filter _ _). }
    rewrite <- Hs in Hf. by rewrite <- Hf, Hc.
  - intros pipeline' voice'. cbn [create_podcast script].
    by rewrite (proj1 (stream_script_paragraphs pipeline' voice' deltas)), Hs.
Qed.

(** ** Slugs and file names *)

Example slugify_demo :
  slugify demo_unicode (lit "  Coastal change: ICESat-2 & DEMs (2020) ")
          MAX_LENGTH
  = lit "coastal_change_icesat-2_dems_2020".
Proof. vm_compute. reflexivity. Qed.

Lemma isspace_not_name c :
  isspace c = true →
  ¬ (97 ≤ c ≤ 122 ∨ 65 ≤ c ≤ 90 ∨ 48 ≤ c ≤ 57 ∨ c = 95 ∨ c = 45)%N.
Proof.
  unfold isspace. rewrite !orb_true_iff, !andb_true_iff, !N.leb_le, !N.eqb_eq.
  lia.
Qed.

Lemma is_word_name u c :
  is_word u c || (c =? 45)%N = true → isspace c = false ∨ c = 95%N →
  name_char c.
Proof.
  unfold is_word, isalnum, name_char.
  destruct (c <? 128)%N eqn:E.
  - rewrite !orb_true_iff, !andb_true_iff, !N.leb_le, !N.eqb_eq. lia.
  - apply N.ltb_ge in E. lia.
Qed.

Lemma underscore_runs_chars in_run s c :
  c ∈ underscore_runs in_run s → c = 95%N ∨ (c ∈ s ∧ isspace c = false).
Proof.
  revert in_run. induction s as [|d s IH]; intros in_run; cbn.
  - by intros ?%elem_of_nil.
  - destruct (isspace d) eqn:Ed.
    + destruct in_run.
      * intros [?|[? ?]]%IH; [by left|right]. split; [by right|done].
      * intros [->|[?|[? ?]]%IH]%elem_of_cons; [by left..|right].
        split; [by right|done].
    + intros [->|[?|[? ?]]%IH]%elem_of_cons; [right|by left|right].
      * split; [left|done].
      * split; [by right|done].
Qed.

Lemma core_chars u title c :
  c ∈ underscore_runs false (remove_unsafe u title) → name_char c ∧ isspace c = false.
Proof.
  intros [->|[Hc Hs]]%underscore_runs_chars.
  - split; [|done]. unfold name_char. lia.
  - split; [|done]. unfold remove_unsafe in Hc.
    apply list_elem_of_In, List.filter_In in Hc as [_ Hc].
    apply (is_word_name u); [|by left].
    rewrite Hs, orb_false_r in Hc. done.
Qed.

Lemma slice_to_sublist n s : sublist (slice_to n s) s.
Proof. unfold slice_to. destruct (0 <=? n)%Z; apply sublist_take. Qed.

Lemma slice_to_length n s : (0 ≤ n)%Z → (Z.of_nat (length (slice_to n s)) ≤ n)%Z.
Proof.
  intros Hn. unfold slice_to. rewrite (proj2 (Z.leb_le 0 n) Hn).
  rewrite length_take. lia.
Qed.

Lemma lstrip_chars_decompose chars s :
  ∃ a, s = a ++ lstrip_chars chars s.
Proof.
  induction s as [|c s [a Hs]]; [by exists []|].
  cbn. destruct (bool_decide (c ∈ chars)).
  - exists (c :: a). by rewrite Hs at 1.
  - by exists [].
Qed.

Lemma lstrip_chars_head chars s :
  match lstrip_chars chars s with
  | [] => True
  | c :: _ => c ∉ chars
  end.
Proof.
  induction s as [|c s IH]; [done|]. cbn.
  destruct (bool_decide (c ∈ chars)) eqn:E; [done|].
  by apply bool_decide_eq_false in E.
Qed.

Lemma lstrip_chars_id chars s :
  match s with [] => True | c :: _ => c ∉ chars end →
  lstrip_chars chars s = s.
Proof.
  destruct s as [|c s]; [done|]. intros H. cbn.
  by rewrite bool_decide_eq_false_2.
Qed.

Lemma strip_chars_sublist chars s : sublist (strip_chars chars s) s.
Proof.
  unfold strip_chars.
  destruct (lstrip_chars_decompose chars s) as [a Ha].
  destruct (lstrip_chars_decompose chars (rev (lstrip_chars chars s)))
    as [b Hb].
  apply (f_equal (@rev N)) in Hb. rewrite rev_involutive, rev_app_distr in Hb.
  rewrite Ha at 2. rewrite Hb at 2.
  apply sublist_inserts_l, sublist_inserts_r. done.
Qed.

(** Neither end of [s.strip(chars)] is in [chars]. *)
Lemma strip_chars_ends chars s :
  (∀ c, head (strip_chars chars s) = Some c → c ∉ chars)
  ∧ (∀ c, last (strip_chars chars s) = Some c → c ∉ chars).
Proof.
  unfold strip_chars.
  pose proof (lstrip_chars_head chars s) as H1.
  pose proof (lstrip_chars_head chars (rev (lstrip_chars chars s))) as H2.
  destruct (lstrip_chars_decompose chars (rev (lstrip_chars chars s)))
    as [b Hb].
  apply (f_equal (@rev N)) in Hb. rewrite rev_involutive, rev_app_distr in Hb.
  set (v := lstrip_chars chars (rev (lstrip_chars chars s))) in *.
  split; intros c Hc.
  - destruct (rev v) as [|d w] eqn:Ev; [done|]. injection Hc as ->.
    rewrite Hb in H1. done.
  - destruct v as [|d v']; [done|]. cbn [rev] in Hc.
    rewrite last_snoc in Hc. by injection Hc as ->.
Qed.

Lemma strip_chars_id chars s :
  (∀ c, head s = Some c → c ∉ chars) → (∀ c, last s = Some c → c ∉ chars) →
  strip_chars chars s = s.
Proof.
  intros Hh Hl. unfold strip_chars.
  rewrite (lstrip_chars_id chars s).
  2:{ destruct s; [done|]. by apply Hh. }
  rewrite lstrip_chars_id; [apply rev_involutive|].
  destruct (rev s) as [|d w] eqn:E; [done|]. apply Hl.
  apply (f_equal (@rev N)) in E. rewrite rev_involutive in E. rewrite E.
  cbn [rev]. apply last_snoc.
Qed.

Lemma Forall_sublist {A} (P : A → Prop) (l k : list A) :
  sublist l k → Forall P k → Forall P l.
Proof. intros Hs. induction Hs; inversion 1; subst; auto. Qed.

(** The slug before [lower()]. *)
Lemma slug_core u title max_length :
  let core := strip_chars (lit "_")
                (slice_to max_length
                   (underscore_runs false (remove_unsafe u title))) in
  Forall (λ c, name_char c ∧ isspace c = false) core
  ∧ ((0 ≤ max_length)%Z → (Z.of_nat (length core) ≤ max_length)%Z)
  ∧ head core ≠ Some 95%N
  ∧ last core ≠ Some 95%N.
Proof.
  cbn zeta. split_and!.
  - eapply Forall_sublist.
    + etrans; [apply strip_chars_sublist|apply slice_to_sublist].
    + apply Forall_forall. intros c. apply core_chars.
  - intros Hn. etrans; [|by apply (slice_to_length max_length)].
    apply inj_le, sublist_length, strip_chars_sublist.
  - intros H. apply (proj1 (strip_chars_ends _ _)) in H. apply H. by left.
  - intros H. apply (proj2 (strip_chars_ends _ _)) in H. apply H. by left.
Qed.

Lemma ascii_forallb s : is_ascii s → forallb (λ c, c <? 128)%N s = true.
Proof.
  induction 1 as [|c s Hc _ IH]; [done|]. cbn. rewrite IH, andb_true_r.
  by apply N.ltb_lt.
Qed.

Lemma lower_ascii u s :
  is_ascii s →
  lower u s = (λ c, if (65 <=? c) && (c <=? 90) then c + 32 else c)%N <$> s.
Proof. intros H. unfold lower. by rewrite ascii_forallb. Qed.

Lemma ascii_core u title max_length :
  is_ascii title →
  is_ascii (strip_chars (lit "_")
           (slice_to max_length
              (underscore_runs false (remove_unsafe u title)))).
Proof.
  intros Ht. eapply Forall_sublist.
  - etrans; [apply strip_chars_sublist|apply slice_to_sublist].
  - apply Forall_forall.
    intros c [->|[Hc _]]%underscore_runs_chars; [done|].
    unfold remove_unsafe in Hc.
    apply list_elem_of_In, List.filter_In in Hc as [Hc _].
    apply list_elem_of_In in Hc. unfold is_ascii in Ht. rewrite Forall_forall in Ht. by apply Ht.
Qed.

Lemma slugify_ascii (u : unicode) (title : str) (max_length : Z) :
  is_ascii title → (0 ≤ max_length)%Z →
  let slug := slugify u title max_length in
  Forall slug_char slug
  ∧ (Z.of_nat (length slug) ≤ max_length)%Z
  ∧ head slug ≠ Some 95%N
  ∧ last slug ≠ Some 95%N.
Proof.
  intros Ht Hn. cbn zeta. unfold slugify. cbn zeta.
  destruct (slug_core u title max_length) as (Hchars & Hlen & Hh & Hl).
  pose proof (ascii_core u title max_length Ht) as Ha.
  rewrite lower_ascii by done.
  set (core := strip_chars _ _) in *.
  set (f := (λ c, if (65 <=? c) && (c <=? 90) then c + 32 else c)%N).
  assert (∀ c, f c = 95%N → c = 95%N) as Hf.
  { intros c. unfold f.
    destruct ((65 <=? c)%N && (c <=? 90)%N) eqn:E; [|done].
    apply andb_true_iff in E as [?%N.leb_le ?%N.leb_le]. lia. }
  split_and!.
  - apply Forall_fmap. unfold is_ascii in Ha. rewrite Forall_forall in Hchars, Ha.
    apply Forall_forall. intros c Hc. destruct (Hchars c Hc) as [Hname _].
    specialize (Ha c Hc). cbv beta in Ha. unfold slug_char, name_char in *.
    unfold f, compose. cbv beta.
    destruct ((65 <=? c)%N && (c <=? 90)%N) eqn:E.
    + apply andb_true_iff in E as [?%N.leb_le ?%N.leb_le]. lia.
    + apply andb_false_iff in E as [?%N.leb_gt|?%N.leb_gt]; lia.
  - rewrite length_fmap. by apply Hlen.
  - destruct core as [|c core']; [done|]. cbn. intros [= H%Hf]. by subst c.
  - rewrite fmap_last. destruct (last core) as [c|] eqn:E; [|done].
    cbn. intros [= H%Hf]. by subst c.
Qed.

Lemma slug_char_facts u c :
  slug_char c →
  is_word u c || isspace c || (c =? 45)%N = true
  ∧ isspace c = false
  ∧ (c < 128)%N
  ∧ (65 <=? c)%N && (c <=? 90)%N = false.
Proof.
  unfold slug_char. intros Hc.
  assert (c < 128)%N as Hlt by lia.
  assert (isspace c = false) as Hs.
  { destruct (isspace c) eqn:E; [|done].
    apply isspace_not_name in E. lia. }
  split_and!; [|done..|].
  - unfold is_word, isalnum. rewrite (proj2 (N.ltb_lt _ _) Hlt), Hs.
    rewrite !orb_true_iff, !andb_true_iff, !N.leb_le, !N.eqb_eq. lia.
  - apply andb_false_iff. rewrite !N.leb_gt. lia.
Qed.

Lemma underscore_runs_id in_run s :
  Forall (λ c, isspace c = false) s → underscore_runs in_run s = s.
Proof.
  intros H. revert in_run. induction H as [|c s Hc _ IH]; intros in_run; [done|].
  cbn. by rewrite Hc, IH.
Qed.

Lemma filter_id {A} (f : A → bool) (l : list A) :
  Forall (λ x, f x = true) l → List.filter f l = l.
Proof. induction 1 as [|x l Hx _ IH]; [done|]. cbn. by rewrite Hx, IH. Qed.

(** A slug is left as it is. *)
Lemma slugify_slug u s max_length :
  Forall slug_char s → (Z.of_nat (length s) ≤ max_length)%Z →
  head s ≠ Some 95%N → last s ≠ Some 95%N →
  slugify u s max_length = s.
Proof.
  intros Hs Hlen Hh Hl. unfold slugify. cbn zeta.
  unfold remove_unsafe. rewrite filter_id.
  2:{ eapply Forall_impl; [exact Hs|]. intros c Hc.
      by destruct (slug_char_facts u c Hc). }
  rewrite underscore_runs_id.
  2:{ eapply Forall_impl; [exact Hs|]. intros c Hc.
      by destruct (slug_char_facts u c Hc) as (_ & ? & _). }
  unfold slice_to. replace (0 <=? max_length)%Z with true
    by (symmetry; apply Z.leb_le; lia).
  rewrite take_ge by lia.
  change (lit "_") with [95%N]. rewrite strip_chars_id.
  2,3: intros c Hc ->%list_elem_of_singleton; congruence.
  rewrite lower_ascii.
  2:{ eapply Forall_impl; [exact Hs|]. intros c Hc.
      by destruct (slug_char_facts u c Hc) as (_ & _ & ? & _). }
  clear Hlen Hh Hl. induction Hs as [|c s Hc _ IH]; [done|].
  rewrite fmap_cons. destruct (slug_char_facts u c Hc) as (_ & _ & _ & ->).
  by rewrite IH.
Qed.

(** X17. On ASCII titles [slugify] is idempotent: the slug of a slug is the
    slug. *)
Theorem slugify_idempotent (u : unicode) (title : str) (max_length : Z) :
  is_ascii title → (0 ≤ max_length)%Z →
  slugify u (slugify u title max_length) max_length
  = slugify u title max_length.
Proof.
  intros Ht Hn.
  destruct (slugify_ascii u title max_length Ht Hn) as (Hc & Hlen & Hh & Hl).
  by apply slugify_slug.
Qed.

(** X18. The name of the audio file, before [.mp3], is at most 60
    characters long and holds no whitespace and, of ASCII, only letters,
    digits, [_] and [-]: no path separator and no dot. It is neither stripped
    nor lowercased, and may be empty. *)
Theorem safe_title_file_name (u : unicode) (title : str) :
  let name := safe_title u title in
  length name ≤ 60
  ∧ Forall (λ c, isspace c = false
                 ∧ (97 ≤ c ≤ 122 ∨ 65 ≤ c ≤ 90 ∨ 48 ≤ c ≤ 57
                    ∨ c = 95 ∨ c = 45 ∨ 128 ≤ c)%N) name.
Proof.
  cbn zeta. unfold safe_title. split_and!.
  - pose proof (slice_to_length 60 (underscore_runs false (remove_unsafe u title)))
      as H. lia.
  - eapply Forall_sublist; [apply slice_to_sublist|].
    apply Forall_forall. intros c Hc. apply core_chars in Hc as [Hn Hs].
    done.
Qed.

(** X16. The slug of an ASCII title holds only [a-z], [0-9], [_] and [-],
    is at most [max_length] characters long, and neither starts nor ends with
    an underscore. It may be empty. *)
Theorem slugify_safe (u : unicode) (title : str) (max_length : Z) :
  is_ascii title → (0 ≤ max_length)%Z →
  let slug := slugify u title max_length in
  Forall slug_char slug
  ∧ (Z.of_nat (length slug) ≤ max_length)%Z
  ∧ head slug ≠ Some 95%N
  ∧ last slug ≠ Some 95%N.
Proof. apply slugify_ascii. Qed.

(** X15. The media type sent with an image is one of the four types of
    [media_type_map] ([image/png] for any other extension), and renumbering
    does not change it: the description call sends the type the
    classification call sent. *)
Theorem media_type_of_numbered (u : unicode) (i : nat) (p : Path) :
  media_type u (numbered i p) = media_type u p
  ∧ media_type u p
    ∈ [lit "image/png"; lit "image/jpeg"; lit "image/gif"; lit "image/webp"].
Proof.
  unfold media_type. cbn zeta. rewrite suffix_numbered. split; [done|].
  generalize (lower u (suffix p)). intros ext.
  unfold media_type_map. cbn [dict_get].
  repeat (case_decide; [cbn [default]; set_solver|]).
  cbn [default]. set_solver.
Qed.

(** ** [parse_dialogue] *)

Example parse_dialogue_demo :
  parse_dialogue (lit "Intro" ++ [NL] ++ lit "HOST_A:  Hello " ++ [NL]
                  ++ lit "there." ++ [NL; NL] ++ lit "HOST_B:" ++ [NL]
                  ++ lit "HOST_A: Bye.")
  = [(lit "HOST_A", lit "Hello there."); (lit "HOST_A", lit "Bye.")].
Proof. vm_compute. reflexivity. Qed.

Lemma head_rev {A} (l : list A) : head (rev l) = last l.
Proof.
  induction l as [|x l _] using rev_ind; [done|].
  by rewrite rev_app_distr, last_snoc.
Qed.

Lemma trimmed_ends s :
  trimmed s
  ↔ (∀ c, head s = Some c → isspace c = false)
    ∧ (∀ c, last s = Some c → isspace c = false).
Proof.
  unfold trimmed.
  assert (∀ t, lstrip t = t ↔ ∀ c, head t = Some c → isspace c = false) as H.
  { intros [|c t]; [done|]. split.
    - intros Hf%lstrip_fixed d [= <-]. done.
    - intros Hc. apply lstrip_nonspace. by apply Hc. }
  by rewrite !H, head_rev.
Qed.

Lemma split_lines_nonempty s : split_lines s ≠ [].
Proof.
  induction s as [|c s IH]; [done|]. cbn. destruct (c =? NL)%N; [done|].
  by destruct (split_lines s).
Qed.

Lemma split_lines_app a b :
  split_lines (a ++ NL :: b) = split_lines a ++ split_lines b.
Proof.
  induction a as [|c a IH]; [done|]. cbn. rewrite IH.
  destruct (c =? NL)%N; [done|].
  pose proof (split_lines_nonempty a). by destruct (split_lines a).
Qed.

Lemma split_lines_line a : NL ∉ a → split_lines a = [a].
Proof.
  induction a as [|c a IH]; [done|]. intros [Hc Ha]%not_elem_of_cons.
  cbn [split_lines]. rewrite IH by done.
  assert ((c =? NL)%N = false) as -> by (apply N.eqb_neq; congruence). done.
Qed.

Lemma split_lines_no_newline s : Forall (λ l, NL ∉ l) (split_lines s).
Proof.
  induction s as [|c s IH]; [repeat constructor; apply not_elem_of_nil|].
  cbn [split_lines]. destruct (c =? NL)%N eqn:E.
  - constructor; [apply not_elem_of_nil|done].
  - pose proof (split_lines_nonempty s).
    destruct (split_lines s) as [|l ls]; [done|].
    apply Forall_cons in IH as [Hl Hls]. constructor; [|done].
    apply not_elem_of_cons. split; [|done]. intros Hc. subst c.
    by rewrite N.eqb_refl in E.
Qed.

Lemma split_lines_join ls :
  ls ≠ [] → Forall (λ l, NL ∉ l) ls → split_lines (join [NL] ls) = ls.
Proof.
  induction ls as [|l ls IH]; [done|]. intros _ [Hl Hls]%Forall_cons.
  destruct ls as [|l' ls].
  - by apply split_lines_line.
  - rewrite join_cons by done. cbn [app].
    by rewrite split_lines_app, split_lines_line, IH.
Qed.

(** *** What is parsed *)

Lemma strip_no_newline s : NL ∉ s → NL ∉ strip s.
Proof.
  destruct (strip_decompose s) as (a & b & Hs & _). rewrite Hs at 1.
  rewrite !elem_of_app. tauto.
Qed.

Lemma spoken_strip line : NL ∉ line → strip line ≠ [] → spoken (strip line).
Proof.
  intros Hnl Hne. split_and!; [done| |by apply strip_no_newline].
  apply trimmed_strip, strip_trimmed.
Qed.

(** Group 2 of a match, when it is not empty. *)
Lemma spoken_group line :
  spoken line → lstrip (drop 7 line) ≠ [] → spoken (lstrip (drop 7 line)).
Proof.
  intros (_ & Hs & Hnl) Hne.
  destruct (lstrip_decompose (drop 7 line)) as (a & Ha & _).
  assert (line = (take 7 line ++ a) ++ lstrip (drop 7 line)) as Hline.
  { by rewrite <- app_assoc, <- Ha, take_drop. }
  set (g := lstrip (drop 7 line)) in *.
  split_and!; [done| |].
  - apply trimmed_strip, trimmed_ends.
    assert (trimmed line) as Htl by (rewrite <- Hs; apply strip_trimmed).
    apply trimmed_ends in Htl as [_ Hlast].
    split.
    + destruct (lstrip_head (drop 7 line)) as [E|(c & t & E & Hc)];
        [done|]. fold g in E. rewrite E. by intros d [= <-].
    + intros c Hc. apply Hlast. rewrite Hline, last_app, Hc. done.
  - intros Hin. apply Hnl. rewrite Hline, elem_of_app. by right.
Qed.

Lemma join_space_ends t ts :
  Forall spoken (t :: ts) →
  join (lit " ") (t :: ts) ≠ []
  ∧ (NL ∉ join (lit " ") (t :: ts))
  ∧ head (join (lit " ") (t :: ts)) = head t
  ∧ last (join (lit " ") (t :: ts)) = last (default t (last ts)).
Proof.
  revert t. induction ts as [|t' ts IH]; intros t [Ht Hts]%Forall_cons.
  - destruct Ht as (Hne & _ & Hnl). cbn. by split_and!.
  - destruct (IH t' Hts) as (IH1 & IH2 & IH3 & IH4).
    destruct Ht as (Hne & _ & Hnl). rewrite join_cons by done. split_and!.
    + by destruct t.
    + rewrite !elem_of_app. intros [?|[Hsp|?]]; [done| |done].
      by apply list_elem_of_singleton in Hsp.
    + by destruct t.
    + assert (default t (last (t' :: ts)) = default t' (last ts)) as ->.
      { destruct ts as [|p ts0]; [done|]. rewrite last_cons_cons.
        destruct (last (p :: ts0)) eqn:E; [done|]. by apply last_None in E. }
      rewrite !last_app.
      destruct (last (join (lit " ") (t' :: ts))) as [y|] eqn:EJ; [done|].
      by apply last_None in EJ.
Qed.

Lemma join_space_spoken texts :
  texts ≠ [] → Forall spoken texts → spoken (join (lit " ") texts).
Proof.
  destruct texts as [|t ts]; [done|]. intros _ Hall.
  destruct (join_space_ends t ts Hall) as (H1 & H2 & H3 & H4).
  split_and!; [done| |done].
  assert (∀ x, spoken x → trimmed x) as Htr.
  { intros x (_ & Hx & _). rewrite <- Hx. apply strip_trimmed. }
  apply trimmed_strip, trimmed_ends. rewrite H3, H4. split; intros c Hc.
  - apply Forall_cons in Hall as [Ht _].
    apply Htr, trimmed_ends in Ht as [Hh _]. by apply Hh.
  - assert (spoken (default t (last ts))) as Hx.
    { apply Forall_cons in Hall as [Ht Hts].
      destruct (last ts) as [x|] eqn:El; [|done].
      apply last_Some in El as [l' ->]. apply Forall_app in Hts as [_ Hl].
      by apply Forall_cons in Hl as [? _]. }
    apply Htr, trimmed_ends in Hx as [_ Hl]. by apply Hl.
Qed.

Lemma match_host_speaker line speaker text :
  match_host line = Some (speaker, text) →
  (speaker = lit "HOST_A" ∨ speaker = lit "HOST_B")
  ∧ text = lstrip (drop 7 line).
Proof.
  unfold match_host. destruct (starts_with _ line); [intros [= <- <-]; auto|].
  destruct (starts_with _ line); [intros [= <- <-]; auto|done].
Qed.

Lemma flush_inv st : parse_inv st → Forall dialogue_segment (flush st).
Proof.
  intros (Hl & Ht & Hs). unfold flush.
  destruct (current_speaker st) as [[|c speaker]|]; [done| |done].
  destruct (current_text st) as [|t ts] eqn:E; [done|]. cbn [is_empty].
  apply Forall_app. split; [done|]. constructor; [|done].
  split; [by apply Hs|]. cbn [snd]. by apply join_space_spoken.
Qed.

Lemma parse_step_inv st line :
  NL ∉ line → parse_inv st → parse_inv (parse_step st line).
Proof.
  intros Hnl Hinv. unfold parse_step. cbn zeta.
  destruct (strip line) as [|c l] eqn:El; [done|]. cbn [is_empty].
  assert (spoken (c :: l)) as Hsp.
  { rewrite <- El. apply spoken_strip; [done|]. by rewrite El. }
  destruct (match_host (c :: l)) as [[speaker text]|] eqn:Em.
  - apply match_host_speaker in Em as [Hspeaker ->].
    split_and!; cbn [lines current_text current_speaker].
    + by apply flush_inv.
    + destruct (lstrip (drop 7 (c :: l))) eqn:Eg; [done|]. cbn [is_empty].
      constructor; [|done]. rewrite <- Eg. apply spoken_group; [done|].
      by rewrite Eg.
    + by intros ? [= <-].
  - pose proof Hinv as (Hl & Ht & Hs).
    destruct (current_speaker st) as [[|d speaker]|] eqn:Es;
      [exact Hinv| |exact Hinv].
    split_and!; cbn [lines current_text current_speaker]; [done| |].
    + apply Forall_app. split; [done|]. by constructor.
    + done.
Qed.

Lemma parse_fold_inv st ls :
  Forall (λ l, NL ∉ l) ls → parse_inv st → parse_inv (foldl parse_step st ls).
Proof.
  intros Hls. revert st. induction Hls as [|l ls Hl _ IH]; intros st Hst; [done|].
  cbn [foldl]. by apply IH, parse_step_inv.
Qed.

Lemma parse_dialogue_inv script : Forall dialogue_segment (parse_dialogue script).
Proof.
  apply flush_inv, parse_fold_inv; [apply split_lines_no_newline|].
  by split_and!.
Qed.

(** *** Rendering and parsing *)

Lemma parse_step_render st x :
  dialogue_segment x →
  parse_step st (render_line x)
  = {| lines := flush st; current_speaker := Some x.1;
       current_text := [x.2] |}.
Proof.
  destruct x as [speaker text]. intros [Hspeaker (Hne & Hs & Hnl)].
  cbn [fst snd] in *.
  assert (trimmed text) as Ht by (rewrite <- Hs; apply strip_trimmed).
  apply trimmed_ends in Ht as [Hh Hl].
  destruct text as [|c text]; [done|].
  assert (isspace c = false) as Hc by (by apply Hh).
  assert (strip (render_line (speaker, c :: text))
          = render_line (speaker, c :: text)) as Hstrip.
  { apply trimmed_strip, trimmed_ends. unfold render_line. cbn [fst snd].
    split.
    - destruct Hspeaker as [-> | ->]; by intros d [= <-].
    - intros d. rewrite !last_app.
      destruct (last (c :: text)) eqn:E; [|by apply last_None in E].
      intros [= <-]. by apply Hl. }
  unfold parse_step. cbn zeta. rewrite Hstrip.
  unfold render_line, match_host. cbn [fst snd].
  destruct Hspeaker as [-> | ->]; cbn; by rewrite Hc.
Qed.

Lemma parse_fold_render dialogue st :
  Forall dialogue_segment dialogue →
  flush (foldl parse_step st (render_line <$> dialogue))
  = flush st ++ dialogue.
Proof.
  intros Hd. revert st.
  induction Hd as [|x d Hx _ IH]; intros st; [by rewrite app_nil_r|].
  rewrite fmap_cons. cbn [foldl]. rewrite IH, parse_step_render by done.
  destruct x as [speaker text]. destruct Hx as [Hspeaker (Hne & _)].
  cbn [fst snd] in *.
  assert (∃ c sp, speaker = c :: sp) as (c & sp & ->)
    by (destruct Hspeaker as [-> | ->]; by eexists _, _).
  unfold flush at 1. cbn [current_speaker current_text lines is_empty join].
  by rewrite <- app_assoc.
Qed.

Lemma render_line_no_newline x : dialogue_segment x → NL ∉ render_line x.
Proof.
  destruct x as [speaker text]. intros [Hspeaker (_ & _ & Hnl)].
  unfold render_line. cbn [fst snd] in *. rewrite !elem_of_app.
  assert (NL ∉ lit "HOST_A") as HA by by_compute.
  assert (NL ∉ lit "HOST_B") as HB by by_compute.
  assert (NL ∉ lit ": ") as Hsep by by_compute.
  destruct Hspeaker as [-> | ->]; tauto.
Qed.

Lemma parse_render dialogue :
  Forall dialogue_segment dialogue → parse_dialogue (render dialogue) = dialogue.
Proof.
  intros Hd. unfold parse_dialogue, render.
  destruct dialogue as [|x d]; [done|].
  rewrite split_lines_join.
  - by rewrite parse_fold_render.
  - done.
  - apply Forall_fmap. eapply Forall_impl; [exact Hd|].
    intros y Hy. by apply render_line_no_newline.
Qed.

Lemma parse_fold_preamble ls :
  Forall (λ l, match_host (strip l) = None) ls →
  foldl parse_step (ParseState [] None []) ls = ParseState [] None [].
Proof.
  induction 1 as [|l ls Hl _ IH]; [done|]. cbn [foldl].
  assert (parse_step (ParseState [] None []) l = ParseState [] None []) as ->;
    [|done].
  unfold parse_step. cbn zeta. rewrite Hl. by destruct (is_empty _).
Qed.

(** X23. Every segment returned by [parse_dialogue] has the speaker
    [HOST_A] or [HOST_B] and a text that is not empty, has no whitespace at
    its ends and no newline, whatever the script. *)
Theorem parse_dialogue_segments (script : str) :
  Forall (λ x, (x.1 = lit "HOST_A" ∨ x.1 = lit "HOST_B")
               ∧ x.2 ≠ [] ∧ strip x.2 = x.2 ∧ NL ∉ x.2)
         (parse_dialogue script).
Proof. apply parse_dialogue_inv. Qed.

(** X24. Parsing inverts rendering: a dialogue written one segment a line,
    as [HOST_A: text] or [HOST_B: text], parses back to the same dialogue. *)
Theorem parse_dialogue_round_trip (dialogue : list (str * str)) :
  Forall dialogue_segment dialogue → parse_dialogue (render dialogue) = dialogue.
Proof. apply parse_render. Qed.

(** X25. The lines before the first line that starts with a speaker label
    are dropped; a script without such a line parses to no segment at all. *)
Theorem parse_dialogue_preamble (preamble rest : str) :
  Forall (λ l, match_host (strip l) = None) (split_lines preamble) →
  parse_dialogue (preamble ++ [NL] ++ rest) = parse_dialogue rest
  ∧ parse_dialogue preamble = [].
Proof.
  intros Hpre. unfold parse_dialogue. cbn [app].
  rewrite split_lines_app, foldl_app, parse_fold_preamble by done.
  done.
Qed.

(** ** Example runs *)

Lemma demo_chunks :
  _chunk_text demo_raw_text MAX_CHARS
  = [replicate (Z.to_nat 5000) 97%N ++ nn ++ replicate (Z.to_nat 5000) 97%N;
     replicate (Z.to_nat 5000) 97%N].
Proof. vm_compute. reflexivity. Qed.

(** The second chunk is cleaned first. *)
Lemma clean_paper_text_order_independent_witness :
  [1; 0] ≡ₚ seq 0 (length (_chunk_text demo_raw_text MAX_CHARS))
  ∧ clean_paper_text demo_world [1; 0] demo_raw_text (Some demo_title)
    = Some (sequential_baseline demo_world demo_raw_text (Some demo_title)).
Proof.
  assert ([1; 0] ≡ₚ seq 0 (length (_chunk_text demo_raw_text MAX_CHARS)))
    as Hperm.
  { rewrite demo_chunks. apply Permutation_swap. }
  split; [exact Hperm|].
  exact (proj1 (clean_paper_text_order_independent demo_world [1; 0]
                  demo_raw_text (Some demo_title) Hperm)).
Defined.

Example clean_paper_text_demo :
  clean_paper_text demo_world [1; 0] demo_raw_text (Some demo_title)
  = Some (Ok demo_raw_text).
Proof. vm_compute. reflexivity. Qed.

(** Candidates at positions 0..3 answered [figure, artifact, figure, figure],
    the classifications completing in the order 3, 1, 0, 2. *)
Lemma triage_numbering_witness :
  NoDup demo_images
  ∧ (∀ p, p ∈ demo_images → is_Some (fs demo_files !! p))
  ∧ [3; 1; 0; 2] ≡ₚ seq 0 (length demo_images)
  ∧ (triage demo_world demo_title demo_images [3; 1; 0; 2] demo_files).2
    = Ok [img "figure_1.png"; img "figure_2.jpg"; img "figure_3.png"].
Proof.
  assert (NoDup demo_images) as Hnd.
  { by_compute. }
  assert (∀ p, p ∈ demo_images → is_Some (fs demo_files !! p)) as Hex.
  { intros p Hp. unfold demo_images in Hp.
    repeat (apply elem_of_cons in Hp as [->|Hp]);
      [by vm_compute; eexists..|by apply elem_of_nil in Hp]. }
  assert ([3; 1; 0; 2] ≡ₚ seq 0 (length demo_images)) as Hperm.
  { by_compute. }
  split_and!; [done..|].
  destruct (triage_numbering demo_world demo_title demo_images [3; 1; 0; 2]
              demo_files Hnd Hex Hperm) as [(fs' & -> & _) _].
  vm_compute. reflexivity.
Defined.

(** The files after the triage of the example: [figure_1] holds the image
    found at position 0, [figure_2] the one at position 2, [figure_3] the one
    at position 3, and the artifact is gone. *)
Example triage_demo_files :
  let s := (triage demo_world demo_title demo_images [3; 1; 0; 2] demo_files).1 in
  fs s !! img "figure_1.png" = Some [1%N]
  ∧ fs s !! img "figure_2.jpg" = Some [3%N]
  ∧ fs s !! img "figure_3.png" = Some [4%N]
  ∧ fs s !! img "b.png" = None
  ∧ log s = [EvClassified 3; EvClassified 1; EvUnlink (img "b.png");
             EvClassified 0; EvClassified 2;
             EvRename (img "a.png") (img "figure_1.png");
             EvRename (img "c.jpg") (img "figure_2.jpg");
             EvRename (img "d.png") (img "figure_3.png")].
Proof. vm_compute. split_and!; reflexivity. Qed.

(** The classification of the candidate at position 2 raises. *)
Lemma classification_error_keeps_candidate_witness :
  [3; 1; 0; 2] ≡ₚ seq 0 (length demo_images)
  ∧ demo_images !! 2 = Some (img "c.jpg")
  ∧ is_paper_figure demo_world_classifier_down (img "c.jpg") demo_title
    = Err (RemoteError 529)
  ∧ img "c.jpg"
    ∈ (triage_loop demo_world_classifier_down demo_title demo_images
                   [3; 1; 0; 2] demo_files).2.
Proof.
  assert ([3; 1; 0; 2] ≡ₚ seq 0 (length demo_images)) as Hperm.
  { by_compute. }
  split_and!; [exact Hperm|reflexivity|reflexivity|].
  exact (proj1 (classification_error_keeps_candidate
                  demo_world_classifier_down demo_title demo_images
                  [3; 1; 0; 2] demo_files 2 (img "c.jpg") (RemoteError 529)
                  Hperm eq_refl eq_refl)).
Defined.

Example classification_error_demo :
  (triage demo_world_classifier_down demo_title demo_images [3; 1; 0; 2]
          demo_files).2
  = Ok [img "figure_1.png"; img "figure_2.jpg"; img "figure_3.png"].
Proof. vm_compute. reflexivity. Qed.

(** The cleaning of the second of two chunks raises. *)
Lemma cleaning_failure_aborts_witness :
  get_client demo_world_cleaner_down = Ok tt
  ∧ clean_order demo_schedule
    ≡ₚ seq 0 (length (_chunk_text demo_raw_text MAX_CHARS))
  ∧ _chunk_text demo_raw_text MAX_CHARS !! 1
    = Some (replicate (Z.to_nat 5000) 97%N)
  ∧ _clean_chunk demo_world_cleaner_down (replicate (Z.to_nat 5000) 97%N)
                 (1 + 1) (length (_chunk_text demo_raw_text MAX_CHARS))
                 (Some demo_title)
    = Err (RemoteError 500)
  ∧ ∃ s' e',
      process_paper demo_world_cleaner_down demo_schedule demo_raw_text
                    demo_images demo_title demo_dir true true demo_files
      = Some (s', Err e').
Proof.
  assert (clean_order demo_schedule
          ≡ₚ seq 0 (length (_chunk_text demo_raw_text MAX_CHARS))) as Hperm.
  { rewrite demo_chunks. apply Permutation_swap. }
  assert (_chunk_text demo_raw_text MAX_CHARS !! 1
          = Some (replicate (Z.to_nat 5000) 97%N)) as Hchunk.
  { by rewrite demo_chunks. }
  split_and!; [reflexivity|exact Hperm|exact Hchunk|reflexivity|].
  destruct (cleaning_failure_aborts demo_world_cleaner_down demo_schedule
              demo_raw_text demo_images demo_title
              demo_dir true true demo_files
              1 (replicate (Z.to_nat 5000) 97%N) (RemoteError 500)
              eq_refl Hperm Hchunk eq_refl)
    as (j & chunk_j & e_j & _ & _ & _ & _ & _ & _ & s' & e' & evs & Hrun & _).
  by exists s', e'.
Defined.

(** The run of the example in which the cleaner is down: the figures are
    triaged, the error of the cleaner is raised, and no file is written. *)
Example cleaning_failure_demo :
  match process_paper demo_world_cleaner_down demo_schedule demo_raw_text
                      demo_images demo_title demo_dir true true demo_files with
  | Some (s', Err e) =>
      e = RemoteError 500
      ∧ fs s' !! mkPath (lit "out/coastal_change") (lit "paper.md") = None
      ∧ Forall (λ ev, ∀ p, ev ≠ EvWrite p) (log s')
  | _ => False
  end.
Proof. vm_compute. split_and!; [reflexivity..|]. by repeat constructor. Qed.

(** Three paragraphs, the second of which is synthesized to nothing. *)
Lemma audio_assembly_witness :
  Forall2 (λ para seg, _synthesize_segment demo_engine para demo_voice = Ok seg)
          (script_parts
             (stream_script demo_engine demo_voice
                [lit "One." ++ nn ++ lit "..." ++ nn; lit "Two."]))
          [[1; 2; 3]; []; [1; 2; 3]]%Z
  ∧ combined (create_podcast demo_engine
                [lit "One." ++ nn ++ lit "..." ++ nn; lit "Two."] demo_voice)
    = Ok ([1; 2; 3]%Z ++ pause ++ [1; 2; 3]%Z ++ pause).
Proof.
  assert (Forall2
            (λ para seg, _synthesize_segment demo_engine para demo_voice = Ok seg)
            (script_parts
               (stream_script demo_engine demo_voice
                  [lit "One." ++ nn ++ lit "..." ++ nn; lit "Two."]))
            [[1; 2; 3]; []; [1; 2; 3]]%Z) as Hsegs.
  { rewrite (proj1 (stream_script_paragraphs _ _ _)).
    vm_compute. repeat constructor. }
  split; [exact Hsegs|].
  rewrite (proj1 (proj2 (audio_assembly demo_engine demo_voice)) _ _ Hsegs).
  vm_compute. reflexivity.
Defined.

(** C5, as stated, fails: a run whose only paragraph is synthesized to
    zero-length audio is aborted. *)
Lemma empty_segment_aborts_run :
  script_parts (stream_script silent_engine demo_voice [lit "Hello."])
  = [lit "Hello."]
  ∧ _synthesize_segment silent_engine (lit "Hello.") demo_voice = Ok []
  ∧ combined (create_podcast silent_engine [lit "Hello."] demo_voice)
    = Err (ValueError (lit "No audio was generated"))
  ∧ generate_audio silent_engine (lit "Hello.") demo_voice
    = Err (ValueError (lit "No audio was generated")).
Proof. vm_compute. split_and!; reflexivity. Qed.

(** One [## References] heading, at position 8. *)
Lemma insert_figure_descriptions_placement_witness :
  occurrences REFERENCES demo_markdown = [8]
  ∧ _insert_figure_descriptions demo_markdown demo_descriptions demo_figures
    = lit "Intro." ++ nn
      ++ figures_section demo_descriptions demo_figures
      ++ lit "## References" ++ nn ++ lit "[1] A.".
Proof.
  assert (occurrences REFERENCES demo_markdown = [8]) as Hocc by reflexivity.
  split; [exact Hocc|].
  destruct (proj1 (insert_figure_descriptions_placement demo_markdown
                     demo_descriptions demo_figures) 8 Hocc)
    as (before & after & Hm & Hlen & ->).
  assert (before = lit "Intro." ++ nn) as ->.
  { apply (f_equal (take 8)) in Hm. rewrite take_app_length' in Hm by done.
    by rewrite <-Hm. }
  apply (f_equal (drop 21)) in Hm. vm_compute in Hm. rewrite <-Hm.
  reflexivity.
Defined.

(** With two [## References] headings the section is inserted before each
    of them: [str.replace] is called without a count. The document then has
    two [## Figures] sections. *)
Lemma figures_section_inserted_twice :
  let section := figures_section demo_descriptions demo_figures in
  let out :=
    _insert_figure_descriptions demo_markdown_two demo_descriptions
                                demo_figures in
  occurrences REFERENCES demo_markdown_two = [8; 53]
  ∧ drop 53 demo_markdown_two = lit "## References" ++ nn ++ lit "[2] B."
  ∧ out ≠ take 53 demo_markdown_two ++ section ++ drop 53 demo_markdown_two
  ∧ out = take 8 demo_markdown_two ++ section
          ++ drop 8 (take 53 demo_markdown_two) ++ section
          ++ drop 53 demo_markdown_two
  ∧ length (occurrences (lit "## Figures") out) = 2.
Proof.
  cbn zeta. split_and!; [reflexivity|reflexivity| |reflexivity|reflexivity].
  apply (bool_decide_eq_false_1 _). vm_compute. reflexivity.
Qed.

(** C1, on the code. The descriptions are stored in the order in which the
    description calls complete, and [_insert_figure_descriptions] numbers
    them by that order. In this run the calls for figures 3, 1, 2 complete in
    this order: the headings and images appear in number order 1, 2, 3, but
    the heading and image of figure 1 carry the description generated for
    figure 3, those of figure 2 the description of figure 1, and those of
    figure 3 the description of figure 2. *)
Theorem descriptions_paired_by_completion_order :
  describe_figure demo_world (img "figure_1.png") 1 demo_title
  = Ok (lit "A map.")
  ∧ describe_figure demo_world (img "figure_2.jpg") 2 demo_title
    = Ok (lit "A graph.")
  ∧ describe_figure demo_world (img "figure_3.png") 3 demo_title
    = Ok (lit "A diagram.")
  ∧ desc_order demo_schedule = [2; 0; 1]
  ∧ match process_paper demo_world demo_schedule demo_raw_text demo_images
                        demo_title demo_dir true true demo_files with
    | Some (s', Ok p) =>
        figures p
        = [img "figure_1.png"; img "figure_2.jpg"; img "figure_3.png"]
        ∧ figure_descriptions p
          = [(lit "figure_3", lit "A diagram."); (lit "figure_1", lit "A map.");
             (lit "figure_2", lit "A graph.")]
        ∧ fs s' !! markdown_path p
          = Some (demo_raw_text ++ nn ++ lit "## Figures" ++ nn
                  ++ lit "### Figure 1" ++ nn
                  ++ lit "![Figure 1](img/figure_1.png)" ++ nn
                  ++ lit "**Description:** A diagram." ++ nn
                  ++ lit "### Figure 2" ++ nn
                  ++ lit "![Figure 2](img/figure_2.jpg)" ++ nn
                  ++ lit "**Description:** A map." ++ nn
                  ++ lit "### Figure 3" ++ nn
                  ++ lit "![Figure 3](img/figure_3.png)" ++ nn
                  ++ lit "**Description:** A graph." ++ nn)
    | _ => False
    end.
Proof.
  split_and!; [reflexivity..|]. vm_compute. split_and!; reflexivity.
Qed.

(** C7, as stated, fails: the code does not ask whether the
    [## References] heading is the trailing one. In a document whose only
    [## References] heading is followed by an appendix, so that the document
    has no trailing [## References] heading, the section is not appended at
    the end: it goes before the [## References] heading. *)
Lemma figures_section_before_inner_heading :
  let section := figures_section demo_descriptions demo_figures in
  let out :=
    _insert_figure_descriptions demo_markdown_appendix demo_descriptions
                                demo_figures in
  occurrences REFERENCES demo_markdown_appendix = [8]
  ∧ occurrences (lit "## ") demo_markdown_appendix = [8; 31]
  ∧ drop 31 demo_markdown_appendix = lit "## Appendix" ++ nn ++ lit "More."
  ∧ out = take 8 demo_markdown_appendix ++ section
          ++ drop 8 demo_markdown_appendix
  ∧ out ≠ demo_markdown_appendix ++ section.
Proof.
  cbn zeta. split_and!; [reflexivity..|].
  apply (bool_decide_eq_false_1 _). vm_compute. reflexivity.
Qed.

(** ** Example runs of the further properties *)

Lemma chunk_text_short_text_witness :
  (Z.of_nat (sum_len (split_nn demo_markdown)) ≤ MAX_CHARS)%Z
  ∧ _chunk_text demo_markdown MAX_CHARS = [demo_markdown].
Proof.
  assert (Z.of_nat (sum_len (split_nn demo_markdown)) ≤ MAX_CHARS)%Z as H
    by by_compute.
  split; [exact H|]. exact (chunk_text_short_text _ _ H).
Defined.

Lemma chunk_text_long_paragraphs_witness :
  Forall (λ p, (1 < Z.of_nat (length p))%Z) (split_nn demo_markdown)
  ∧ _chunk_text demo_markdown 1 = split_nn demo_markdown.
Proof.
  assert (Forall (λ p, (1 < Z.of_nat (length p))%Z) (split_nn demo_markdown))
    as H by by_compute.
  split; [exact H|]. exact (chunk_text_long_paragraphs _ _ H).
Defined.

Lemma clean_paper_text_short_witness :
  (Z.of_nat (sum_len (split_nn demo_markdown)) ≤ MAX_CHARS)%Z
  ∧ get_client demo_world = Ok tt
  ∧ clean_paper_text demo_world [0] demo_markdown (Some demo_title)
    = Some (Ok demo_markdown).
Proof.
  assert (Z.of_nat (sum_len (split_nn demo_markdown)) ≤ MAX_CHARS)%Z as H
    by by_compute.
  split_and!; [exact H|reflexivity|].
  exact (clean_paper_text_short demo_world demo_markdown (Some demo_title)
           H eq_refl).
Defined.

Lemma describe_loop_lookup_witness :
  [2; 0; 1] ≡ₚ seq 0 (length demo_numbered)
  ∧ dict_get (describe_loop demo_world demo_title demo_numbered [2; 0; 1])
             (lit "figure_2")
    = Some (lit "A graph.").
Proof.
  assert ([2; 0; 1] ≡ₚ seq 0 (length demo_numbered)) as Hperm by by_compute.
  split; [exact Hperm|].
  exact (proj1 (proj2 (describe_loop_lookup demo_world demo_title
                         demo_numbered [2; 0; 1] Hperm))
           1 (img "figure_2.jpg") eq_refl).
Defined.

Lemma figures_section_completion_order_witness :
  [2; 0; 1] ≡ₚ seq 0 (length demo_numbered)
  ∧ figures_section
      (describe_loop demo_world demo_title demo_numbered [2; 0; 1])
      demo_numbered
    = nn ++ lit "## Figures" ++ nn
      ++ image_entry 1 (img "figure_1.png") (lit "A diagram.")
      ++ image_entry 2 (img "figure_2.jpg") (lit "A map.")
      ++ image_entry 3 (img "figure_3.png") (lit "A graph.").
Proof.
  assert ([2; 0; 1] ≡ₚ seq 0 (length demo_numbered)) as Hperm by by_compute.
  split; [exact Hperm|].
  rewrite (figures_section_completion_order demo_world demo_title
             demo_numbered [2; 0; 1] Hperm).
  vm_compute. reflexivity.
Defined.

Lemma insert_figure_descriptions_every_occurrence_witness :
  contains REFERENCES demo_markdown_two = true
  ∧ ∃ pieces : list str,
      2 ≤ length pieces
      ∧ Forall (λ p, contains REFERENCES p = false) pieces
      ∧ demo_markdown_two = join REFERENCES pieces
      ∧ _insert_figure_descriptions demo_markdown_two demo_descriptions
                                    demo_figures
        = join (figures_section demo_descriptions demo_figures ++ REFERENCES)
               pieces.
Proof.
  assert (contains REFERENCES demo_markdown_two = true) as H by reflexivity.
  split; [exact H|].
  exact (insert_figure_descriptions_every_occurrence demo_markdown_two
           demo_descriptions demo_figures H).
Defined.

(** A file beside the images is left as it is. *)
Lemma process_paper_frame_witness :
  match process_paper demo_world demo_schedule_short demo_markdown
                      demo_images demo_title demo_dir true true
                      demo_files_notes with
  | Some (s', _) => fs s' !! demo_notes = Some (lit "keep")
  | None => False
  end.
Proof.
  assert (is_Some (process_paper demo_world demo_schedule_short demo_markdown
                     demo_images demo_title demo_dir true true
                     demo_files_notes)) as Hrun by by_compute.
  destruct (process_paper demo_world demo_schedule_short demo_markdown
              demo_images demo_title demo_dir true true demo_files_notes)
    as [[s' r]|] eqn:E; [|by destruct Hrun].
  rewrite (process_paper_frame demo_world demo_schedule_short demo_markdown
             demo_images demo_title demo_dir true true demo_files_notes
             s' r demo_notes E).
  - vm_compute. reflexivity.
  - by_compute.
  - by intros n p Hp [=].
  - by vm_compute.
Defined.

Lemma process_paper_writes_document_last_witness :
  match process_paper demo_world demo_schedule_short demo_markdown
                      demo_images demo_title demo_dir true true
                      demo_files with
  | Some (s', Ok p) =>
      markdown_path p = path_join demo_dir (lit "paper.md")
      ∧ ∃ evs, log s' = log demo_files ++ evs ++ [EvWrite (markdown_path p)]
               ∧ Forall (λ ev, ∀ q, ev ≠ EvWrite q) evs
  | _ => False
  end.
Proof.
  assert (match process_paper demo_world demo_schedule_short demo_markdown
                  demo_images demo_title demo_dir true true demo_files with
          | Some (_, Ok _) => True
          | _ => False
          end) as Hrun by (vm_compute; exact I).
  revert Hrun.
  destruct (process_paper demo_world demo_schedule_short demo_markdown
              demo_images demo_title demo_dir true true demo_files)
    as [[s' [p|e]]|] eqn:E; intros Hrun; [|destruct Hrun..].
  destruct (process_paper_writes_document_last demo_world demo_schedule_short
              demo_markdown demo_images demo_title demo_dir true true
              demo_files s' p E)
    as (clean & evs & _ & _ & Hmd & _ & Hlog & Hevs).
  split; [exact Hmd|]. exists evs. split; [exact Hlog|exact Hevs].
Defined.

(** The figures are kept and numbered, but not described. *)
Lemma process_paper_plain_document_witness :
  match process_paper demo_world demo_schedule_short demo_markdown
                      demo_images demo_title demo_dir true false
                      demo_files with
  | Some (s', Ok p) =>
      figure_descriptions p = []
      ∧ fs s' !! markdown_path p = Some demo_markdown
  | _ => False
  end.
Proof.
  assert (match process_paper demo_world demo_schedule_short demo_markdown
                  demo_images demo_title demo_dir true false demo_files with
          | Some (_, Ok _) => True
          | _ => False
          end) as Hrun by (vm_compute; exact I).
  revert Hrun.
  destruct (process_paper demo_world demo_schedule_short demo_markdown
              demo_images demo_title demo_dir true false demo_files)
    as [[s' [p|e]]|] eqn:E; intros Hrun; [|destruct Hrun..].
  destruct (process_paper_plain_document demo_world demo_schedule_short
              demo_markdown demo_images demo_title demo_dir true false
              demo_files s' p E)
    as (clean & Hclean & Hplain & _).
  vm_compute in Hclean. injection Hclean as <-.
  exact (Hplain (or_introl eq_refl)).
Defined.

(** No key: the four candidates are kept, the artifact too, and renamed;
    nothing is deleted or written. *)
Lemma missing_api_key_aborts_witness :
  (api_key demo_world_no_key = None ∨ api_key demo_world_no_key = Some [])
  ∧ (λ r, (log r.1, is_ok r.2))
      <$> process_paper demo_world_no_key demo_schedule_short demo_markdown
                        demo_images demo_title demo_dir true true demo_files
    = Some ([EvClassified 3; EvClassified 1; EvClassified 0; EvClassified 2;
             EvRename (img "a.png") (img "figure_1.png");
             EvRename (img "b.png") (img "figure_2.png");
             EvRename (img "c.jpg") (img "figure_3.jpg");
             EvRename (img "d.png") (img "figure_4.png")], false)
  ∧ ∃ s' e' evs,
      process_paper demo_world_no_key demo_schedule_short demo_markdown
                    demo_images demo_title demo_dir true true demo_files
      = Some (s', Err e')
      ∧ (e' = ValueError
                (lit "ANTHROPIC_API_KEY not set. Either:" ++ [NL]
                 ++ lit "  1. Set environment variable: export ANTHROPIC_API_KEY=sk-..."
                 ++ [NL]
                 ++ lit "  2. Create .env file with: ANTHROPIC_API_KEY=sk-...")
         ∨ (triage demo_world_no_key demo_title demo_images
                   (filter_order demo_schedule_short) demo_files).2 = Err e')
      ∧ log s' = log demo_files ++ evs
      ∧ Forall (λ ev, (∃ i, ev = EvClassified i)
                      ∨ ∃ src dst, ev = EvRename src dst) evs.
Proof.
  split; [by left|]. split; [vm_compute; reflexivity|].
  exact (proj2 (proj2 (proj2
           (missing_api_key_aborts demo_world_no_key demo_schedule_short
              demo_markdown demo_images demo_title demo_dir true true
              demo_files (or_introl eq_refl))))).
Defined.


Lemma script_round_trip_witness :
  script_parts (stream_script demo_engine demo_voice demo_deltas) ≠ []
  ∧ script_paragraphs
      (script (create_podcast demo_engine demo_deltas demo_voice))
    = [lit "One."; lit "Two."].
Proof.
  assert (script_parts (stream_script demo_engine demo_voice demo_deltas)
          ≠ []) as H by (by vm_compute).
  split; [exact H|].
  rewrite (script_round_trip demo_engine demo_voice demo_deltas H).
  vm_compute. reflexivity.
Defined.

Lemma generate_audio_agrees_with_stream_witness :
  script_parts (stream_script demo_engine demo_voice demo_deltas) ≠ []
  ∧ generate_audio demo_engine (concat demo_deltas) demo_voice
    = combined (create_podcast demo_engine demo_deltas demo_voice).
Proof.
  assert (script_parts (stream_script demo_engine demo_voice demo_deltas)
          ≠ []) as H by (by vm_compute).
  split; [exact H|].
  exact (proj1 (generate_audio_agrees_with_stream demo_engine demo_voice
                  demo_deltas H)).
Defined.

Lemma narration_failure_witness :
  script_parts (stream_script demo_engine_down demo_voice demo_deltas) !! 1
  = Some (lit "Two.")
  ∧ _synthesize_segment demo_engine_down (lit "Two.") demo_voice
    = Err (RemoteError 500)
  ∧ combined (create_podcast demo_engine_down demo_deltas demo_voice)
    = Err (RemoteError 500).
Proof.
  assert (script_parts (stream_script demo_engine_down demo_voice demo_deltas)
          = [lit "One."; lit "Two."]) as Hparts
    by (vm_compute; reflexivity).
  split_and!; [by rewrite Hparts|reflexivity|].
  refine (proj1 (narration_failure demo_engine_down demo_voice demo_deltas 1
                   (lit "Two.") (RemoteError 500) _ eq_refl _)).
  - by rewrite Hparts.
  - cbn zeta. rewrite Hparts. intros k q Hk Hq.
    assert (k = 0) as -> by lia. injection Hq as <-. reflexivity.
Defined.

Lemma slugify_safe_witness :
  is_ascii demo_long_title
  ∧ (0 ≤ MAX_LENGTH)%Z
  ∧ Forall slug_char (slugify demo_unicode demo_long_title MAX_LENGTH)
  ∧ (Z.of_nat (length (slugify demo_unicode demo_long_title MAX_LENGTH))
     ≤ MAX_LENGTH)%Z.
Proof.
  assert (is_ascii demo_long_title) as Ha by (unfold is_ascii; by_compute).
  assert (0 ≤ MAX_LENGTH)%Z as Hn by by_compute.
  split_and!; [exact Ha|exact Hn|..];
    by destruct (slugify_safe demo_unicode demo_long_title MAX_LENGTH Ha Hn)
      as (? & ? & ? & ?).
Defined.

Lemma slugify_idempotent_witness :
  is_ascii demo_long_title
  ∧ (0 ≤ MAX_LENGTH)%Z
  ∧ slugify demo_unicode
            (slugify demo_unicode demo_long_title MAX_LENGTH) MAX_LENGTH
    = lit "coastal_change_icesat-2_dems_2020".
Proof.
  assert (is_ascii demo_long_title) as Ha by (unfold is_ascii; by_compute).
  assert (0 ≤ MAX_LENGTH)%Z as Hn by by_compute.
  split_and!; [exact Ha|exact Hn|].
  rewrite (slugify_idempotent demo_unicode demo_long_title MAX_LENGTH Ha Hn).
  vm_compute. reflexivity.
Defined.

Lemma parse_dialogue_round_trip_witness :
  Forall dialogue_segment demo_dialogue
  ∧ parse_dialogue (lit "HOST_A: Hello there." ++ [NL] ++ lit "HOST_B: Hi.")
    = demo_dialogue.
Proof.
  assert (Forall dialogue_segment demo_dialogue) as H
    by (unfold dialogue_segment, spoken; by_compute).
  split; [exact H|].
  exact (parse_dialogue_round_trip demo_dialogue H).
Defined.

Lemma parse_dialogue_preamble_witness :
  Forall (λ l, match_host (strip l) = None)
         (split_lines (lit "Intro" ++ [NL] ++ lit "More"))
  ∧ parse_dialogue ((lit "Intro" ++ [NL] ++ lit "More") ++ [NL]
                    ++ lit "HOST_A: Hi.")
    = parse_dialogue (lit "HOST_A: Hi.").
Proof.
  assert (Forall (λ l, match_host (strip l) = None)
                 (split_lines (lit "Intro" ++ [NL] ++ lit "More"))) as H
    by by_compute.
  split; [exact H|].
  exact (proj1 (parse_dialogue_preamble _ (lit "HOST_A: Hi.") H)).
Defined.
